(** * Relevance analysis and derivative approximation of OpenMDAO

    A shallow embedding of [openmdao/utils/relevance.py] and
    [openmdao/approximation_schemes/approximation_scheme.py], and the
    properties of the specification that were checked against them.

    Python objects are modelled as follows.
    - A boolean numpy array is an [ndarray]: an object identity [oid]
      together with its contents [bits].  The code only ever mutates an array
      in place ([|=], [&=]) while it is still a fresh local copy, so contents
      can travel with the identity.
    - A [dict] whose iteration order is used is an insertion-ordered
      association list ([odict]); a [dict] that is only indexed is a [gmap].
    - A [frozenset] of names is a [gset string].
    - A raised exception is the [Raise] case of [result]; code that mutates
      the engine runs in the state-and-exception monad [M]. *)

From stdpp Require Import gmap strings list fin_maps sets sorting.
From Stdlib Require Import ZArith Lia Ascii.


(** ** Exceptions and results *)

Inductive exn :=
| KeyError
| TypeError
| IndexError
| ValueError
| AttributeError
| AssertionError
| UnboundLocalError
| NotImplementedError (msg : string)
| RuntimeError (msg : string)
| NameError (name : string)
| ClientError.

Inductive result (A : Type) :=
| Ok (a : A)
| Raise (e : exn).
Arguments Ok {A} a.
Arguments Raise {A} e.

Definition is_ok {A} (r : result A) : bool :=
  match r with Ok _ => true | Raise _ => false end.

Definition rbind {A B} (r : result A) (f : A → result B) : result B :=
  match r with Ok a => f a | Raise e => Raise e end.

Definition of_option {A} (e : exn) (o : option A) : result A :=
  match o with Some a => Ok a | None => Raise e end.

Global Instance result_ret : MRet result := λ A a, Ok a.
Global Instance result_bind : MBind result := λ A B f r, rbind r f.

(** [[f(x) for x in xs]], stopping at the first exception. *)
Fixpoint mapR {A B} (f : A → result B) (xs : list A) : result (list B) :=
  match xs with
  | [] => Ok []
  | x :: xs' => y ← f x; ys ← mapR f xs'; Ok (y :: ys)
  end.

(** ** Insertion-ordered dictionaries *)

Module OD.
Section odict.
Context {K V : Type} `{EqDecision K}.

Fixpoint get (d : list (K * V)) (k : K) : option V :=
  match d with
  | [] => None
  | (k', v) :: d' => if decide (k = k') then Some v else get d' k
  end.

(** [d[k] = v]: an existing key keeps its position. *)
Fixpoint set (d : list (K * V)) (k : K) (v : V) : list (K * V) :=
  match d with
  | [] => [(k, v)]
  | (k', v') :: d' =>
      if decide (k = k') then (k, v) :: d' else (k', v') :: set d' k v
  end.

Definition mem (d : list (K * V)) (k : K) : bool :=
  match get d k with Some _ => true | None => false end.

Definition keys (d : list (K * V)) : list K := d.*1.
Definition values (d : list (K * V)) : list V := d.*2.
End odict.
End OD.

(** ** Boolean arrays *)

Record ndarray := mk_ndarray { oid : nat; bits : list bool }.

(** [np.zeros(n, dtype=bool)] *)
Definition np_zeros (n : nat) : list bool := replicate n false.
(** [np.ones(n, dtype=bool)] *)
Definition np_ones (n : nat) : list bool := replicate n true.

(** Elementwise binary operation of two one-dimensional arrays with numpy's
    broadcasting: equal lengths, or one side of length one. *)
Definition np_binop (f : bool → bool → bool) (a b : list bool)
  : result (list bool) :=
  if decide (length a = length b) then Ok (zip_with f a b)
  else match b, a with
       | [y], _ => Ok (map (λ x, f x y) a)
       | _, [x] => Ok (map (λ y, f x y) b)
       | _, _ => Raise ValueError
       end.

(** In-place [a op= b]: the result must have the shape of [a]. *)
Definition np_binop_inplace (f : bool → bool → bool) (a b : list bool)
  : result (list bool) :=
  if decide (length a = length b) then Ok (zip_with f a b)
  else match b with
       | [y] => Ok (map (λ x, f x y) a)
       | _ => Raise ValueError
       end.

Definition np_and := np_binop andb.
Definition np_or := np_binop orb.
Definition np_invert (a : list bool) : list bool := map negb a.
Definition np_any (a : list bool) : bool := existsb id a.

(** [arr[idxs] = True] for a list of indices (all in range). *)
Definition set_true (a : list bool) (idxs : list nat) : list bool :=
  foldl (λ acc i, <[i := true]> acc) a idxs.

(** ** Seed keys

    A key of the seed relevance maps is either a single seed name (a [str])
    or a [frozenset] of names; the two are never equal as dictionary keys. *)

Inductive seedkey :=
| KStr (s : string)
| KSet (s : gset string).

Global Instance seedkey_eq_dec : EqDecision seedkey.
Proof. solve_decision. Defined.

Global Instance seedkey_countable : Countable seedkey.
Proof.
  refine (inj_countable'
            (λ k, match k with KStr s => inl s | KSet s => inr s end)
            (λ x, match x with inl s => KStr s | inr s => KSet s end) _).
  by intros [].
Defined.

(** Truth value of a seed collection ([if seeds], [not seeds]). *)
Definition key_truthy (k : seedkey) : bool :=
  match k with
  | KStr s => negb (bool_decide (s = ""))
  | KSet s => negb (bool_decide (s = ∅))
  end.

(** Iterating a [str] yields its characters, iterating a [frozenset] its
    members. *)
Fixpoint chars (s : string) : list string :=
  match s with
  | EmptyString => []
  | String c s' => String c EmptyString :: chars s'
  end.

Definition key_iter (k : seedkey) : list string :=
  match k with
  | KStr s => chars s
  | KSet s => elements s
  end.

(** ** The dataflow graph (an external collaborator)

    A directed graph in the style of networkx: nodes with attribute
    dictionaries in insertion order, and edges in insertion order. *)

Record node_data := mk_node_data {
  type_ : option string;   (* 'input' / 'output' on variable nodes *)
  local : option bool      (* the 'local' attribute, when present *)
}.

Record DiGraph := mk_DiGraph {
  g_nodes : list (string * node_data);
  g_edges : list (string * string)
}.

Definition has_node (g : DiGraph) (n : string) : bool := OD.mem (g_nodes g) n.

Definition successors (g : DiGraph) (n : string) : list string :=
  remove_dups (map snd (filter (λ e, e.1 = n) (g_edges g))).

Definition predecessors (g : DiGraph) (n : string) : list string :=
  remove_dups (map fst (filter (λ e, e.2 = n) (g_edges g))).

(** [graph.add_node(n, **attrs)] and [graph.add_edge(u, v)].  Adding a node
    that exists updates the attributes given; adding an edge creates missing
    end points with empty attributes. *)
Definition add_node (g : DiGraph) (n : string) (d : node_data) : DiGraph :=
  let d' := match OD.get (g_nodes g) n with
            | Some d0 =>
                mk_node_data (if type_ d is Some t then Some t else type_ d0)
                             (if local d is Some l then Some l else local d0)
            | None => d
            end in
  mk_DiGraph (OD.set (g_nodes g) n d') (g_edges g).

Definition touch_node (ns : list (string * node_data)) (n : string) :=
  if OD.mem ns n then ns else ns ++ [(n, mk_node_data None None)].

Definition add_edge (g : DiGraph) (u v : string) : DiGraph :=
  mk_DiGraph (touch_node (touch_node (g_nodes g) u) v)
             (if bool_decide ((u, v) ∈ g_edges g) then g_edges g
              else g_edges g ++ [(u, v)]).

Definition add_edges_from (g : DiGraph) (es : list (string * string)) :=
  foldl (λ g e, add_edge g e.1 e.2) g es.

(** ** Strings: [str.rpartition('.')[0]] and [str.startswith] *)

Definition dot : ascii := "."%char.

(** The part of [s] before its last dot; empty when [s] has no dot. *)
Fixpoint rpartition_head (s : string) : string :=
  match s with
  | EmptyString => EmptyString
  | String c s' =>
      if bool_decide (dot ∈ String.list_ascii_of_string s')
      then String c (rpartition_head s')
      else EmptyString
  end.

Fixpoint startswith (s p : string) : bool :=
  match p, s with
  | EmptyString, _ => true
  | String a p', String b s' => bool_decide (a = b) && startswith s' p'
  | String _ _, EmptyString => false
  end.

(** Number of dots in a name ([x.count('.')]). *)
Definition count_dots (s : string) : nat :=
  length (filter (λ c, c = dot) (String.list_ascii_of_string s)).

(** The order of [sorted(names, key=lambda x: x.count('.'))]. *)
Definition dots_le (a b : string) : Prop := count_dots a ≤ count_dots b.
Global Instance dots_le_dec : RelDecision dots_le.
Proof. intros a b. unfold dots_le. apply _. Defined.

(** ** The model and the seed metadata (external collaborators) *)

Record meta := mk_meta {
  source : string;
  parallel_deriv_color : option string
}.

(** [model._iterated_components]: unset, the [_contains_all] sentinel, or a
    set of component names. *)
Inductive iterated_t :=
| IterUnset
| ContainsAll
| IterSet (s : gset string).

(** The per-worker dictionary of colour-overlap errors
    [{color: [names]}] built by [_par_deriv_err_check]. *)
Definition err_dict : Type := list (string * list string).

Record Model := mk_Model {
  pathname : string;
  _dataflow_graph : DiGraph;
  comm_size : nat;                               (* comm.size *)
  comm_allgather : err_dict → list err_dict;     (* comm.allgather *)
  _use_derivatives : bool;
  mode : string;                                 (* _problem_meta['mode'] *)
  group_by_pre_opt_post : bool;                  (* _problem_meta[...] *)
  _pre_components : option (gset string);
  _post_components : option (gset string);
  _iterated_components : iterated_t;
  grad_groups : gset string;                     (* _get_relevance_modifiers *)
  always_opt : gset string;
  sys_graph : DiGraph;                           (* compute_sys_graph(comps_only=True) *)
  _conn_global_abs_in2out : list (string * string);
  auto_ivc_outputs : list string                 (* _auto_ivc._var_abs2prom['output'] *)
}.

Definition set_partition_sets (m : Model) (pre post : option (gset string))
    (it : iterated_t) : Model :=
  mk_Model (pathname m) (_dataflow_graph m) (comm_size m) (comm_allgather m)
           (_use_derivatives m)
           (mode m) (group_by_pre_opt_post m) pre post it
           (grad_groups m) (always_opt m) (sys_graph m)
           (_conn_global_abs_in2out m) (auto_ivc_outputs m).

Inductive direction := fwd | rev.

Global Instance direction_eq_dec : EqDecision direction.
Proof. solve_decision. Defined.

(** The text of a direction; a mode that is not ['auto'] is one of them. *)
Definition dir_name (d : direction) : string :=
  match d with fwd => "fwd" | rev => "rev" end.

(** A two-entry dictionary [{'fwd': ..., 'rev': ...}]. *)
Definition dir_get {A} (p : A * A) (d : direction) : A :=
  match d with fwd => p.1 | rev => p.2 end.
Definition dir_set {A} (p : A * A) (d : direction) (a : A) : A * A :=
  match d with fwd => (a, p.2) | rev => (p.1, a) end.

(** ** The state of a Relevance object *)

(** A nested dictionary [{fwdseed(s): {revseed(s): array}}].  Inner
    dictionaries are objects of their own: the same inner dictionary can be
    stored under two outer keys, so they live in a store [sm_subs] and the
    outer dictionary holds their addresses. *)
Record seed_map := mk_seed_map {
  sm_top : gmap seedkey nat;
  sm_subs : list (gmap seedkey ndarray)
}.

Definition sm_empty : seed_map := mk_seed_map ∅ [].

Definition sm_sub (m : seed_map) (kf : seedkey) : option (gmap seedkey ndarray) :=
  l ← sm_top m !! kf; sm_subs m !! l.

(** [seed_map[kf][kr]] *)
Definition sm_lookup (m : seed_map) (kf kr : seedkey) : option ndarray :=
  sub ← sm_sub m kf; sub !! kr.

(** [seed_map[kf] = {}] with a new inner dictionary; returns its address. *)
Definition sm_new_sub (m : seed_map) (kfs : list seedkey) : seed_map * nat :=
  let l := length (sm_subs m) in
  (mk_seed_map (foldl (λ top k, <[k := l]> top) (sm_top m) kfs)
               (sm_subs m ++ [∅]), l).

(** [sub[kr] = a] for the inner dictionary at address [l]. *)
Definition sm_store_at (m : seed_map) (l : nat) (kr : seedkey) (a : ndarray)
  : seed_map :=
  mk_seed_map (sm_top m) (alter (λ sub, <[kr := a]> sub) l (sm_subs m)).

Inductive kind := Var | Sys.

Global Instance kind_eq_dec : EqDecision kind.
Proof. solve_decision. Defined.

Record Relevance := mk_Relevance {
  _active : option bool;
  _graph : DiGraph;
  _rel_array_cache : gmap string ndarray;
  _no_dv_responses : list string;
  _seed_vars : gset string * gset string;
  _all_seed_vars : gset string * gset string;
  _seed_var_map : seed_map;
  _seed_sys_map : seed_map;
  _single_seed2relvars : list (string * ndarray) * list (string * ndarray);
  _single_seed2relsys : list (string * ndarray) * list (string * ndarray);
  _all_systems : option (gset string);
  _sys2idx : option (list string);
  _var2idx : option (list string);
  _nonlinear_sets : option (gmap string ndarray);
  _current_rel_varray : option ndarray;
  _current_rel_sarray : option ndarray;
  next_oid : nat
}.

Definition upd_active (v : option bool) (r : Relevance) : Relevance :=
  mk_Relevance v (_graph r) (_rel_array_cache r) (_no_dv_responses r)
    (_seed_vars r) (_all_seed_vars r) (_seed_var_map r) (_seed_sys_map r)
    (_single_seed2relvars r) (_single_seed2relsys r) (_all_systems r)
    (_sys2idx r) (_var2idx r) (_nonlinear_sets r) (_current_rel_varray r)
    (_current_rel_sarray r) (next_oid r).

Definition upd_cache (v : gmap string ndarray) (r : Relevance) : Relevance :=
  mk_Relevance (_active r) (_graph r) v (_no_dv_responses r)
    (_seed_vars r) (_all_seed_vars r) (_seed_var_map r) (_seed_sys_map r)
    (_single_seed2relvars r) (_single_seed2relsys r) (_all_systems r)
    (_sys2idx r) (_var2idx r) (_nonlinear_sets r) (_current_rel_varray r)
    (_current_rel_sarray r) (next_oid r).

Definition upd_no_dv_responses (v : list string) (r : Relevance) : Relevance :=
  mk_Relevance (_active r) (_graph r) (_rel_array_cache r) v
    (_seed_vars r) (_all_seed_vars r) (_seed_var_map r) (_seed_sys_map r)
    (_single_seed2relvars r) (_single_seed2relsys r) (_all_systems r)
    (_sys2idx r) (_var2idx r) (_nonlinear_sets r) (_current_rel_varray r)
    (_current_rel_sarray r) (next_oid r).

Definition upd_seed_vars (v : gset string * gset string) (r : Relevance)
  : Relevance :=
  mk_Relevance (_active r) (_graph r) (_rel_array_cache r) (_no_dv_responses r)
    v (_all_seed_vars r) (_seed_var_map r) (_seed_sys_map r)
    (_single_seed2relvars r) (_single_seed2relsys r) (_all_systems r)
    (_sys2idx r) (_var2idx r) (_nonlinear_sets r) (_current_rel_varray r)
    (_current_rel_sarray r) (next_oid r).

Definition upd_all_seed_vars (v : gset string * gset string) (r : Relevance)
  : Relevance :=
  mk_Relevance (_active r) (_graph r) (_rel_array_cache r) (_no_dv_responses r)
    (_seed_vars r) v (_seed_var_map r) (_seed_sys_map r)
    (_single_seed2relvars r) (_single_seed2relsys r) (_all_systems r)
    (_sys2idx r) (_var2idx r) (_nonlinear_sets r) (_current_rel_varray r)
    (_current_rel_sarray r) (next_oid r).

Definition upd_seed_var_map (v : seed_map) (r : Relevance) : Relevance :=
  mk_Relevance (_active r) (_graph r) (_rel_array_cache r) (_no_dv_responses r)
    (_seed_vars r) (_all_seed_vars r) v (_seed_sys_map r)
    (_single_seed2relvars r) (_single_seed2relsys r) (_all_systems r)
    (_sys2idx r) (_var2idx r) (_nonlinear_sets r) (_current_rel_varray r)
    (_current_rel_sarray r) (next_oid r).

Definition upd_seed_sys_map (v : seed_map) (r : Relevance) : Relevance :=
  mk_Relevance (_active r) (_graph r) (_rel_array_cache r) (_no_dv_responses r)
    (_seed_vars r) (_all_seed_vars r) (_seed_var_map r) v
    (_single_seed2relvars r) (_single_seed2relsys r) (_all_systems r)
    (_sys2idx r) (_var2idx r) (_nonlinear_sets r) (_current_rel_varray r)
    (_current_rel_sarray r) (next_oid r).

Definition upd_single_seed2relvars
    (v : list (string * ndarray) * list (string * ndarray)) (r : Relevance)
  : Relevance :=
  mk_Relevance (_active r) (_graph r) (_rel_array_cache r) (_no_dv_responses r)
    (_seed_vars r) (_all_seed_vars r) (_seed_var_map r) (_seed_sys_map r)
    v (_single_seed2relsys r) (_all_systems r)
    (_sys2idx r) (_var2idx r) (_nonlinear_sets r) (_current_rel_varray r)
    (_current_rel_sarray r) (next_oid r).

Definition upd_single_seed2relsys
    (v : list (string * ndarray) * list (string * ndarray)) (r : Relevance)
  : Relevance :=
  mk_Relevance (_active r) (_graph r) (_rel_array_cache r) (_no_dv_responses r)
    (_seed_vars r) (_all_seed_vars r) (_seed_var_map r) (_seed_sys_map r)
    (_single_seed2relvars r) v (_all_systems r)
    (_sys2idx r) (_var2idx r) (_nonlinear_sets r) (_current_rel_varray r)
    (_current_rel_sarray r) (next_oid r).

Definition upd_tables (s : gset string) (si vi : list string) (r : Relevance)
  : Relevance :=
  mk_Relevance (_active r) (_graph r) (_rel_array_cache r) (_no_dv_responses r)
    (_seed_vars r) (_all_seed_vars r) (_seed_var_map r) (_seed_sys_map r)
    (_single_seed2relvars r) (_single_seed2relsys r) (Some s)
    (Some si) (Some vi) (_nonlinear_sets r) (_current_rel_varray r)
    (_current_rel_sarray r) (next_oid r).

Definition upd_nonlinear_sets (v : gmap string ndarray) (r : Relevance)
  : Relevance :=
  mk_Relevance (_active r) (_graph r) (_rel_array_cache r) (_no_dv_responses r)
    (_seed_vars r) (_all_seed_vars r) (_seed_var_map r) (_seed_sys_map r)
    (_single_seed2relvars r) (_single_seed2relsys r) (_all_systems r)
    (_sys2idx r) (_var2idx r) (Some v) (_current_rel_varray r)
    (_current_rel_sarray r) (next_oid r).

Definition upd_current_rel_varray (v : option ndarray) (r : Relevance)
  : Relevance :=
  mk_Relevance (_active r) (_graph r) (_rel_array_cache r) (_no_dv_responses r)
    (_seed_vars r) (_all_seed_vars r) (_seed_var_map r) (_seed_sys_map r)
    (_single_seed2relvars r) (_single_seed2relsys r) (_all_systems r)
    (_sys2idx r) (_var2idx r) (_nonlinear_sets r) v
    (_current_rel_sarray r) (next_oid r).

Definition upd_current_rel_sarray (v : option ndarray) (r : Relevance)
  : Relevance :=
  mk_Relevance (_active r) (_graph r) (_rel_array_cache r) (_no_dv_responses r)
    (_seed_vars r) (_all_seed_vars r) (_seed_var_map r) (_seed_sys_map r)
    (_single_seed2relvars r) (_single_seed2relsys r) (_all_systems r)
    (_sys2idx r) (_var2idx r) (_nonlinear_sets r) (_current_rel_varray r)
    v (next_oid r).

Definition upd_next_oid (v : nat) (r : Relevance) : Relevance :=
  mk_Relevance (_active r) (_graph r) (_rel_array_cache r) (_no_dv_responses r)
    (_seed_vars r) (_all_seed_vars r) (_seed_var_map r) (_seed_sys_map r)
    (_single_seed2relvars r) (_single_seed2relsys r) (_all_systems r)
    (_sys2idx r) (_var2idx r) (_nonlinear_sets r) (_current_rel_varray r)
    (_current_rel_sarray r) v.

Definition get_seed_map (k : kind) (r : Relevance) : seed_map :=
  match k with Var => _seed_var_map r | Sys => _seed_sys_map r end.
Definition upd_seed_map (k : kind) (v : seed_map) (r : Relevance) : Relevance :=
  match k with Var => upd_seed_var_map v r | Sys => upd_seed_sys_map v r end.
Definition get_single (k : kind) (r : Relevance) :=
  match k with Var => _single_seed2relvars r | Sys => _single_seed2relsys r end.
Definition upd_single (k : kind) v (r : Relevance) : Relevance :=
  match k with
  | Var => upd_single_seed2relvars v r
  | Sys => upd_single_seed2relsys v r
  end.

(** ** The state-and-exception monad

    A raised exception keeps the mutations made so far. *)

Definition M (A : Type) : Type := Relevance → result A * Relevance.

Global Instance M_ret : MRet M := λ A a st, (Ok a, st).
Global Instance M_bind : MBind M := λ A B f m st,
  match m st with
  | (Ok a, st') => f a st'
  | (Raise e, st') => (Raise e, st')
  end.

Definition raise {A} (e : exn) : M A := λ st, (Raise e, st).
Definition gets {A} (f : Relevance → A) : M A := λ st, (Ok (f st), st).
Definition modify (f : Relevance → Relevance) : M unit := λ st, (Ok tt, f st).
Definition lift {A} (r : result A) : M A := λ st, (r, st).
Definition lift_opt {A} (e : exn) (o : option A) : M A := lift (of_option e o).

(** [for x in xs: acc = f(acc, x)] *)
Fixpoint foldM {A B} (f : B → A → M B) (acc : B) (xs : list A) : M B :=
  match xs with
  | [] => mret acc
  | x :: xs' => acc' ← f acc x; foldM f acc' xs'
  end.

(** [for x in xs: f(x)] *)
Fixpoint forM_ {A} (f : A → M unit) (xs : list A) : M unit :=
  match xs with
  | [] => mret tt
  | x :: xs' => f x;; forM_ f xs'
  end.

(** A new array object holding [b]. *)
Definition new_array (b : list bool) : M ndarray := λ st,
  (Ok (mk_ndarray (next_oid st) b), upd_next_oid (S (next_oid st)) st).

(** ** Small helpers for Python's built-ins *)

(** Position of [n] in a table built as [{n: i for i, n in enumerate(names)}]. *)
Fixpoint index_of (names : list string) (n : string) : option nat :=
  match names with
  | [] => None
  | m :: names' => if decide (n = m) then Some 0 else S <$> index_of names' n
  end.

(** [a[i]] on a one-dimensional array, [i] a table index (never negative). *)
Definition np_getitem (a : option ndarray) (i : nat) : result bool :=
  match a with
  | None => Raise TypeError                 (* None is not subscriptable *)
  | Some arr => of_option IndexError (bits arr !! i)
  end.

(** Truth value of [None], [False], [True]. *)
Definition truthy (a : option bool) : bool :=
  match a with Some true => true | _ => false end.

(** [sorted] on names: ascending code points. *)
Definition str_le (a b : string) : Prop := String.leb a b = true.
Global Instance str_le_dec : RelDecision str_le.
Proof. intros a b. unfold str_le. apply _. Defined.
Definition sorted_names (l : list string) : list string := merge_sort str_le l.

(** [repr] of a list of names; names hold letters, digits, dots, colons and
    underscores, for which [repr] of a [str] is the text in single quotes. *)
Fixpoint join (sep : string) (l : list string) : string :=
  match l with
  | [] => ""
  | [x] => x
  | x :: l' => x +:+ sep +:+ join sep l'
  end.

Definition repr_names (l : list string) : string :=
  "[" +:+ join ", " (map (λ s, "'" +:+ s +:+ "'") l) +:+ "]".

Definition newline : string := String (ascii_of_nat 10) EmptyString.

(** ** The Relevance engine *)

(** [array_hash] (openmdao.utils.array_utils), [all_ancestors]
    (openmdao.utils.general_utils) and [get_sccs_topo]
    (openmdao.utils.graph_utils) are not part of the sources at hand; the
    engine is parametrised by them. *)
Class Helpers := {
  array_hash : list bool → string;
  all_ancestors : string → list string;
  get_sccs_topo : DiGraph → list (list string)
}.

Section engine.
Context `{Helpers}.

(** *** The content-hash cache *)

Definition _get_cached_array (arr : ndarray) : M ndarray := λ st,
  let hash := array_hash (bits arr) in
  match _rel_array_cache st !! hash with
  | Some c => (Ok c, st)
  | None => (Ok arr, upd_cache (<[hash := arr]> (_rel_array_cache st)) st)
  end.

(** [rel_array[[names2inds[n] for n in names]] = True] *)
Definition true_at (names2inds : list string) (names : list string)
    (a : list bool) : result (list bool) :=
  idxs ← mapR (λ n, of_option KeyError (index_of names2inds n)) names;
  if forallb (λ i, bool_decide (i < length a)) idxs
  then Ok (set_true a idxs) else Raise IndexError.

Definition _names2rel_array (names : list string) (n_all : nat)
    (names2inds : list string) : M ndarray :=
  rel_array ← new_array (np_zeros n_all);
  b ← lift (true_at names2inds names (bits rel_array));
  _get_cached_array (mk_ndarray (oid rel_array) b).

(** *** Combining per-seed arrays *)

(** [_union_arrays]: the first array is copied, the others are or-ed into
    the copy in place. *)
Definition _union_arrays (seed_map : list (string * ndarray))
    (seeds : seedkey) : M ndarray :=
  if negb (key_truthy seeds) then new_array (np_zeros 0)
  else
    match key_iter seeds with
    | [] => raise UnboundLocalError
    | seed0 :: seeds' =>
        arr ← lift_opt KeyError (OD.get seed_map seed0);
        array ← new_array (bits arr);
        foldM (λ array seed,
                 arr ← lift_opt KeyError (OD.get seed_map seed);
                 b ← lift (np_binop_inplace orb (bits array) (bits arr));
                 mret (mk_ndarray (oid array) b))
              array seeds'
    end.

Definition _combine_relevance (fmap : list (string * ndarray))
    (fwd_seeds : seedkey) (rmap : list (string * ndarray))
    (rev_seeds : seedkey) : M ndarray :=
  farray ← _union_arrays fmap fwd_seeds;
  rarray ← _union_arrays rmap rev_seeds;
  b ← lift (np_binop_inplace andb (bits farray) (bits rarray));
  _get_cached_array (mk_ndarray (oid farray) b).

(** [_get_rel_array(seed_map, single_seed2rel, fwd_seeds, rev_seeds)];
    [k] selects the variable or the system maps. *)
Definition _get_rel_array (k : kind) (fwd_seeds rev_seeds : seedkey)
  : M ndarray :=
  seed_map ← gets (get_seed_map k);
  match sm_lookup seed_map fwd_seeds rev_seeds with
  | Some a => mret a
  | None =>
      single ← gets (get_single k);
      relarr ← _combine_relevance (single.1) fwd_seeds (single.2) rev_seeds;
      seed_map ← gets (get_seed_map k);
      l ← match sm_top seed_map !! fwd_seeds with
          | Some l => mret l
          | None =>
              let '(sm, l) := sm_new_sub seed_map [fwd_seeds] in
              modify (upd_seed_map k sm);; mret l
          end;
      modify (λ st, upd_seed_map k
                      (sm_store_at (get_seed_map k st) l rev_seeds relarr) st);;
      mret relarr
  end.

Definition _set_seeds (fwd_seeds rev_seeds : gset string) : M unit :=
  modify (upd_seed_vars (fwd_seeds, rev_seeds));;
  if key_truthy (KSet fwd_seeds) && key_truthy (KSet rev_seeds) then
    va ← _get_rel_array Var (KSet fwd_seeds) (KSet rev_seeds);
    modify (upd_current_rel_varray (Some va));;
    sa ← _get_rel_array Sys (KSet fwd_seeds) (KSet rev_seeds);
    modify (upd_current_rel_sarray (Some sa))
  else mret tt.

(** *** Scoped activation

    A context manager [with cm: body] runs the code before [yield], then
    the body, then (on every exit of the body) the [finally] block.  An
    exception raised before the [try] is entered leaves the scope without
    running the [finally] block. *)

Definition finally {A} (body : M A) (cleanup : Relevance → Relevance) : M A :=
  λ st, let '(r, st') := body st in (r, cleanup st').

Definition active {A} (b : bool) (body : M A) : M A := λ st,
  if negb (truthy (_active st)) then body st
  else
    let save := _active st in
    finally body (upd_active save) (upd_active (Some b) st).

Definition seeds_active {A} (fwd_seeds rev_seeds : option (list string))
    (body : M A) : M A := λ st,
  if bool_decide (_active st = Some false) then body st
  else
    let save := _seed_vars st in
    let save_active := _active st in
    let st := upd_active (Some true) st in
    let fwd_seeds := match fwd_seeds with
                     | None => (_all_seed_vars st).1
                     | Some l => list_to_set l
                     end in
    let rev_seeds := match rev_seeds with
                     | None => (_all_seed_vars st).2
                     | Some l => list_to_set l
                     end in
    (_set_seeds fwd_seeds rev_seeds;;
     finally body (λ st, upd_active save_active (upd_seed_vars save st))) st.

Definition all_seeds_active {A} (body : M A) : M A := λ st,
  if bool_decide (_active st = Some false) then body st
  else
    let save := _seed_vars st in
    let save_active := _active st in
    let st := upd_active (Some true) st in
    (_set_seeds (_all_seed_vars st).1 (_all_seed_vars st).2;;
     finally body (λ st, upd_active save_active (upd_seed_vars save st))) st.

Definition activate_nonlinear {A} (name : string) (active : bool)
    (body : M A) : M A := λ st,
  match _nonlinear_sets st with
  | None => if negb active || bool_decide (_active st = Some false)
            then body st else (Raise AttributeError, st)
  | Some sets =>
      match sets !! name with
      | Some arr =>
          if negb active || bool_decide (_active st = Some false)
          then body st
          else
            let save_active := _active st in
            let st := upd_active (Some true) st in
            let st := upd_current_rel_sarray (Some arr) st in
            finally body (upd_active save_active) st
      | None => body st
      end
  end.

(** *** Queries *)

Definition is_relevant (name : string) : M bool := λ st,
  if negb (truthy (_active st)) then (Ok true, st)
  else
    (i ← (names ← of_option AttributeError (_var2idx st);
          of_option KeyError (index_of names name));
     np_getitem (_current_rel_varray st) i, st).

Definition is_relevant_system (name : string) : M bool := λ st,
  if negb (truthy (_active st)) then (Ok true, st)
  else
    (i ← (names ← of_option AttributeError (_sys2idx st);
          of_option KeyError (index_of names name));
     np_getitem (_current_rel_sarray st) i, st).

(** [filter(systems, relevant)], consumed to the end; systems are given by
    their path names. *)
Definition filter_systems (systems : list string) (relevant : bool)
  : M (list string) := λ st,
  if truthy (_active st) then
    foldM (λ acc s, r ← is_relevant_system s;
                    mret (if bool_decide (relevant = r) then acc ++ [s]
                          else acc))
          [] systems st
  else if relevant then (Ok systems, st) else (Ok [], st).

(** [_rel_names_iter(rel_array, all_names, relevant)] *)
Definition _rel_names_iter (rel_array : list bool) (all_names : list string)
    (relevant : bool) : list string :=
  map fst (filter (λ p, p.2 = relevant) (zip all_names rel_array)).

Definition list_relevance (relevant : bool) (type : string)
  : M (list string) := λ st,
  (if decide (type = "system") then
     names ← of_option AttributeError (_sys2idx st);
     a ← of_option TypeError (_current_rel_sarray st);
     Ok (_rel_names_iter (bits a) names relevant)
   else
     names ← of_option AttributeError (_var2idx st);
     a ← of_option TypeError (_current_rel_varray st);
     Ok (_rel_names_iter (bits a) names relevant), st).

(** *** Reachability *)

(** The [for tgt in fnext(src)] loop of [_dependent_nodes]: [inl] is the
    early [return visited] at the first non-local node. *)
Fixpoint scan_targets (g : DiGraph) (local_only : bool) (tgts : list string)
    (stack : list string) (visited : gset string)
  : result (gset string + list string * gset string) :=
  match tgts with
  | [] => Ok (inr (stack, visited))
  | tgt :: tgts' =>
      if bool_decide (tgt ∈ visited)
      then scan_targets g local_only tgts' stack visited
      else
        stop ← (if local_only then
                  node ← of_option KeyError (OD.get (g_nodes g) tgt);
                  Ok (match local node with
                      | Some false => true
                      | _ => false
                      end)
                else Ok false);
        if (stop : bool) then Ok (inl visited)
        else scan_targets g local_only tgts' (tgt :: stack)
                          ({[tgt]} ∪ visited)
  end.

(** The [while stack] loop; the head of [stack] is the element that
    [stack.pop()] returns.  [fuel] bounds the number of iterations. *)
Fixpoint dfs_loop (fuel : nat) (g : DiGraph) (fnext : string → list string)
    (local_only : bool) (stack : list string) (visited : gset string)
  : option (result (gset string)) :=
  match fuel with
  | 0 => None
  | S fuel' =>
      match stack with
      | [] => Some (Ok visited)
      | src :: stack' =>
          match scan_targets g local_only (fnext src) stack' visited with
          | Raise e => Some (Raise e)
          | Ok (inl visited') => Some (Ok visited')
          | Ok (inr (stack'', visited'')) =>
              dfs_loop fuel' g fnext local_only stack'' visited''
          end
      end
  end.

(** Every node is pushed at most once and every pushed node but the start
    is the target of an edge, so [length (g_edges g) + 2] rounds are
    enough. *)
Definition dfs_fuel (g : DiGraph) : nat := length (g_edges g) + 2.

Definition _dependent_nodes (g : DiGraph) (start : string) (d : direction)
    (local_only : bool) : option (result (gset string)) :=
  match OD.get (g_nodes g) start with
  | Some node =>
      match (if local_only then
               match local node with
               | None => Raise KeyError
               | Some l => Ok (negb l)
               end
             else Ok false) with
      | Raise e => Some (Raise e)
      | Ok true => Some (Ok ∅)
      | Ok false =>
          let fnext := match d with
                       | fwd => successors g
                       | rev => predecessors g
                       end in
          dfs_loop (dfs_fuel g) g fnext local_only [start] {[start]}
      end
  | None => Some (Ok ∅)
  end.

(** [_vars2systems] *)
Definition _vars2systems (nameiter : list string) : gset string :=
  foldl (λ systems name,
           let sysname := rpartition_head name in
           if bool_decide (sysname ∈ systems) then systems
           else systems ∪ list_to_set (all_ancestors sysname))
        {[""]} nameiter.

(** A loop that ran out of [fuel] is reported as [None] by the functions
    above; in the monad it shows as this marker, which no Python run
    produces. *)
Definition diverged {A} : M A := raise (RuntimeError "<no result>").

Definition dependent_nodes_M (start : string) (d : direction)
    (local_only : bool) : M (gset string) :=
  g ← gets _graph;
  match _dependent_nodes g start d local_only with
  | Some r => lift r
  | None => diverged
  end.

(** *** Per-seed arrays *)

(** One round of the generator [_single_seed_array_iter]. *)
Definition single_seed_arrays (nprocs : nat) (m : meta) (d : direction)
    (all_systems all_vars : gset string)
  : M (string * bool * ndarray * ndarray) :=
  let src := source m in
  let local := bool_decide (1 < nprocs)
               && bool_decide (parallel_deriv_color m ≠ None) in
  depnodes ← dependent_nodes_M src d local;
  let rel_systems := _vars2systems (elements depnodes) in
  let rel_vars := depnodes ∖ all_systems in
  var2idx ← (st ← gets _var2idx; lift_opt AttributeError st);
  va ← _names2rel_array (elements rel_vars) (size all_vars) var2idx;
  sys2idx ← (st ← gets _sys2idx; lift_opt AttributeError st);
  sa ← _names2rel_array (elements rel_systems) (size all_systems) sys2idx;
  mret (src, local, va, sa).

(** *** Seed-pair iteration and node filters *)

Inductive io_filter := NoFilter | FilterAll | IsInput | IsOutput.

Definition _get_io_filter (inputs outputs : bool) : io_filter :=
  if inputs && outputs then NoFilter
  else if inputs then IsInput
  else if outputs then IsOutput
  else FilterAll.

Definition _is_input (node : node_data) : result bool :=
  t ← of_option KeyError (type_ node); Ok (bool_decide (t = "input")).
Definition _is_output (node : node_data) : result bool :=
  t ← of_option KeyError (type_ node); Ok (bool_decide (t = "output")).

Definition _filter_nodes_iter (g : DiGraph) (names : list string)
    (filt : node_data → result bool) : result (list string) :=
  l ← mapR (λ n, node ← of_option KeyError (OD.get (g_nodes g) n);
                 b ← filt node; Ok (n, b)) names;
  Ok (map fst (filter (λ p, p.2 = true) l)).

Definition _apply_node_filter (g : DiGraph) (names : list string)
    (filt : io_filter) : result (gset string) :=
  match filt with
  | NoFilter => Ok (list_to_set names)
  | FilterAll => Ok ∅
  | IsInput => l ← _filter_nodes_iter g names _is_input; Ok (list_to_set l)
  | IsOutput => l ← _filter_nodes_iter g names _is_output; Ok (list_to_set l)
  end.

(** [iter_seed_pair_relevance], consumed to the end.  [None] stands for the
    currently active seeds; a single name is passed as a one-element
    list. *)
Definition iter_seed_pair_relevance (fwd_seeds rev_seeds : option (list string))
    (inputs outputs : bool)
  : M (list (string * string * gset string)) :=
  let filt := _get_io_filter inputs outputs in
  match filt with
  | FilterAll => mret []
  | _ =>
      fs ← gets (λ st, match fwd_seeds with
                       | None => elements (_seed_vars st).1
                       | Some l => l
                       end);
      rs ← gets (λ st, match rev_seeds with
                       | None => elements (_seed_vars st).2
                       | Some l => l
                       end);
      foldM (λ acc seed,
        foldM (λ acc rseed,
          inter ← _get_rel_array Var (KStr seed) (KStr rseed);
          if np_any (bits inter) then
            var2idx ← (st ← gets _var2idx; lift_opt AttributeError st);
            g ← gets _graph;
            s ← lift (_apply_node_filter g
                        (_rel_names_iter (bits inter) var2idx true) filt);
            mret (acc ++ [(seed, rseed, s)])
          else mret acc)
        acc rs)
      [] fs
  end.

(** *** The parallel-derivative colour check *)

(** [pd_err_chk]: a [defaultdict(dict)], colour to name to relevant set. *)
Definition pd_dict : Type := list (string * list (string * gset string)).

Definition pd_record (pd : pd_dict) (color name : string)
    (relset : gset string) : pd_dict :=
  OD.set pd color (OD.set (default [] (OD.get pd color)) name relset).

(** [pd_err_chk[color][name]], if it is there. *)
Definition pd_entry (pd : pd_dict) (color name : string) : option (gset string) :=
  dct ← OD.get pd color; OD.get dct name.

(** The [local] attribute of node [n], as a truth value. *)
Definition node_is_local (g : DiGraph) (n : string) : result bool :=
  node ← of_option KeyError (OD.get (g_nodes g) n);
  of_option KeyError (local node).

(** Truth value of a colour ([if dvcolor]). *)
Definition color_truthy (c : option string) : option string :=
  match c with
  | Some s => if decide (s = "") then None else Some s
  | None => None
  end.

(** One of the two collection loops; [pick] selects the design variable or
    the response of the yielded triple. *)
Definition pd_collect (g : DiGraph) (metas : list (string * meta))
    (pick : string * string * gset string → string)
    (items : list (string * string * gset string)) (pd : pd_dict)
  : result pd_dict :=
  foldl (λ acc item,
           pd ← acc;
           let name := pick item in
           match OD.get metas name with
           | None => Ok pd
           | Some m =>
               l ← node_is_local g name;
               if (l : bool) then
                 match color_truthy (parallel_deriv_color m) with
                 | Some color => Ok (pd_record pd color name item.2)
                 | None => Ok pd
                 end
               else Ok pd
           end)
        (Ok pd) items.

(** The name that the collection loop of direction [io] reads from a yielded
    triple: the design variable, or the response. *)
Definition pick_of (io : direction) (item : string * string * gset string)
  : string :=
  match io with fwd => item.1.1 | rev => item.1.2 end.

(** The triples that the collection loop of direction [io] iterates over. *)
Definition yields_of (io : direction)
  : M (list (string * string * gset string)) :=
  match io with
  | fwd => iter_seed_pair_relevance None None true false
  | rev => iter_seed_pair_relevance None None false true
  end.

(** The set that was yielded last for [name]. *)
Definition last_yield (io : direction) (name : string)
    (items : list (string * string * gset string)) : option (gset string) :=
  snd <$> last (filter (λ it, pick_of io it = name) items).

(** The names of one colour that overlap with another name of the colour;
    a name is listed once for every name it overlaps with. *)
Definition overlap_names (dct : list (string * gset string)) : list string :=
  flat_map (λ '(vname, relset),
              flat_map (λ '(n, nds),
                          if bool_decide (vname ≠ n)
                             && negb (bool_decide (relset ∩ nds = ∅))
                          then [vname] else [])
                       dct)
           dct.

Definition overlap_errs (pd : pd_dict) : err_dict :=
  flat_map (λ '(pdcolor, dct),
              match overlap_names dct with
              | [] => []
              | names => [(pdcolor, names)]
              end)
           pd.

Definition overlap_msg (mode color : string) (names : list string) : string :=
  let vtype := if decide (mode = "fwd") then "design variable"
               else "response" in
  "Parallel derivative color '" +:+ color +:+ "' has " +:+ vtype +:+ "s "
    +:+ repr_names (sorted_names names)
    +:+ " with overlapping dependencies on the same rank.".

Definition overlap_msgs (mode : string) (all_errs : list err_dict)
  : list string :=
  flat_map (λ errdct, map (λ '(color, names), overlap_msg mode color names)
                          errdct)
           all_errs.

Definition _par_deriv_err_check (group : Model)
    (responses desvars : list (string * meta)) : M unit :=
  let mode := mode group in
  g ← gets _graph;
  pd ← (if bool_decide (mode = "fwd") || bool_decide (mode = "auto") then
          items ← iter_seed_pair_relevance None None true false;
          lift (pd_collect g desvars (λ t, t.1.1) items [])
        else mret []);
  pd ← (if bool_decide (mode = "rev") || bool_decide (mode = "auto") then
          items ← iter_seed_pair_relevance None None false true;
          lift (pd_collect g responses (λ t, t.1.2) items pd)
        else mret pd);
  let errs := overlap_errs pd in
  let all_errs := comm_allgather group errs in
  match overlap_msgs mode all_errs with
  | [] => mret tt
  | msg => raise (RuntimeError (join newline msg))
  end.

(** The dictionary [pd_err_chk] as the two collection loops of
    [_par_deriv_err_check] leave it. *)
Definition par_deriv_sets (group : Model)
    (responses desvars : list (string * meta)) : M pd_dict :=
  let mode := mode group in
  g ← gets _graph;
  pd ← (if bool_decide (mode = "fwd") || bool_decide (mode = "auto") then
          items ← iter_seed_pair_relevance None None true false;
          lift (pd_collect g desvars (λ t, t.1.1) items [])
        else mret []);
  if bool_decide (mode = "rev") || bool_decide (mode = "auto") then
    items ← iter_seed_pair_relevance None None false true;
    lift (pd_collect g responses (λ t, t.1.2) items pd)
  else mret pd.

(** What [_par_deriv_err_check] does with the dictionary: the local errors
    are gathered, and the messages of all processes are raised. *)
Definition par_deriv_verdict (group : Model) (pd : pd_dict) : M unit :=
  match overlap_msgs (mode group) (comm_allgather group (overlap_errs pd)) with
  | [] => mret tt
  | msg => raise (RuntimeError (join newline msg))
  end.

(** *** Construction: [_set_all_seeds] *)

(** The node loop that fills [all_vars] and [all_systems]. *)
Definition collect_names (g : DiGraph) : gset string * gset string :=
  foldl (λ acc nd,
           let '(all_vars, all_systems) := acc in
           let '(node, data) := nd in
           match type_ data with
           | Some _ =>
               let sysname := rpartition_head node in
               ({[node]} ∪ all_vars,
                if bool_decide (sysname ∈ all_systems) then all_systems
                else all_systems ∪ list_to_set (all_ancestors sysname))
           | None =>
               if bool_decide (node ∈ all_systems) then acc
               else (all_vars,
                     all_systems ∪ list_to_set (all_ancestors node))
           end)
        (∅, {[""]}) (g_nodes g).

Definition set_single (k : kind) (d : direction) (seed : string)
    (a : ndarray) : M unit :=
  modify (λ st, upd_single k
                  (dir_set (get_single k st) d
                           (OD.set (dir_get (get_single k st) d) seed a)) st).

Definition get_single_arr (k : kind) (d : direction) (seed : string)
  : M ndarray :=
  single ← gets (get_single k);
  lift_opt KeyError (OD.get (dir_get single d) seed).

(** [a & b] as a new array, passed through the cache. *)
Definition cached_and (a b : ndarray) : M ndarray :=
  bs ← lift (np_and (bits a) (bits b));
  c ← new_array bs;
  _get_cached_array c.

(** [seed_map[kf] = ... = {}] for the outer keys [kfs]. *)
Definition new_sub (k : kind) (kfs : list seedkey) : M nat :=
  sm ← gets (get_seed_map k);
  let '(sm', l) := sm_new_sub sm kfs in
  modify (upd_seed_map k sm');; mret l.

(** [sub[kr] = ... = a] for the inner dictionary at [l]. *)
Definition store_at (k : kind) (l : nat) (krs : list seedkey) (a : ndarray)
  : M unit :=
  forM_ (λ kr, modify (λ st, upd_seed_map k
                               (sm_store_at (get_seed_map k st) l kr a) st))
        krs.

(** [seed_map[kf][kr] = a] with [seed_map[kf]] looked up. *)
Definition store_under (k : kind) (kf kr : seedkey) (a : ndarray) : M unit :=
  sm ← gets (get_seed_map k);
  l ← lift_opt KeyError (sm_top sm !! kf);
  store_at k l [kr] a.

Definition single_items (k : kind) (d : direction)
  : M (list (string * ndarray)) :=
  gets (λ st, dir_get (get_single k st) d).

(** The body of the loop over the seeds of one direction: the arrays of
    one seed, stored under its source name. *)
Definition record_seed (nprocs : nat) (all_systems all_vars : gset string)
    (io : direction) (hpd : list (string * direction)) (m : string * meta)
  : M (list (string * direction)) :=
  '(seed, local, var_array, sys_array) ←
     single_seed_arrays nprocs m.2 io all_systems all_vars;
  va ← _get_cached_array var_array;
  set_single Var io seed va;;
  sa ← _get_cached_array sys_array;
  set_single Sys io seed sa;;
  mret (if (local : bool) then OD.set hpd seed io else hpd).

(** [for io in ('fwd', 'rev'): for seed, ... in _single_seed_array_iter(...)];
    returns [has_par_derivs]. *)
Definition compute_single_arrays (nprocs : nat)
    (fwd_meta rev_meta : list (string * meta)) (all_systems all_vars : gset string)
  : M (list (string * direction)) :=
  foldM (λ hpd io,
           foldM (record_seed nprocs all_systems all_vars io) hpd
                 (dir_get (fwd_meta, rev_meta) io))
        [] [fwd; rev].

(** Entries for every pair of single seeds, under the keys [seed] and
    [frozenset((seed,))] on both levels. *)
Definition fill_pair (vsub ssub : nat) (fvarr fsarr : ndarray)
    (r : string * ndarray) : M unit :=
  let '(rsrc, rvarr) := r in
  rsysarr ← get_single_arr Sys rev rsrc;
  a ← cached_and fvarr rvarr;
  store_at Var vsub [KStr rsrc; KSet {[rsrc]}] a;;
  b ← cached_and fsarr rsysarr;
  store_at Sys ssub [KStr rsrc; KSet {[rsrc]}] b.

Definition fill_pairs_of (f : string * ndarray) : M unit :=
  let '(fseed, fvarr) := f in
  fsarr ← get_single_arr Sys fwd fseed;
  vsub ← new_sub Var [KStr fseed; KSet {[fseed]}];
  ssub ← new_sub Sys [KStr fseed; KSet {[fseed]}];
  ritems ← single_items Var rev;
  forM_ (fill_pair vsub ssub fvarr fsarr) ritems.

(** Entries for each (fseed, all_rseeds). *)
Definition fill_all_rev (rev_seeds : gset string)
    (all_rseed_varray all_rseed_sarray : ndarray) (f : string * ndarray)
  : M unit :=
  let '(fsrc, farr) := f in
  fsysarr ← get_single_arr Sys fwd fsrc;
  a ← cached_and farr all_rseed_varray;
  store_under Var (KStr fsrc) (KSet rev_seeds) a;;
  b ← cached_and fsysarr all_rseed_sarray;
  store_under Sys (KStr fsrc) (KSet rev_seeds) b.

(** Entries for each (all_fseeds, rseed). *)
Definition fill_all_fwd (fwd_seeds : gset string)
    (all_fseed_varray all_fseed_sarray : ndarray) (r : string * ndarray)
  : M unit :=
  let '(rsrc, rarr) := r in
  rsysarr ← get_single_arr Sys rev rsrc;
  a ← cached_and rarr all_fseed_varray;
  store_under Var (KSet fwd_seeds) (KStr rsrc) a;;
  b ← cached_and rsysarr all_fseed_sarray;
  store_under Sys (KSet fwd_seeds) (KStr rsrc) b.

(** The variable arrays with the reachability of seeds that use parallel
    derivative colouring recomputed without the restriction to local
    nodes. *)
Definition unrestricted_arrays (has_par_derivs : list (string * direction))
    (all_systems all_vars : gset string) (items : list (string * ndarray))
  : M (list (string * ndarray)) :=
  foldM (λ arrs '(src, arr),
           arr' ← match OD.get has_par_derivs src with
                  | Some d =>
                      depnodes ← dependent_nodes_M src d false;
                      var2idx ← (st ← gets _var2idx; lift_opt AttributeError st);
                      _names2rel_array (elements (depnodes ∖ all_systems))
                                       (size all_vars) var2idx
                  | None => mret arr
                  end;
           mret (OD.set arrs src arr'))
        [] items.

(** The responses that no design variable reaches. *)
Definition scan_no_dv_responses (allfarrs : ndarray)
    (rarrs : list (string * ndarray)) : M unit :=
  modify (upd_no_dv_responses []);;
  forM_ (λ '(rsrc, rarr),
           bs ← lift (np_and (bits allfarrs) (bits rarr));
           both ← new_array bs;
           var2idx ← (st ← gets _var2idx; lift_opt AttributeError st);
           i ← lift_opt KeyError (index_of var2idx rsrc);
           hit ← lift (np_getitem (Some both) i);
           if (hit : bool) then mret tt
           else modify (λ st, upd_no_dv_responses
                                (_no_dv_responses st ++ [rsrc]) st))
        rarrs.

(** The seed maps are filled from the per-seed arrays. *)
Definition fill_seed_maps (fwd_seeds rev_seeds : gset string) : M unit :=
  fitems ← single_items Var fwd;
  forM_ fill_pairs_of fitems;;
  sv ← gets _single_seed2relvars;
  ss ← gets _single_seed2relsys;
  all_fseed_varray ← _union_arrays sv.1 (KSet fwd_seeds);
  all_fseed_sarray ← _union_arrays ss.1 (KSet fwd_seeds);
  all_rseed_varray ← _union_arrays sv.2 (KSet rev_seeds);
  all_rseed_sarray ← _union_arrays ss.2 (KSet rev_seeds);
  fitems ← single_items Var fwd;
  forM_ (fill_all_rev rev_seeds all_rseed_varray all_rseed_sarray) fitems;;
  vall ← new_sub Var [KSet fwd_seeds];
  sall ← new_sub Sys [KSet fwd_seeds];
  ritems ← single_items Var rev;
  forM_ (fill_all_fwd fwd_seeds all_fseed_varray all_fseed_sarray) ritems;;
  (* 'full' relevance for all seeds *)
  a ← cached_and all_fseed_varray all_rseed_varray;
  store_under Var (KSet fwd_seeds) (KSet rev_seeds) a;;
  b ← cached_and all_fseed_sarray all_rseed_sarray;
  store_under Sys (KSet fwd_seeds) (KSet rev_seeds) b.

(** [_set_all_seeds] for seeds of both directions, as far as the colour
    check: the per-seed arrays and the seed maps are filled and the full
    seed sets are made the current ones; returns [has_par_derivs]. *)
Definition seeds_up_to_check (group : Model)
    (fwd_meta rev_meta : list (string * meta)) : M (list (string * direction)) :=
  let fwd_seeds : gset string := list_to_set (map (λ p, source p.2) fwd_meta) in
  let rev_seeds : gset string := list_to_set (map (λ p, source p.2) rev_meta) in
  modify (upd_seed_var_map sm_empty);;
  modify (upd_seed_sys_map sm_empty);;
  modify (upd_all_seed_vars (fwd_seeds, rev_seeds));;
  modify (upd_single_seed2relvars ([], []));;
  modify (upd_single_seed2relsys ([], []));;
  g ← gets _graph;
  let '(all_vars, all_systems) := collect_names g in
  modify (upd_tables all_systems (elements all_systems) (elements all_vars));;
  has_par_derivs ←
    compute_single_arrays (comm_size group) fwd_meta rev_meta
                          all_systems all_vars;
  fill_seed_maps fwd_seeds rev_seeds;;
  _set_seeds fwd_seeds rev_seeds;;
  mret has_par_derivs.

(** What follows once the seed maps are filled: the full seed sets become
    the current ones, colours are checked, and the responses without design
    variables are listed. *)
Definition finish_seeds (group : Model) (fwd_meta rev_meta : list (string * meta))
    (fwd_seeds rev_seeds : gset string) (all_systems all_vars : gset string)
    (has_par_derivs : list (string * direction)) : M unit :=
  _set_seeds fwd_seeds rev_seeds;;
  (match has_par_derivs with
   | [] => mret tt
   | _ => _par_deriv_err_check group rev_meta fwd_meta
   end);;
  fitems ← single_items Var fwd;
  farrs ← unrestricted_arrays has_par_derivs all_systems all_vars fitems;
  ritems ← single_items Var rev;
  rarrs ← unrestricted_arrays has_par_derivs all_systems all_vars ritems;
  allfarrs ← _union_arrays farrs (KSet fwd_seeds);
  scan_no_dv_responses allfarrs rarrs.

(** [Relevance._set_all_seeds].  (The two attributes [_current_var_array]
    and [_current_sys_array] it also sets are read nowhere and are left
    out.) *)
Definition _set_all_seeds (group : Model) (fwd_meta rev_meta : list (string * meta))
  : M unit :=
  let fwd_seeds : gset string := list_to_set (map (λ p, source p.2) fwd_meta) in
  let rev_seeds : gset string := list_to_set (map (λ p, source p.2) rev_meta) in
  modify (upd_seed_var_map sm_empty);;
  modify (upd_seed_sys_map sm_empty);;
  modify (upd_all_seed_vars (fwd_seeds, rev_seeds));;
  modify (upd_single_seed2relvars ([], []));;
  modify (upd_single_seed2relsys ([], []));;
  match fwd_meta, rev_meta with
  | [], _ | _, [] => mret tt
  | _, _ =>
    g ← gets _graph;
    let '(all_vars, all_systems) := collect_names g in
    modify (upd_tables all_systems (elements all_systems) (elements all_vars));;
    has_par_derivs ←
      compute_single_arrays (comm_size group) fwd_meta rev_meta
                            all_systems all_vars;
    fill_seed_maps fwd_seeds rev_seeds;;
    finish_seeds group fwd_meta rev_meta fwd_seeds rev_seeds
                 all_systems all_vars has_par_derivs
  end.

(** *** Nonlinear sets: [_setup_nonlinear_sets] *)

(** [for compname in comps: systems.update(all_ancestors(compname))], then
    the root is added to a non-empty result. *)
Definition with_ancestors (comps : gset string) : gset string :=
  let systems : gset string :=
    foldl (λ acc compname, acc ∪ list_to_set (all_ancestors compname))
          ∅ (elements comps) in
  if bool_decide (systems = ∅) then systems else {[""]} ∪ systems.

Definition _setup_nonlinear_sets (model : Model) : M unit :=
  pre_comps ← lift_opt TypeError (_pre_components model);
  let pre_systems := with_ancestors pre_comps in
  post_comps ← lift_opt TypeError (_post_components model);
  let post_systems := with_ancestors post_comps in
  all_systems ← (st ← gets _all_systems; lift_opt AttributeError st);
  sys2idx ← (st ← gets _sys2idx; lift_opt AttributeError st);
  pre_array ← _names2rel_array (elements pre_systems) (size all_systems) sys2idx;
  post_array ← _names2rel_array (elements post_systems) (size all_systems) sys2idx;
  iter_array ←
    match _iterated_components model with
    | ContainsAll => new_array (np_ones (size all_systems))
    | _ =>
        b ← lift (np_or (bits pre_array) (bits post_array));
        new_array (np_invert b)
    end;
  modify (upd_nonlinear_sets
            (<["pre" := pre_array]> (<["iter" := iter_array]>
               (<["post" := post_array]> ∅)))).

(** *** The pre / iterated / post partition: [_setup_nonlinear_relevance] *)

(** [get_rev_conns] (openmdao.utils.general_utils, not part of the sources at
    hand): the connections [input -> output] turned into
    [output -> list of inputs]. *)
Definition get_rev_conns (conns : list (string * string))
  : list (string * list string) :=
  foldl (λ rev_conns c,
           let '(tgt, src) := c in
           OD.set rev_conns src (default [] (OD.get rev_conns src) ++ [tgt]))
        [] conns.

Definition has_type (g : DiGraph) (s : string) : result bool :=
  node ← of_option KeyError (OD.get (g_nodes g) s);
  Ok (bool_decide (type_ node ≠ None)).

(** The system name recorded for a member [s] of a strongly connected
    component: the owner of a variable node, the node itself otherwise. *)
Definition member_name (g : DiGraph) (s : string) : result string :=
  t ← has_type g s;
  Ok (if (t : bool) then rpartition_head s else s).

Definition member_names (g : DiGraph) (strong_con : list string)
  : result (gset string) :=
  l ← mapR (member_name g) strong_con; Ok (list_to_set l).

(** State of the walk over the components: [seen_dv] tells whether [addto]
    already is [post]. *)
Record walk := mk_walk {
  w_pre : gset string;
  w_iterated : gset string;
  w_post : gset string;
  seen_dv : bool
}.

Definition walk_step (g : DiGraph) (dv0 : string) (w : walk)
    (strong_con : list string) : result walk :=
  names ← member_names g strong_con;
  if bool_decide (dv0 ∈ strong_con) then
    Ok (mk_walk (w_pre w) (w_iterated w ∪ names) (w_post w) true)
  else if seen_dv w then
    Ok (mk_walk (w_pre w) (w_iterated w) (w_post w ∪ names) true)
  else
    Ok (mk_walk (w_pre w ∪ names) (w_iterated w) (w_post w) false).

Definition walk_sccs (g : DiGraph) (dv0 : string) (sccs : list (list string))
  : result walk :=
  foldl (λ acc strong_con, w ← acc; walk_step g dv0 w strong_con)
        (Ok (mk_walk ∅ ∅ ∅ false)) sccs.

(** The groups with a gradient-using solver that are not inside another
    such group. *)
Definition outer_grad_groups (grad_groups : gset string) : gset string :=
  foldl (λ remaining name,
           let prefix := name +:+ "." in
           filter (λ n, startswith n prefix = false) remaining)
        grad_groups
        (merge_sort dots_le (elements grad_groups)).

(** The graph whose components are computed: the component graph with the
    design-variable nodes of [_auto_ivc], the edges between responses and
    design variables, the [always_opt] edges and the edges that make the
    outer gradient groups atomic.  Also returns [groups_added]. *)
Definition partition_graph (model : Model) (dvs : list string)
    (responses : gset string) : DiGraph * gset string :=
  let graph := sys_graph model in
  let auto_dvs := filter (λ dv, startswith dv "_auto_ivc." = true) dvs in
  let graph :=
    match auto_dvs with
    | [] => graph
    | _ =>
        let rev_conns := get_rev_conns (_conn_global_abs_in2out model) in
        foldl (λ graph dv,
                 let graph := add_node graph dv (mk_node_data (Some "output") None) in
                 foldl (λ graph inp, add_edge graph dv (rpartition_head inp))
                       graph (default [] (OD.get rev_conns dv)))
              graph auto_dvs
    end in
  let graph :=
    foldl (λ graph res,
             let resnode := rpartition_head res in
             foldl (λ graph dv,
                      let dvnode := rpartition_head dv in
                      let dvnode := if decide (dvnode = "_auto_ivc") then dv
                                    else dvnode in
                      add_edge (add_edge graph resnode dvnode) dvnode resnode)
                   graph dvs)
          graph (elements responses) in
  let graph :=
    foldl (λ graph opt_sys,
             foldl (λ graph response,
                      let rescomp := rpartition_head response in
                      add_edge (add_edge graph opt_sys rescomp) rescomp opt_sys)
                   graph (elements responses))
          graph (elements (always_opt model)) in
  if bool_decide (grad_groups model = ∅) then (graph, ∅)
  else
    let remaining := outer_grad_groups (grad_groups model) in
    let hits :=
      flat_map (λ grp,
                  let prefix := grp +:+ "." in
                  map (λ node, (grp, node))
                      (filter (λ node, startswith node prefix = true)
                              (OD.keys (g_nodes graph))))
               (elements remaining) in
    (add_edges_from graph (flat_map (λ '(grp, node), [(grp, node); (node, grp)]) hits),
     list_to_set (map fst hits)).

(** The test whether some output of [_auto_ivc] that is not a design
    variable feeds a component of [pre]. *)
Definition auto_ivc_in_pre (model : Model) (auto_dvs : gset string)
    (pre : gset string) : result bool :=
  let rev_conns := get_rev_conns (_conn_global_abs_in2out model) in
  foldl (λ acc vname,
           in_pre ← acc;
           if (in_pre : bool) then Ok true
           else if bool_decide (vname ∈ auto_dvs) then Ok false
           else
             tgts ← of_option KeyError (OD.get rev_conns vname);
             Ok (existsb (λ tgt, bool_decide (rpartition_head tgt ∈ pre)) tgts))
        (Ok false) (auto_ivc_outputs model).

(** The three sets after the walk and after the [_auto_ivc] adjustment of
    [pre], before [groups_added] is subtracted. *)
Definition partition_sets (model : Model) (dvs : list string)
    (responses : gset string)
  : result (gset string * gset string * gset string * gset string) :=
  let '(graph, groups_added) := partition_graph model dvs responses in
  let auto_dvs := filter (λ dv, startswith dv "_auto_ivc." = true) dvs in
  dv0 ← match auto_dvs, dvs with
        | dv :: _, _ => Ok dv
        | [], dv :: _ => Ok (rpartition_head dv)
        | [], [] => Raise IndexError
        end;
  w ← walk_sccs graph dv0 (get_sccs_topo graph);
  let pre := w_pre w in
  pre ← (if bool_decide ("_auto_ivc" ∉ pre) then
           in_pre ← auto_ivc_in_pre model (list_to_set auto_dvs) pre;
           Ok (if (in_pre : bool) then {["_auto_ivc"]} ∪ pre else pre)
         else Ok pre);
  let pre := if bool_decide (size pre = 1) && bool_decide ("_auto_ivc" ∈ pre)
             then pre ∖ {["_auto_ivc"]} else pre in
  Ok (pre, w_iterated w, w_post w, groups_added).

Definition _setup_nonlinear_relevance (model : Model)
    (designvars responses : list (string * meta)) : result Model :=
  match _pre_components model with
  | Some _ => Ok model
  | None =>
      let model := set_partition_sets model (Some ∅) (Some ∅) ContainsAll in
      match designvars, responses with
      | [], _ | _, [] => Ok model
      | _, _ =>
          if negb (group_by_pre_opt_post model) then Ok model
          else if bool_decide ("" ∈ grad_groups model) then Ok model
          else
            let dvs := map (λ p, source p.2) designvars in
            let responses : gset string :=
              list_to_set (map (λ p, source p.2) responses) in
            '(pre, iterated, post, groups_added) ← partition_sets model dvs responses;
            Ok (set_partition_sets model
                  (Some (pre ∖ groups_added)) (Some (post ∖ groups_added))
                  (IterSet (iterated ∖ groups_added)))
      end
  end.

(** *** Construction: [Relevance.__init__] and [get_relevance] *)

Definition init_state (g : DiGraph) : Relevance :=
  mk_Relevance None g ∅ [] (∅, ∅) (∅, ∅) sm_empty sm_empty ([], []) ([], [])
               None None None None None None 0.

(** Truth value of a component set that may be [None]. *)
Definition set_truthy (s : option (gset string)) : bool :=
  match s with
  | Some s => negb (bool_decide (s = ∅))
  | None => false
  end.

Definition init_M (model : Model) (fwd_meta rev_meta : list (string * meta))
  : M Model :=
  _set_all_seeds model fwd_meta rev_meta;;
  modify (upd_current_rel_varray None);;
  modify (upd_current_rel_sarray None);;
  model ← lift (_setup_nonlinear_relevance model fwd_meta rev_meta);
  (if set_truthy (_pre_components model) || set_truthy (_post_components model)
   then _setup_nonlinear_sets model
   else modify (upd_nonlinear_sets ∅));;
  (match fwd_meta, rev_meta with
   | [], _ | _, [] => modify (upd_active (Some false))
   | _, _ => mret tt
   end);;
  mret model.

(** [Relevance(model, fwd_meta, rev_meta)]: the new object, and the model
    with its component sets filled in. *)
Definition __init__ (model : Model) (fwd_meta rev_meta : list (string * meta))
  : result (Relevance * Model) :=
  if negb (bool_decide (pathname model = "")) then Raise AssertionError
  else
    match init_M model fwd_meta rev_meta (init_state (_dataflow_graph model)) with
    | (Ok model', st) => Ok (st, model')
    | (Raise e, _) => Raise e
    end.

Definition get_relevance (model : Model) (of_ wrt : list (string * meta))
  : result (Relevance * Model) :=
  if negb (_use_derivatives model)
     || (match of_, wrt with [], [] => true | _, _ => false end)
  then __init__ model [] []
  else __init__ model wrt of_.

End engine.

(** ** Client code

    What code outside the class can do with a Relevance object: ask the
    queries and nest the scoped activations around code of its own, which
    may raise and may catch exceptions. *)

Inductive cmd :=
| CSkip
| CSeq (c1 c2 : cmd)
| CRaise
| CCatch (c : cmd)
| CIsRelevant (name : string)
| CIsRelevantSystem (name : string)
| CFilter (systems : list string) (relevant : bool)
| CListRelevance (relevant : bool) (type : string)
| CIterSeedPairs (fwd_seeds rev_seeds : option (list string)) (inputs outputs : bool)
| CActive (b : bool) (body : cmd)
| CSeedsActive (fwd_seeds rev_seeds : option (list string)) (body : cmd)
| CAllSeedsActive (body : cmd)
| CActivateNonlinear (name : string) (active : bool) (body : cmd).

(** The outcome of client code: how it ended, and the answers that
    [is_relevant] and [is_relevant_system] gave on the way. *)
Definition outcome : Type := result unit * list bool.

Section client.
Context `{Helpers}.

(** A body for a scope: its outcome is the value, so that the scope's
    [finally] block runs however the body ended. *)
Definition as_body (run : Relevance → outcome * Relevance) : M outcome :=
  λ st, let '(o, st') := run st in (Ok o, st').

Definition of_scope (r : result outcome * Relevance) : outcome * Relevance :=
  match r with
  | (Ok o, st') => (o, st')
  | (Raise e, st') => ((Raise e, []), st')
  end.

Definition of_query {A} (r : result A * Relevance) (log : A → list bool)
  : outcome * Relevance :=
  match r with
  | (Ok a, st') => ((Ok tt, log a), st')
  | (Raise e, st') => ((Raise e, []), st')
  end.

Fixpoint exec (c : cmd) (st : Relevance) : outcome * Relevance :=
  match c with
  | CSkip => ((Ok tt, []), st)
  | CSeq c1 c2 =>
      match exec c1 st with
      | ((Ok _, l1), st1) =>
          let '((r, l2), st2) := exec c2 st1 in ((r, l1 ++ l2), st2)
      | ((Raise e, l1), st1) => ((Raise e, l1), st1)
      end
  | CRaise => ((Raise ClientError, []), st)
  | CCatch c => let '((_, l), st') := exec c st in ((Ok tt, l), st')
  | CIsRelevant name => of_query (is_relevant name st) (λ b, [b])
  | CIsRelevantSystem name => of_query (is_relevant_system name st) (λ b, [b])
  | CFilter systems relevant =>
      of_query (filter_systems systems relevant st) (λ _, [])
  | CListRelevance relevant type =>
      of_query (list_relevance relevant type st) (λ _, [])
  | CIterSeedPairs fs rs inputs outputs =>
      of_query (iter_seed_pair_relevance fs rs inputs outputs st) (λ _, [])
  | CActive b body => of_scope (active b (as_body (exec body)) st)
  | CSeedsActive fs rs body =>
      of_scope (seeds_active fs rs (as_body (exec body)) st)
  | CAllSeedsActive body => of_scope (all_seeds_active (as_body (exec body)) st)
  | CActivateNonlinear name a body =>
      of_scope (activate_nonlinear name a (as_body (exec body)) st)
  end.

(** The states a Relevance object can be in: constructed, then used by
    client code. *)
Definition reachable (st : Relevance) : Prop :=
  ∃ model fwd_meta rev_meta st0 model' c o,
    __init__ model fwd_meta rev_meta = Ok (st0, model') ∧
    exec c st0 = (o, st).

End client.

(** ** Stand-ins for the missing helpers, and example inputs *)

(** Modelled from the spec: [array_hash] is a content hash ("deduplicates
    boolean arrays by content hash"); this stand-in spells the array out as
    a text of zeros and ones, so equal texts mean equal arrays. *)
Definition hash_bits (a : list bool) : string :=
  foldr (λ (b : bool) s, String (if b then "1"%char else "0"%char) s)
        EmptyString a.

(** Modelled from the spec: [all_ancestors] gives a system path and the
    paths of the systems around it ("includes all ancestors of each system"):
    the path itself, then its dotted prefixes, the root left out. *)
Fixpoint ancestors_upto (n : nat) (pathname : string) : list string :=
  match n with
  | 0 => []
  | S n' =>
      if decide (pathname = "") then []
      else pathname :: ancestors_upto n' (rpartition_head pathname)
  end.

Definition ancestors (pathname : string) : list string :=
  ancestors_upto (String.length pathname) pathname.

(** A component table for examples: the components of the graphs used
    below are listed by hand, in topological order, keyed by the number of
    edges of the graph. *)
Definition demo_helpers (sccs : DiGraph → list (list string)) : Helpers :=
  {| array_hash := hash_bits; all_ancestors := ancestors; get_sccs_topo := sccs |}.

Definition var_node (t : string) : node_data := mk_node_data (Some t) (Some true).
Definition sys_node : node_data := mk_node_data None None.

(** Two components in a chain, [c1.x -> c1 -> c1.y -> c2.x -> c2 -> c2.y],
    and a component [d] that is connected to nothing. *)
Definition chain_graph : DiGraph :=
  mk_DiGraph
    [("c1.x", var_node "input"); ("c1", sys_node); ("c1.y", var_node "output");
     ("c2.x", var_node "input"); ("c2", sys_node); ("c2.y", var_node "output");
     ("d", sys_node); ("d.z", var_node "output")]
    [("c1.x", "c1"); ("c1", "c1.y"); ("c1.y", "c2.x"); ("c2.x", "c2");
     ("c2", "c2.y"); ("d", "d.z")].

Definition empty_graph : DiGraph := mk_DiGraph [] [].

(** A serial model (one process) that does not group by pre/opt/post. *)
Definition serial_model (g : DiGraph) : Model :=
  mk_Model "" g 1 (λ errs, [errs]) true "fwd" false None None IterUnset
           ∅ ∅ empty_graph [] [].

Definition no_sccs : DiGraph → list (list string) := λ _, [].

Definition seed (src : string) : string * meta := (src, mk_meta src None).

(** ** Specification-side definitions

    What the specification says a combined relevance array holds, written
    from its words: a node is relevant for the pair (F, R) when some seed of
    F reaches it and some seed of R reaches it. *)

(** Bit [i] of the per-seed array of [s] ([false] when there is none). *)
Definition seed_bit (m : list (string * ndarray)) (s : string) (i : nat) : bool :=
  match OD.get m s with
  | Some a => default false (bits a !! i)
  | None => false
  end.

(** Bit [i] of the union of the per-seed arrays of [seeds]. *)
Definition union_bit (m : list (string * ndarray)) (seeds : list string)
    (i : nat) : bool :=
  existsb (λ s, seed_bit m s i) seeds.

(** The AND of the two unions, as an array of length [n]. *)
Definition spec_relevance (n : nat) (fmap rmap : list (string * ndarray))
    (F R : gset string) : list bool :=
  map (λ i, union_bit fmap (elements F) i && union_bit rmap (elements R) i)
      (seq 0 n).

(** The index table of a kind of node, and the length of its arrays. *)
Definition table (k : kind) (st : Relevance) : option (list string) :=
  match k with Var => _var2idx st | Sys => _sys2idx st end.
Definition table_len (k : kind) (st : Relevance) : nat :=
  length (default [] (table k st)).
Definition current (k : kind) (st : Relevance) : option ndarray :=
  match k with Var => _current_rel_varray st | Sys => _current_rel_sarray st end.

(** The seeds named by a key. *)
Definition key_set (k : seedkey) : gset string :=
  match k with KStr s => {[s]} | KSet s => s end.


(** ** Invariants of a constructed engine *)

Section invariants.
Context `{Helpers}.

(** Every cached array sits under the hash of its contents. *)
Definition cache_ok (st : Relevance) : Prop :=
  ∀ h a, _rel_array_cache st !! h = Some a → array_hash (bits a) = h.

(** Both index tables exist. *)
Definition tables_ok (st : Relevance) : Prop :=
  ∀ k, is_Some (table k st).

(** Every per-seed array has the length of its table. *)
Definition single_len_ok (st : Relevance) : Prop :=
  ∀ k d s a, OD.get (dir_get (get_single k st) d) s = Some a →
             length (bits a) = table_len k st.

(** The seeds with a per-seed array are the seeds of the construction. *)
Definition single_dom_ok (st : Relevance) : Prop :=
  ∀ k d s, s ∈ dir_get (_all_seed_vars st) d ↔
           is_Some (OD.get (dir_get (get_single k st) d) s).

(** Every entry stored for a pair of seed sets holds the AND of the two
    unions. *)
Definition seed_map_ok (st : Relevance) : Prop :=
  ∀ k F R a,
    sm_lookup (get_seed_map k st) (KSet F) (KSet R) = Some a →
    bits a = spec_relevance (table_len k st) (get_single k st).1
                            (get_single k st).2 F R.

(** Outer keys that share an inner dictionary name the same seeds, and
    every address is in the store. *)
Definition alias_ok (sm : seed_map) : Prop :=
  ∀ K K' l, sm_top sm !! K = Some l → sm_top sm !! K' = Some l →
            key_set K = key_set K'.
Definition range_ok (sm : seed_map) : Prop :=
  ∀ K l, sm_top sm !! K = Some l → l < length (sm_subs sm).

Record inv (st : Relevance) : Prop := mk_inv {
  inv_cache : cache_ok st;
  inv_tables : tables_ok st;
  inv_len : single_len_ok st;
  inv_dom : single_dom_ok st;
  inv_map : seed_map_ok st;
  inv_alias : ∀ k, alias_ok (get_seed_map k st);
  inv_range : ∀ k, range_ok (get_seed_map k st)
}.

(** What never changes once the engine is constructed; the cache only
    grows. *)
Record frozen (st st' : Relevance) : Prop := mk_frozen {
  fr_cache : _rel_array_cache st ⊆ _rel_array_cache st';
  fr_graph : _graph st' = _graph st;
  fr_all : _all_seed_vars st' = _all_seed_vars st;
  fr_vars : _single_seed2relvars st' = _single_seed2relvars st;
  fr_sys : _single_seed2relsys st' = _single_seed2relsys st;
  fr_all_systems : _all_systems st' = _all_systems st;
  fr_sys2idx : _sys2idx st' = _sys2idx st;
  fr_var2idx : _var2idx st' = _var2idx st;
  fr_nonlinear : _nonlinear_sets st' = _nonlinear_sets st
}.

(** What the scoped activations set, and internal code leaves alone. *)
Record quiet (st st' : Relevance) : Prop := mk_quiet {
  q_active : _active st' = _active st;
  q_seed_vars : _seed_vars st' = _seed_vars st;
  q_varray : _current_rel_varray st' = _current_rel_varray st;
  q_sarray : _current_rel_sarray st' = _current_rel_sarray st
}.

(** A step of client code, and a step of internal code. *)
Definition steady (st st' : Relevance) : Prop := inv st' ∧ frozen st st'.
Definition keeps (st st' : Relevance) : Prop := steady st st' ∧ quiet st st'.

(** A step that only allocates arrays and fills the cache. *)
Definition only_cache (st st' : Relevance) : Prop :=
  st' = upd_cache (_rel_array_cache st') (upd_next_oid (next_oid st') st) ∧
  _rel_array_cache st ⊆ _rel_array_cache st'.

(** The outer dictionaries of both seed maps are the same in [st'] as in
    [st]. *)
Definition tops_same_as (st st' : Relevance) : Prop :=
  ∀ k, sm_top (get_seed_map k st') = sm_top (get_seed_map k st).

(** The per-seed dictionaries never list a seed twice. *)
Definition single_nodup (st : Relevance) : Prop :=
  ∀ k d, NoDup (OD.keys (dir_get (get_single k st) d)).

(** While the per-seed arrays are being computed: the seeds of the
    construction are [A], the seed maps are still empty, and the seeds in
    [D k d] have their arrays of kind [k] for the direction [d]. *)
Record phase1 (A : gset string * gset string)
    (D : kind → direction → gset string) (st : Relevance) : Prop :=
  mk_phase1 {
  p1_all : _all_seed_vars st = A;
  p1_cache : cache_ok st;
  p1_tables : tables_ok st;
  p1_len : single_len_ok st;
  p1_var_map : _seed_var_map st = sm_empty;
  p1_sys_map : _seed_sys_map st = sm_empty;
  p1_dom : ∀ k d s, is_Some (OD.get (dir_get (get_single k st) d) s) ↔
                    s ∈ D k d;
  p1_nodup : single_nodup st
}.

(** *** Canonical instances

    An array is the canonical instance of its contents when the cache holds
    that very array (the same object) under the hash of its contents. *)
Definition canonical (st : Relevance) (a : ndarray) : Prop :=
  _rel_array_cache st !! array_hash (bits a) = Some a.

(** The array stored under ['iter'] in the nonlinear sets. *)
Definition iter_array (st : Relevance) (a : ndarray) : Prop :=
  ∃ sets, _nonlinear_sets st = Some sets ∧ sets !! "iter" = Some a.

(** The arrays that the engine holds on to: the per-seed arrays, the
    entries of the inner dictionaries of both seed maps, the nonlinear sets
    other than ['iter'], and the current variable array. *)
Definition held (st : Relevance) (a : ndarray) : Prop :=
  (∃ k d s, (s, a) ∈ dir_get (get_single k st) d) ∨
  (∃ k l sub kr, sm_subs (get_seed_map k st) !! l = Some sub ∧
                 sub !! kr = Some a) ∨
  (∃ sets name, _nonlinear_sets st = Some sets ∧ name ≠ "iter" ∧
                sets !! name = Some a) ∨
  _current_rel_varray st = Some a.

(** Every array the engine holds on to is canonical; the current system
    array is canonical or is the ['iter'] array. *)
Record canon (st : Relevance) : Prop := mk_canon {
  cn_cache : cache_ok st;
  cn_held : ∀ a, held st a → canonical st a;
  cn_sarray : ∀ a, _current_rel_sarray st = Some a →
                   canonical st a ∨ iter_array st a
}.

(** A step of code that keeps [canon] and lets the cache grow. *)
Definition grown (st st' : Relevance) : Prop :=
  canon st' ∧ _rel_array_cache st ⊆ _rel_array_cache st'.

(** [D] with [seed] added for kind [k] and direction [io]. *)
Definition with_seed (D : kind → direction → gset string) (k : kind)
    (io : direction) (seed : string) : kind → direction → gset string :=
  λ k' d', if decide (k' = k ∧ d' = io) then {[seed]} ∪ D k' d' else D k' d'.

End invariants.

(** ** Example engines *)

(** The chain with two forward seeds, [c1.x] and the isolated [d.z], and the
    reverse seed [c2.y]. *)
Definition two_seed_init : result (Relevance * Model) :=
  @__init__ (demo_helpers no_sccs) (serial_model chain_graph)
            [seed "c1.x"; seed "d.z"] [seed "c2.y"].

Definition two_seed_engine : Relevance :=
  match two_seed_init with
  | Ok (st, _) => st
  | Raise _ => init_state empty_graph
  end.

(** Client code that asks about [c1.x] before and after an inner scope, all
    inside a scope with all seeds active. *)
Definition nested_seeds_prog : cmd :=
  CSeedsActive None None
    (CSeq (CIsRelevant "c1.x")
       (CSeq (CSeedsActive (Some ["d.z"]) (Some ["c2.y"]) CSkip)
             (CIsRelevant "c1.x"))).

(** A model that is grouped into pre / iterated / post: [p] feeds [c1], the
    design variable [ivc.x] feeds [c1], [c1] feeds [c2] whose output [c2.y]
    is the response, and [c2] feeds [q]. *)
Definition opt_graph : DiGraph :=
  mk_DiGraph
    [("ivc", sys_node); ("ivc.x", var_node "output");
     ("p", sys_node); ("p.y", var_node "output");
     ("c1", sys_node); ("c1.x", var_node "input"); ("c1.a", var_node "input");
     ("c1.y", var_node "output");
     ("c2", sys_node); ("c2.x", var_node "input"); ("c2.y", var_node "output");
     ("q", sys_node); ("q.x", var_node "input"); ("q.y", var_node "output")]
    [("ivc", "ivc.x"); ("ivc.x", "c1.x"); ("p", "p.y"); ("p.y", "c1.a");
     ("c1.x", "c1"); ("c1.a", "c1"); ("c1", "c1.y"); ("c1.y", "c2.x");
     ("c2.x", "c2"); ("c2", "c2.y"); ("c2.y", "q.x"); ("q.x", "q");
     ("q", "q.y")].

Definition opt_sys_graph : DiGraph :=
  mk_DiGraph
    [("ivc", sys_node); ("p", sys_node); ("c1", sys_node); ("c2", sys_node);
     ("q", sys_node)]
    [("ivc", "c1"); ("p", "c1"); ("c1", "c2"); ("c2", "q")].

(** The strongly connected components of [opt_sys_graph] with the edges
    between [c2] and [ivc] added, in topological order. *)
Definition opt_sccs : DiGraph → list (list string) :=
  λ _, [["p"]; ["ivc"; "c1"; "c2"]; ["q"]].

Definition opt_model : Model :=
  mk_Model "" opt_graph 1 (λ errs, [errs]) true "fwd" true None None IterUnset
           ∅ ∅ opt_sys_graph
           [("c1.x", "ivc.x"); ("c1.a", "p.y"); ("c2.x", "c1.y"); ("q.x", "c2.y")]
           [].

Definition opt_init : result (Relevance * Model) :=
  @__init__ (demo_helpers opt_sccs) opt_model [seed "ivc.x"] [seed "c2.y"].

Definition opt_engine : Relevance :=
  match opt_init with
  | Ok (st, _) => st
  | Raise _ => init_state empty_graph
  end.

Definition nested_nonlinear_prog : cmd :=
  CSeedsActive None None
    (CSeq (CIsRelevantSystem "c1")
       (CSeq (CActivateNonlinear "pre" true CSkip)
             (CIsRelevantSystem "c1"))).

(** The model that the construction of [two_seed_engine] returns. *)
Definition two_seed_model : Model :=
  match two_seed_init with
  | Ok (_, m) => m
  | Raise _ => serial_model chain_graph
  end.

(** What the body of a scope with all seeds active sees on
    [two_seed_engine]: the flag is set and the seeds are selected. *)
Definition two_seed_in_scope : Relevance :=
  (@_set_seeds (demo_helpers no_sccs)
     (_all_seed_vars two_seed_engine).1 (_all_seed_vars two_seed_engine).2
     (upd_active (Some true) two_seed_engine)).2.

(** The chain with a reverse seed and no forward seed. *)
Definition no_fwd_init : result (Relevance * Model) :=
  @__init__ (demo_helpers no_sccs) (serial_model chain_graph) [] [seed "c2.y"].

Definition no_fwd_engine : Relevance :=
  match no_fwd_init with
  | Ok (st, _) => st
  | Raise _ => init_state empty_graph
  end.

Definition no_fwd_model : Model :=
  match no_fwd_init with
  | Ok (_, m) => m
  | Raise _ => serial_model chain_graph
  end.

(** Client code on it: a query for a name that is in no graph, inside a
    scope that asks for all seeds. *)
Definition unknown_name_prog : cmd :=
  CAllSeedsActive (CSeq (CIsRelevant "nowhere") (CIsRelevantSystem "nowhere")).

(** What the body of a scope with all seeds active sees on [opt_engine]. *)
Definition opt_in_scope : Relevance :=
  (@_set_seeds (demo_helpers opt_sccs)
     (_all_seed_vars opt_engine).1 (_all_seed_vars opt_engine).2
     (upd_active (Some true) opt_engine)).2.

(** The inner scopes of the two nested programs. *)
Definition inner_seeds_scope : cmd :=
  CSeedsActive (Some ["d.z"]) (Some ["c2.y"]) CSkip.
Definition inner_nonlinear_scope : cmd :=
  CActivateNonlinear "pre" true CSkip.

(** Two design variables [a.x] and [b.x] that feed the same component [m],
    whose output feeds [c]; the response is [c.y]. *)
Definition colour_graph : DiGraph :=
  mk_DiGraph
    [("a", sys_node); ("a.x", var_node "output");
     ("b", sys_node); ("b.x", var_node "output");
     ("m", sys_node); ("m.i1", var_node "input"); ("m.i2", var_node "input");
     ("m.y", var_node "output");
     ("c", sys_node); ("c.i", var_node "input"); ("c.y", var_node "output")]
    [("a", "a.x"); ("b", "b.x"); ("a.x", "m.i1"); ("b.x", "m.i2");
     ("m.i1", "m"); ("m.i2", "m"); ("m", "m.y"); ("m.y", "c.i");
     ("c.i", "c"); ("c", "c.y")].

(** A seed with a parallel derivative colour. *)
Definition coloured (src color : string) : string * meta :=
  (src, mk_meta src (Some color)).

(** A model on two processes; both find the same local errors. *)
Definition parallel_model (g : DiGraph) : Model :=
  mk_Model "" g 2 (λ errs, [errs; errs]) true "fwd" false None None IterUnset
           ∅ ∅ empty_graph [] [].

Definition colour_fwd_meta : list (string * meta) :=
  [coloured "a.x" "par"; coloured "b.x" "par"].

Definition serial_colour_init : result (Relevance * Model) :=
  @__init__ (demo_helpers no_sccs) (serial_model colour_graph)
            colour_fwd_meta [seed "c.y"].

Definition serial_colour_engine : Relevance :=
  match serial_colour_init with
  | Ok (st, _) => st
  | Raise _ => init_state empty_graph
  end.

Definition parallel_colour_init : result (Relevance * Model) :=
  @__init__ (demo_helpers no_sccs) (parallel_model colour_graph)
            colour_fwd_meta [seed "c.y"].

(** The construction on two processes as far as the colour check, and the
    triples that the check iterates over. *)
Definition parallel_seeds_state : Relevance :=
  (@seeds_up_to_check (demo_helpers no_sccs) (parallel_model colour_graph)
     colour_fwd_meta [seed "c.y"] (init_state colour_graph)).2.

Definition parallel_yields : list (string * string * gset string) :=
  [("a.x", "c.y", {["m.i1"; "c.i"]}); ("b.x", "c.y", {["m.i2"; "c.i"]})].

(** The same two design variables, with metadata that is keyed by names
    other than the source names. *)
Definition alias_fwd_meta : list (string * meta) :=
  [("dv_a", mk_meta "a.x" (Some "par")); ("dv_b", mk_meta "b.x" (Some "par"))].

Definition alias_colour_init : result (Relevance * Model) :=
  @__init__ (demo_helpers no_sccs) (parallel_model colour_graph)
            alias_fwd_meta [seed "c.y"].

Definition alias_engine : Relevance :=
  match alias_colour_init with
  | Ok (st, _) => st
  | Raise _ => init_state empty_graph
  end.

(** The three sets of [opt_model], before the added groups are subtracted. *)
Definition opt_partition
  : gset string * gset string * gset string * gset string :=
  match @partition_sets (demo_helpers opt_sccs) opt_model
                        ["ivc.x"] {["c2.y"]} with
  | Ok r => r
  | Raise _ => (∅, ∅, ∅, ∅)
  end.

(** A model whose design variable is the output [v0] of [_auto_ivc]:
    [_auto_ivc.v0] feeds [c1], the other output [_auto_ivc.v1] feeds [c0],
    [c0] feeds [c1], and the response is [c1.y]. *)
Definition auto_dv_sys_graph : DiGraph :=
  mk_DiGraph
    [("_auto_ivc", sys_node); ("c0", sys_node); ("c1", sys_node)]
    [("_auto_ivc", "c1"); ("_auto_ivc", "c0"); ("c0", "c1")].

Definition auto_dv_model : Model :=
  mk_Model "" empty_graph 1 (λ errs, [errs]) true "fwd" true None None IterUnset
           ∅ ∅ auto_dv_sys_graph
           [("c1.x", "_auto_ivc.v0"); ("c0.a", "_auto_ivc.v1"); ("c1.b", "c0.y")]
           ["_auto_ivc.v0"; "_auto_ivc.v1"].

(** The strongly connected components of [auto_dv_sys_graph] with the node
    [_auto_ivc.v0], its edge to [c1] and the edges between [c1] and
    [_auto_ivc.v0] added, in topological order. *)
Definition auto_dv_sccs : DiGraph → list (list string) :=
  λ _, [["_auto_ivc"]; ["c0"]; ["_auto_ivc.v0"; "c1"]].

(** A model whose design variable [ivc.x] is not an output of [_auto_ivc],
    while [_auto_ivc.v1] feeds [c1]; the response is [c1.y]. *)
Definition lone_auto_sys_graph : DiGraph :=
  mk_DiGraph
    [("_auto_ivc", sys_node); ("ivc", sys_node); ("c1", sys_node)]
    [("_auto_ivc", "c1"); ("ivc", "c1")].

Definition lone_auto_model : Model :=
  mk_Model "" empty_graph 1 (λ errs, [errs]) true "fwd" true None None IterUnset
           ∅ ∅ lone_auto_sys_graph
           [("c1.a", "_auto_ivc.v1"); ("c1.x", "ivc.x")]
           ["_auto_ivc.v1"].

(** The strongly connected components of [lone_auto_sys_graph] with the
    edges between [c1] and [ivc] added, in topological order. *)
Definition lone_auto_sccs : DiGraph → list (list string) :=
  λ _, [["_auto_ivc"]; ["ivc"; "c1"]].

(** ** Approximation schemes

    [ApproximationScheme] of approximation_scheme.py.  A key is a pair
    (of, wrt) of absolute names, or (None, None) for the entry that stands
    for all coloured approximations. *)

Definition akey : Type := option string * option string.

(** *** Arrays of numbers

    The entries of the arrays are float64 numbers in the code, which only
    copies, adds and multiplies them.  They are modelled as integers: the
    model is exact for whole numbers that float64 represents and computes
    with exactly (below 2^53 in magnitude), and the rounding of other
    values is not modelled. *)

Definition vec : Type := list Z.

(** A two-dimensional array: its rows, and the number of columns. *)
Record mat := mk_mat { ncols : nat; rows : list vec }.

(** [slice(start, stop)] *)
Definition pyslice : Type := nat * nat.

Definition slice_of {A} (a : list A) (s : pyslice) : list A :=
  take (s.2 - s.1) (drop s.1 a).

(** [a[idxs]] for a list of indices. *)
Definition np_take {A} (a : list A) (idxs : list nat) : result (list A) :=
  mapR (λ i, of_option IndexError (a !! i)) idxs.

(** [a[idxs]], [None] being the full slice. *)
Definition np_index {A} (a : list A) (idxs : option (list nat))
  : result (list A) :=
  match idxs with
  | None => Ok a
  | Some l => np_take a l
  end.

Definition np_zeros2 (shape : nat * nat) : mat :=
  mk_mat shape.2 (replicate shape.1 (replicate shape.2 0%Z)).

(** [m[rs, cs]] for two slices. *)
Definition mat_slice (m : mat) (rs cs : pyslice) : mat :=
  mk_mat (length (slice_of (replicate (ncols m) 0%Z) cs))
         (map (λ row, slice_of row cs) (slice_of (rows m) rs)).

(** [m[start:stop, :][:, j] = v]: the column [j] of the rows of a view is
    assigned; a value of length one is broadcast. *)
Definition set_col_rows (m : mat) (s : pyslice) (j : nat) (v : vec)
  : result mat :=
  let n := length (slice_of (rows m) s) in
  if bool_decide (ncols m ≤ j) then Raise IndexError
  else
    vals ← (if bool_decide (length v = n) then Ok v
            else if bool_decide (length v = 1)
                 then Ok (replicate n (default 0%Z (head v)))
                 else Raise ValueError);
    Ok (mk_mat (ncols m)
               (imap (λ i row,
                        if bool_decide (s.1 ≤ i < s.1 + n)
                        then <[j := default 0%Z (vals !! (i - s.1))]> row
                        else row)
                     (rows m))).

(** [m[:, j] = v] *)
Definition set_col (m : mat) (j : nat) (v : vec) : result mat :=
  set_col_rows m (0, length (rows m)) j v.

(** [m[start:stop, :] *= mult] *)
Definition scale_rows (m : mat) (s : pyslice) (mult : Z) : mat :=
  let n := length (slice_of (rows m) s) in
  mk_mat (ncols m)
         (imap (λ i row,
                  if bool_decide (s.1 ≤ i < s.1 + n)
                  then map (Z.mul mult) row else row)
               (rows m)).

(** [m[start:stop, :]] *)
Definition view_rows (m : mat) (s : pyslice) : mat :=
  mk_mat (ncols m) (slice_of (rows m) s).

(** [m[rows, cols]] for two lists of indices of the same length. *)
Definition np_take2 (m : mat) (rs cs : list nat) : result vec :=
  if negb (bool_decide (length rs = length cs)) then Raise IndexError
  else mapR (λ '(r, c), row ← of_option IndexError (rows m !! r);
                         of_option IndexError (row !! c))
            (zip rs cs).

(** [coo_matrix((data, (rows, cols)), shape).toarray()]: entries at the
    same place are added up. *)
Definition coo_toarray (shape : nat * nat) (rs cs : list nat) (data : vec)
  : result mat :=
  if negb (bool_decide (length rs = length data)
           && bool_decide (length cs = length data)) then Raise ValueError
  else if negb (forallb (λ r, bool_decide (r < shape.1)) rs
                && forallb (λ c, bool_decide (c < shape.2)) cs)
  then Raise ValueError
  else
    Ok (mk_mat shape.2
          (foldl (λ rows_ '(r, c, x),
                    alter (alter (Z.add x) c) r rows_)
                 (replicate shape.1 (replicate shape.2 0%Z))
                 (zip (zip rs cs) data))).

(** [np.hstack(part for part in parts if part)] *)
Definition np_hstack {A} (parts : list (list A)) : result (list A) :=
  match filter (λ p, p ≠ []) parts with
  | [] => Raise ValueError
  | ps => Ok (concat ps)
  end.

Section approximation.
Context {Coloring Data : Type}.

(** The values of an options dictionary: a coloring, the list of the
    approximations that a coloured entry stands for, [None], or any other
    value. *)
#[local] Unset Elimination Schemes.
Inductive optval :=
| VOther (v : Z)
| VNone
| VColoring (c : Coloring)
| VApproxs (l : list (akey * list (string * optval))).
#[local] Set Elimination Schemes.

Definition options : Type := list (string * optval).

(** An entry [(key, options)] of [_exec_list]. *)
Definition approx : Type := akey * options.

(** [key[0] is not None and (key[1] in wrt_matches or 'coloring' in options)] *)
Definition is_colored (wrt_matches : gset string) (tup : approx) : bool :=
  bool_decide (tup.1.1 ≠ None)
  && ((match tup.1.2 with
       | Some wrt => bool_decide (wrt ∈ wrt_matches)
       | None => false
       end)
      || OD.mem tup.2 "coloring").

(** The variables of the loop of [_update_coloring]; [new_entry] is the
    place of the coloured entry in [new_list], where later rounds change
    it. *)
Record coloring_loop := mk_coloring_loop {
  new_list : list approx;
  new_entry : option nat;
  colored : gset akey
}.

(** [new_entry[1]['approxs'].append(tup)] *)
Definition append_approx (tup : approx) (e : approx) : result approx :=
  match OD.get e.2 "approxs" with
  | Some (VApproxs l) => Ok (e.1, OD.set e.2 "approxs" (VApproxs (l ++ [tup])))
  | Some _ => Raise AttributeError
  | None => Raise KeyError
  end.

Definition update_coloring_step (wrt_matches : gset string)
    (coloring : option Coloring) (st : coloring_loop) (tup : approx)
  : result coloring_loop :=
  let '(key, options) := tup in
  if is_colored wrt_matches tup then
    let colored := {[key]} ∪ colored st in
    match coloring with
    | None => Ok (mk_coloring_loop (new_list st ++ [tup]) (new_entry st) colored)
    | Some c =>
        match new_entry st with
        | None =>
            let options := OD.set options "coloring" (VColoring c) in
            let options := OD.set options "approxs" (VApproxs [tup]) in
            Ok (mk_coloring_loop (new_list st ++ [((None, None), options)])
                                 (Some (length (new_list st))) colored)
        | Some i =>
            e ← of_option IndexError (new_list st !! i);
            e' ← append_approx tup e;
            Ok (mk_coloring_loop (<[i := e']> (new_list st)) (Some i) colored)
        end
    end
  else Ok st.


(** *** The scheme, the system and the Jacobian *)

Inductive vecref := VInputs | VOutputs.

(** An index, or a list of indices that are stepped together. *)
Inductive idxs_t := IOne (i : nat) | IMany (l : list nat).

Definition idx_info_t : Type := list (option vecref * idxs_t).

(** What is kept for one [of] of a [wrt]: the rows of its view
    [arr[start:end, :]] into the array of the [wrt], and its index
    information ([None] being the full slice). *)
Record of_view := mk_of_view {
  ov_rows : pyslice;
  ov_out_idxs : option (list nat);
  ov_rows_reduced : option (list nat);
  ov_cols_reduced : option (list nat)
}.

(** [J[wrt]] as [_get_wrt_subjacs] makes it. *)
Record wrt_subjacs := mk_wrt_subjacs {
  J_ofs : list (string * of_view);
  J_data : mat;
  J_loc_outvec_idxs : option (list nat)
}.

(** [tmpJ] of the coloured groups. *)
Record colored_tmpJ := mk_colored_tmpJ {
  t_nrows : nat;
  t_ncols : nat;
  t_approxs : list approx;
  t_jac_slices : list (akey * (pyslice * pyslice));
  t_row_idx_map : option (list nat)
}.

(** [tmpJ] of the other groups. *)
Record wrt_tmpJ := mk_wrt_tmpJ {
  t_out_slices : list (string * pyslice);
  t_J : list (string * wrt_subjacs)
}.

(** An entry of [_approx_groups], in the two shapes that
    [_init_approximations] gives it:
    [(None, data, cols, tmpJ, idx_info, nzrows)] and
    [(wrt, data, in_idx, tmpJ, [(arr, in_idx)], None)]. *)
Inductive approx_group :=
| ColoredGroup (data : Data) (cols : list nat) (tmpJ : colored_tmpJ)
    (idx_info : idx_info_t) (nz_rows : option (list (list nat)))
| WrtGroup (wrt : string) (data : Data) (in_idx : list idxs_t)
    (tmpJ : wrt_tmpJ) (idx_info : idx_info_t).

Definition group_data (g : approx_group) : Data :=
  match g with
  | ColoredGroup data _ _ _ _ => data
  | WrtGroup _ data _ _ _ => data
  end.

Record ApproximationScheme := mk_ApproximationScheme {
  _approx_groups : option (list approx_group);
  _approx_groups_cached_under_cs : bool;
  _exec_list : list approx
}.

(** [ApproximationScheme.__init__] *)
Definition new_scheme : ApproximationScheme :=
  mk_ApproximationScheme None false [].

(** [_update_coloring]; [wrt_matches] is
    [system._coloring_info['wrt_matches']]. *)
Definition _update_coloring (self : ApproximationScheme)
    (wrt_matches : option (gset string)) (coloring : option Coloring)
  : result ApproximationScheme :=
  let wrt_matches := default ∅ wrt_matches in
  st ← foldl (λ acc tup, st ← acc;
                         update_coloring_step wrt_matches coloring st tup)
             (Ok (mk_coloring_loop [] None ∅)) (_exec_list self);
  if negb (bool_decide (colored st = ∅)) then
    Ok (mk_ApproximationScheme
          None (_approx_groups_cached_under_cs self)
          (new_list st
             ++ filter (λ tup, tup.1 ∉ colored st) (_exec_list self)))
  else Ok self.

(** The partial results of the processes: key to list of (column, column
    values). *)
Definition results_t : Type := list (akey * list (nat * vec)).

(** A communicator: its size, the rank of this process, and what
    [allgather] returns for the two kinds of value that are gathered. *)
Record Comm := mk_Comm {
  comm_size_ : nat;
  comm_rank : nat;
  allgather_results : results_t → list results_t;
  allgather_coo : list nat * list nat * vec → list (list nat * list nat * vec)
}.

Record System := mk_System {
  _outputs_data : vec;
  _residuals_data : vec;
  _owns_approx_of_idx : list (string * list nat);
  _owns_approx_wrt_idx : list (string * list nat);
  _num_par_fd : nat;
  _par_fd_id : nat;
  _full_comm : option Comm;
  comm : Comm;
  _owning_rank : list (string * nat)
}.

(** The value that a sub-Jacobian has in the Jacobian. *)
Inductive subjac_value :=
| ValNdarray
| ValCoo (row col : list nat)
| ValOther.

(** An entry of [_subjacs_info]: [rows] and [cols] (both [None], or both
    given), and the kind of [value]. *)
Record subjac_info := mk_subjac_info {
  info_rows_cols : option (list nat * list nat);
  info_value : subjac_value
}.

(** What is stored for a key. *)
Inductive subjac :=
| Dense (m : mat)
| Values (v : vec).

(** A [Jacobian] object: [_subjacs_info], the values that were set, and
    [_override_checks]. *)
Record Jacobian := mk_Jacobian {
  _subjacs_info : list (akey * subjac_info);
  jac_items : list (akey * subjac);
  _override_checks : bool
}.

(** The argument [jac]: a dictionary, or a [Jacobian]. *)
Inductive jac_t :=
| JacDict (d : list (akey * subjac))
| JacObject (j : Jacobian).

(** [jac[key] = value].  Modelled from the spec: the Jacobian is a
    collaborator that accepts a value under an (of, wrt) key. *)
Definition jac_setitem (jac : jac_t) (key : akey) (value : subjac) : jac_t :=
  match jac with
  | JacDict d => JacDict (OD.set d key value)
  | JacObject j =>
      JacObject (mk_Jacobian (_subjacs_info j) (OD.set (jac_items j) key value)
                             (_override_checks j))
  end.

Definition set_override_checks (b : bool) (jac : jac_t) : result jac_t :=
  match jac with
  | JacDict d => Raise AttributeError
  | JacObject j =>
      Ok (JacObject (mk_Jacobian (_subjacs_info j) (jac_items j) b))
  end.

(** [_from_dense].  For a [coo_matrix] value the code calls
    [coo_matrix(((val.row, val.col), data))], with the coordinates where
    scipy (not part of the sources at hand) expects the data and the data
    where it expects the pair of coordinates; scipy rejects this with a
    [TypeError], once the data has been read from the dense array.  The
    names [csc_matrix] and [csr_matrix] that the last branches test against
    are not imported by the module, so a value that is neither an array nor
    a [coo_matrix] ends in a [NameError]. *)
Definition _from_dense (jac : option Jacobian) (key : akey) (sub : mat)
    (reduced_rows reduced_cols : option (list nat)) : result subjac :=
  match jac with
  | None => Ok (Dense sub)
  | Some jac =>
      meta ← of_option KeyError (OD.get (_subjacs_info jac) key);
      match info_rows_cols meta with
      | Some (rows_, cols_) =>
          match reduced_rows, reduced_cols with
          | None, None => v ← np_take2 sub rows_ cols_; Ok (Values v)
          | Some rs, Some cs => v ← np_take2 sub rs cs; Ok (Values v)
          | _, _ =>
              let rs := default (seq 0 (length (rows sub))) reduced_rows in
              let cs := default (seq 0 (ncols sub)) reduced_cols in
              m ← mapR (λ r, row ← of_option IndexError (rows sub !! r);
                             np_take row cs) rs;
              Ok (Dense (mk_mat (length cs) m))
          end
      | None =>
          match info_value meta with
          | ValNdarray => Ok (Dense sub)
          | ValCoo row col => np_take2 sub row col;; Raise TypeError
          | ValOther => Raise (NameError "csc_matrix")
          end
      end
  end.

(** [_gather_jac_results] *)
Definition _gather_jac_results (comm : Comm) (results : results_t) : results_t :=
  foldl (λ new_results proc_results,
           foldl (λ new_results '(key, l),
                    OD.set new_results key
                           (default [] (OD.get new_results key) ++ l))
                 new_results proc_results)
        [] (allgather_results comm results).


(** *** [_compute_approximations] *)

(** The methods that the approximation schemes (finite difference, complex
    step) define, and [_init_approximations], which enters as it is
    called: it fills [_approx_groups] from [_exec_list]. *)
Class Scheme := {
  _run_point : System → idx_info_t → Data → vec → bool → vec;
  _transform_result : vec → vec;
  _get_multiplier : Data → Z;
  _init_approximations : ApproximationScheme → System → ApproximationScheme
}.

Context `{Scheme}.

(** [_get_approx_groups]: the groups, and the scheme as it is left. *)
Definition _get_approx_groups (self : ApproximationScheme) (system : System)
    (under_cs : bool) : option (list approx_group) * ApproximationScheme :=
  let self :=
    if bool_decide (_approx_groups self = None)
       || negb (bool_decide (under_cs = _approx_groups_cached_under_cs self))
    then
      let self := _init_approximations self system in
      mk_ApproximationScheme (_approx_groups self) under_cs (_exec_list self)
    else self in
  (_approx_groups self, self).

(** The flags that [_compute_approximations] derives from the system. *)
Definition use_parallel_fd (system : System) : bool :=
  bool_decide (1 < _num_par_fd system)
  && match _full_comm system with
     | Some c => bool_decide (1 < comm_size_ c)
     | None => false
     end.

Definition par_fd_w_serial_model (system : System) : bool :=
  use_parallel_fd system
  && match _full_comm system with
     | Some c => bool_decide (_num_par_fd system = comm_size_ c)
     | None => false
     end.

Definition num_par_fd (system : System) : nat :=
  if use_parallel_fd system then _num_par_fd system else 1.

Definition is_parallel (system : System) : bool :=
  use_parallel_fd system || bool_decide (1 < comm_size_ (comm system)).

Definition mycomm (system : System) : result Comm :=
  if use_parallel_fd system then of_option AttributeError (_full_comm system)
  else Ok (comm system).

Definition uses_voi_indices (system : System) (jac : jac_t) : bool :=
  (bool_decide (0 < length (_owns_approx_of_idx system))
   || bool_decide (0 < length (_owns_approx_wrt_idx system)))
  && match jac with JacDict _ => false | JacObject _ => true end.

(** The variables of the loop that runs the points. *)
Record probes := mk_probes {
  fd_count : nat;
  colored_shape : option (nat * nat);
  jrows : list nat;
  jcols : list nat;
  jdata : vec;
  results : results_t
}.

(** The point of a coloured group, scattered into the triplets. *)
Definition scatter_colored (cols : list nat) (tmpJ : colored_tmpJ)
    (nz_rows : option (list (list nat))) (result_ : vec) (p : probes)
  : result probes :=
  let rowmap := t_row_idx_map tmpJ in
  match nz_rows with
  | None =>
      let nrows := t_nrows tmpJ in
      r ← np_index result_ rowmap;
      Ok (mk_probes (fd_count p) (colored_shape p)
                    (jrows p ++ seq 0 nrows)
                    (jcols p ++ concat (replicate nrows cols))
                    (jdata p ++ _transform_result r)
                    (results p))
  | Some nz_rows =>
      foldl (λ acc '(i, col),
               p ← acc;
               nz ← of_option IndexError (nz_rows !! i);
               r ← match rowmap with
                   | Some rowmap => idx ← np_take rowmap nz; np_take result_ idx
                   | None => np_take result_ nz
                   end;
               Ok (mk_probes (fd_count p) (colored_shape p)
                             (jrows p ++ nz)
                             (jcols p ++ replicate (length nz) col)
                             (jdata p ++ _transform_result r)
                             (results p)))
            (Ok p) (imap (λ i col, (i, col)) cols)
  end.

Definition bump (p : probes) : probes :=
  mk_probes (S (fd_count p)) (colored_shape p) (jrows p) (jcols p) (jdata p)
            (results p).

(** One column of a group that is not coloured. *)
Definition probe_column (system : System) (results_array : vec) (total : bool)
    (wrt : string) (data : Data) (tmpJ : wrt_tmpJ) (idx_info : idx_info_t)
    (acc : probes * wrt_subjacs) (i_count : nat) (idxs : idxs_t)
  : result (probes * wrt_subjacs) :=
  let '(p, J) := acc in
  r ← (if bool_decide (fd_count p mod num_par_fd system = _par_fd_id system)
       then
         arr ← of_option IndexError (head idx_info);
         let result_ := _run_point system [(arr.1, idxs)] data results_array total in
         if is_parallel system then
           res ← foldl (λ acc '(of_, ov),
                          res ← acc;
                          owner ← of_option KeyError (OD.get (_owning_rank system) of_);
                          if bool_decide (owner = comm_rank (comm system)) then
                            slc ← of_option KeyError (OD.get (t_out_slices tmpJ) of_);
                            r ← np_index (slice_of result_ slc) (ov_out_idxs ov);
                            let key := (Some of_, Some wrt) in
                            Ok (OD.set res key
                                  (default [] (OD.get res key)
                                     ++ [(i_count, _transform_result r)]))
                          else Ok res)
                       (Ok (results p)) (J_ofs J);
           Ok (mk_probes (fd_count p) (colored_shape p) (jrows p) (jcols p)
                         (jdata p) res, J)
         else
           r ← np_index result_ (J_loc_outvec_idxs J);
           d ← set_col (J_data J) i_count (_transform_result r);
           Ok (p, mk_wrt_subjacs (J_ofs J) d (J_loc_outvec_idxs J))
       else Ok (p, J));
  Ok (bump r.1, r.2).

(** One round of the first loop; the group is returned as the round leaves
    it. *)
Definition probe_group (system : System) (results_array : vec) (total : bool)
    (p : probes) (g : approx_group) : result (probes * approx_group) :=
  match g with
  | ColoredGroup data cols tmpJ idx_info nz_rows =>
      let p := mk_probes (fd_count p) (Some (t_nrows tmpJ, t_ncols tmpJ))
                         (jrows p) (jcols p) (jdata p) (results p) in
      p ← (if bool_decide (fd_count p mod num_par_fd system = _par_fd_id system)
           then
             let result_ := _run_point system idx_info data results_array total in
             if par_fd_w_serial_model system || negb (is_parallel system) then
               scatter_colored cols tmpJ nz_rows result_ p
             else
               Raise (NotImplementedError
                        "simul approx coloring with par FD is only supported currently when using a serial model, i.e., when num_par_fd == number of MPI procs.")
           else Ok p);
      Ok (bump p, g)
  | WrtGroup wrt data in_idx tmpJ idx_info =>
      J ← of_option KeyError (OD.get (t_J tmpJ) wrt);
      r ← foldl (λ acc '(i_count, idxs),
                   acc ← acc;
                   probe_column system results_array total wrt data tmpJ
                                idx_info acc i_count idxs)
                (Ok (p, J)) (imap (λ i idxs, (i, idxs)) in_idx);
      Ok (r.1, WrtGroup wrt data in_idx
                 (mk_wrt_tmpJ (t_out_slices tmpJ) (OD.set (t_J tmpJ) wrt r.2))
                 idx_info)
  end.

Definition probe_groups (system : System) (results_array : vec) (total : bool)
    (groups : list approx_group) : result (probes * list approx_group) :=
  foldl (λ acc g,
           '(p, done) ← acc;
           '(p, g) ← probe_group system results_array total p g;
           Ok (p, done ++ [g]))
        (Ok (mk_probes 0 None [] [] [] [], [])) groups.

(** The dense matrix of the coloured groups. *)
Definition assemble_colored (system : System) (shape : nat * nat) (mult : Z)
    (p : probes) : result mat :=
  '(rs, cs, data) ←
     (if par_fd_w_serial_model system then
        c ← mycomm system;
        let Jcolored := allgather_coo c (jrows p, jcols p, jdata p) in
        allrows ← np_hstack (map (λ t, t.1.1) Jcolored);
        allcols ← np_hstack (map (λ t, t.1.2) Jcolored);
        alldata ← np_hstack (map (λ t, t.2) Jcolored);
        Ok (allrows, allcols, alldata)
      else if is_parallel system then
        Raise (NotImplementedError
                 "colored FD/CS over parallel groups not supported yet")
      else Ok (jrows p, jcols p, jdata p));
  let data := if bool_decide (mult ≠ 1%Z) then map (Z.mul mult) data else data in
  coo_toarray shape rs cs data.

(** [jac[key] = _from_dense(...)], with the checks overridden when
    [uses_voi_indices]. *)
Definition store (system : System) (jacobian : option Jacobian) (jac : jac_t)
    (key : akey) (sub : mat) (reduced_rows reduced_cols : option (list nat))
  : result jac_t :=
  if uses_voi_indices system jac then
    jac ← set_override_checks true jac;
    v ← _from_dense jacobian key sub reduced_rows reduced_cols;
    set_override_checks false (jac_setitem jac key v)
  else
    v ← _from_dense jacobian key sub reduced_rows reduced_cols;
    Ok (jac_setitem jac key v).

(** One round of the second loop. *)
Definition write_group (system : System) (jacobian : option Jacobian)
    (Jcolored : option mat) (res : results_t) (mult : Z)
    (jac : jac_t) (g : approx_group) : result (jac_t * approx_group) :=
  match g with
  | ColoredGroup data cols tmpJ idx_info nz_rows =>
      jac ← foldl (λ acc approx_,
                     jac ← acc;
                     let key := approx_.1 in
                     slc ← of_option KeyError (OD.get (t_jac_slices tmpJ) key);
                     Jc ← of_option UnboundLocalError Jcolored;
                     store system jacobian jac key (mat_slice Jc slc.1 slc.2)
                           None None)
                  (Ok jac) (t_approxs tmpJ);
      Ok (jac, g)
  | WrtGroup wrt data in_idx tmpJ idx_info =>
      J ← of_option KeyError (OD.get (t_J tmpJ) wrt);
      r ← foldl (λ acc '(of_, ov),
                   '(jac, d) ← acc;
                   let key := (Some of_, Some wrt) in
                   d ← (if is_parallel system then
                          foldl (λ acc '(i, result_),
                                   d ← acc; set_col_rows d (ov_rows ov) i result_)
                                (Ok d) (default [] (OD.get res key))
                        else Ok d);
                   let d := scale_rows d (ov_rows ov) mult in
                   jac ← store system jacobian jac key (view_rows d (ov_rows ov))
                               (ov_rows_reduced ov) (ov_cols_reduced ov);
                   Ok (jac, d))
                (Ok (jac, J_data J)) (J_ofs J);
      Ok (r.1, WrtGroup wrt data in_idx
                 (mk_wrt_tmpJ (t_out_slices tmpJ)
                    (OD.set (t_J tmpJ) wrt
                       (mk_wrt_subjacs (J_ofs J) r.2 (J_loc_outvec_idxs J))))
                 idx_info)
  end.

Definition write_groups (system : System) (jacobian : option Jacobian)
    (Jcolored : option mat) (res : results_t) (mult : Z)
    (jac : jac_t) (groups : list approx_group)
  : result (jac_t * list approx_group) :=
  foldl (λ acc g,
           '(jac, done) ← acc;
           '(jac, g) ← write_group system jacobian Jcolored res mult jac g;
           Ok (jac, done ++ [g]))
        (Ok (jac, [])) groups.

(** [_compute_approximations]: the Jacobian and the scheme as the call
    leaves them.  The multiplier is taken once, after the first loop, from
    the variable [data], which then holds the data of the last group. *)
Definition _compute_approximations (self : ApproximationScheme)
    (system : System) (jac : jac_t) (total under_cs : bool)
  : result (jac_t * ApproximationScheme) :=
  let results_array :=
    if total then _outputs_data system else _residuals_data system in
  let jacobian := match jac with JacObject j => Some j | JacDict _ => None end in
  let '(groups, self) := _get_approx_groups self system under_cs in
  approx_groups ← of_option TypeError groups;
  '(p, approx_groups) ← probe_groups system results_array total approx_groups;
  data ← of_option UnboundLocalError (last approx_groups);
  let mult := _get_multiplier (group_data data) in
  Jcolored ← match colored_shape p with
             | Some shape => m ← assemble_colored system shape mult p; Ok (Some m)
             | None => Ok None
             end;
  res ← match colored_shape p with
        | Some _ => Ok (results p)
        | None =>
            if is_parallel system then
              c ← mycomm system; Ok (_gather_jac_results c (results p))
            else Ok (results p)
        end;
  '(jac, approx_groups) ←
     write_groups system jacobian Jcolored res mult jac approx_groups;
  Ok (jac, mk_ApproximationScheme (Some approx_groups)
             (_approx_groups_cached_under_cs self) (_exec_list self)).

End approximation.

(** ** Example schemes *)

(** Two requests for the same pair (f, x), with different steps. *)
Definition twice_requested : @ApproximationScheme string Z :=
  mk_ApproximationScheme None false
    [((Some "f", Some "x"), [("step", VOther 1)]);
     ((Some "f", Some "x"), [("step", VOther 2)])].

(** A scheme whose data is its multiplier; a point that steps the first
    input gives (1, 2), any other point (10, 20). *)
Definition step_scheme : @Scheme string Z :=
  {| _run_point := λ _ idx_info _ _ _,
       match idx_info with
       | [(_, IOne 0)] => [1; 2]
       | _ => [10; 20]
       end%Z;
     _transform_result := λ r, r;
     _get_multiplier := λ data, data;
     _init_approximations := λ self _, self |}.

(** The group of one [wrt] with the single [of] f of size two, one column
    that is stepped at index [i], and the data [mult]. *)
Definition one_column_group (wrt : string) (mult : Z) (i : nat)
  : @approx_group string Z :=
  WrtGroup wrt mult [IOne i]
    (mk_wrt_tmpJ [("f", (0, 2))]
       [(wrt, mk_wrt_subjacs [("f", mk_of_view (0, 2) None None None)]
                             (np_zeros2 (2, 1)) None)])
    [(Some VInputs, IOne i)].

(** Two groups: x with the multiplier 2, then y with the multiplier 3. *)
Definition two_step_scheme : @ApproximationScheme string Z :=
  mk_ApproximationScheme
    (Some [one_column_group "x" 2 0; one_column_group "y" 3 1]) false [].

(** The same groups in the other order. *)
Definition two_step_scheme_swapped : @ApproximationScheme string Z :=
  mk_ApproximationScheme
    (Some [one_column_group "y" 3 1; one_column_group "x" 2 0]) false [].

Definition one_process : Comm := mk_Comm 1 0 (λ r, [r]) (λ t, [t]).

Definition serial_system : System :=
  mk_System [0; 0]%Z [0; 0]%Z [] [] 1 0 None one_process [("f", 0)].

(** ** Reachability (specification side)

    What [_dependent_nodes] is meant to return: the nodes that can be
    reached from the start node along the edges ([fwd]) or against them
    ([rev]). *)

Definition edge_in (g : DiGraph) (d : direction) (a b : string) : Prop :=
  match d with
  | fwd => (a, b) ∈ g_edges g
  | rev => (b, a) ∈ g_edges g
  end.

Definition reaches (g : DiGraph) (d : direction) (start n : string) : Prop :=
  rtc (edge_in g d) start n.

(** A model with derivatives switched off. *)
Definition no_derivs_model : Model :=
  mk_Model "" chain_graph 1 (λ errs, [errs]) false "fwd" false None None
           IterUnset ∅ ∅ empty_graph [] [].

Definition no_derivs_init : result (Relevance * Model) :=
  @get_relevance (demo_helpers no_sccs) no_derivs_model
                 [seed "c2.y"] [seed "c1.x"].

Definition no_derivs_engine : Relevance :=
  match no_derivs_init with
  | Ok (st, _) => st
  | Raise _ => init_state empty_graph
  end.

Definition no_derivs_model' : Model :=
  match no_derivs_init with
  | Ok (_, m) => m
  | Raise _ => no_derivs_model
  end.

(** A scheme whose groups are an empty list. *)
Definition no_groups_scheme : @ApproximationScheme string Z :=
  mk_ApproximationScheme (Some []) false [].

(** A request for (f, x) and one for (g, y); only x is a column of the
    coloring. *)
Definition two_requests : @ApproximationScheme string Z :=
  mk_ApproximationScheme None false
    [((Some "f", Some "x"), [("step", VOther 1)]);
     ((Some "g", Some "y"), [("step", VOther 2)])].

(** Two processes, of which this is the first, and a system on them. *)
Definition two_processes : Comm := mk_Comm 2 0 (λ r, [r; r]) (λ t, [t; t]).

Definition parallel_system : System :=
  mk_System [0; 0]%Z [0; 0]%Z [] [] 1 0 None two_processes [("f", 0)].

(** A scheme with one coloured group. *)
Definition one_color_scheme : @ApproximationScheme string Z :=
  mk_ApproximationScheme
    (Some [ColoredGroup 2%Z [0]
             (mk_colored_tmpJ 2 1 [((Some "f", Some "x"), [])]
                [((Some "f", Some "x"), ((0, 2), (0, 1)))] None)
             [(Some VInputs, IMany [0])] None])
    false [].
(** ** Reasoning about monadic code *)

(** [post m st Q E]: running [m] from [st] ends normally with a value and a
    state in [Q], or with an exception and a state in [E]. *)
Definition post {A} (m : M A) (st : Relevance)
    (Q : A → Relevance → Prop) (E : Relevance → Prop) : Prop :=
  match m st with
  | (Ok a, st') => Q a st'
  | (Raise _, st') => E st'
  end.

Lemma bind_run {A B} (m : M A) (f : A → M B) st :
  (m ≫= f) st = match m st with
                | (Ok a, st') => f a st'
                | (Raise e, st') => (Raise e, st')
                end.
Proof. reflexivity. Qed.

Lemma post_ret {A} (a : A) st (Q : A → Relevance → Prop) E :
  Q a st → post (mret a) st Q E.
Proof. done. Qed.

Lemma post_bind {A B} (m : M A) (f : A → M B) st Q E :
  post m st (λ a st', post (f a) st' Q E) E → post (m ≫= f) st Q E.
Proof.
  unfold post. rewrite bind_run. by destruct (m st) as [[a|e] st'].
Qed.

Lemma post_mono {A} (m : M A) st (Q Q' : A → Relevance → Prop)
    (E E' : Relevance → Prop) :
  post m st Q E → (∀ a st', Q a st' → Q' a st') → (∀ st', E st' → E' st') →
  post m st Q' E'.
Proof.
  unfold post. destruct (m st) as [[a|e] st']; eauto.
Qed.

Lemma post_raise {A} (e : exn) st (Q : A → Relevance → Prop) (E : Relevance → Prop) :
  E st → post (raise e) st Q E.
Proof. done. Qed.

Lemma post_gets {A} (f : Relevance → A) st (Q : A → Relevance → Prop) E :
  Q (f st) st → post (gets f) st Q E.
Proof. done. Qed.

Lemma post_modify (f : Relevance → Relevance) st (Q : unit → Relevance → Prop) E :
  Q tt (f st) → post (modify f) st Q E.
Proof. done. Qed.

Lemma post_lift {A} (r : result A) st (Q : A → Relevance → Prop) (E : Relevance → Prop) :
  (∀ a, r = Ok a → Q a st) → E st → post (lift r) st Q E.
Proof. unfold post, lift. destruct r; eauto. Qed.

Lemma post_lift_opt {A} e (o : option A) st (Q : A → Relevance → Prop)
    (E : Relevance → Prop) :
  (∀ a, o = Some a → Q a st) → E st → post (lift_opt e o) st Q E.
Proof. unfold post, lift_opt, lift. destruct o; simpl; eauto. Qed.

(** A loop keeps an invariant that every round keeps. *)
Lemma post_foldM {A B} (f : B → A → M B) (I : B → Relevance → Prop)
    (E : Relevance → Prop) xs :
  ∀ acc st,
    I acc st →
    (∀ acc x st, x ∈ xs → I acc st → post (f acc x) st I E) →
    post (foldM f acc xs) st I E.
Proof.
  induction xs as [|x xs IH]; intros acc st HI Hf; simpl.
  - by apply post_ret.
  - apply post_bind.
    eapply post_mono; [apply Hf; [by left|done]| |done].
    intros acc' st' HI'. apply IH; [done|].
    intros ????. apply Hf. by right.
Qed.

Lemma post_forM_ {A} (f : A → M unit) (I : Relevance → Prop)
    (E : Relevance → Prop) xs :
  ∀ st,
    I st →
    (∀ x st, x ∈ xs → I st → post (f x) st (λ _, I) E) →
    post (forM_ f xs) st (λ _, I) E.
Proof.
  induction xs as [|x xs IH]; intros st HI Hf; simpl.
  - by apply post_ret.
  - apply post_bind.
    eapply post_mono; [apply Hf; [by left|done]| |done].
    intros [] st' HI'. apply IH; [done|].
    intros ???. apply Hf. by right.
Qed.

(** The same for an invariant that follows the elements already visited. *)
Lemma post_foldM_prefix {A B} (f : B → A → M B)
    (I : list A → B → Relevance → Prop) (E : Relevance → Prop) xs :
  ∀ pre acc st,
    I pre acc st →
    (∀ pre x acc st, I pre acc st → post (f acc x) st (I (pre ++ [x])) E) →
    post (foldM f acc xs) st (I (pre ++ xs)) E.
Proof.
  induction xs as [|x xs IH]; intros pre acc st HI Hf; simpl.
  - rewrite app_nil_r. by apply post_ret.
  - apply post_bind.
    eapply post_mono; [by apply Hf| |done].
    intros acc' st' HI'. simpl.
    replace (pre ++ x :: xs) with ((pre ++ [x]) ++ xs) by by rewrite <- app_assoc.
    by apply IH.
Qed.

(** ** Insertion-ordered dictionaries *)

Section odict_facts.
Context {K V : Type} `{EqDecision K}.
Implicit Types (d : list (K * V)) (k : K) (v : V).

Lemma od_get_set d k v k' :
  OD.get (OD.set d k v) k' = if decide (k' = k) then Some v else OD.get d k'.
Proof.
  induction d as [|[k0 v0] d IH]; simpl.
  - by destruct (decide (k' = k)).
  - destruct (decide (k = k0)) as [->|Hne]; simpl.
    + by destruct (decide (k' = k0)).
    + destruct (decide (k' = k0)) as [->|Hne'].
      * by rewrite decide_False by done.
      * apply IH.
Qed.

Lemma od_get_elem d k v : OD.get d k = Some v → (k, v) ∈ d.
Proof.
  induction d as [|[k0 v0] d IH]; simpl; [done|].
  destruct (decide (k = k0)) as [->|Hne].
  - intros [= ->]. by left.
  - intros Hg. right. by apply IH.
Qed.

Lemma od_elem_get d k v : NoDup (OD.keys d) → (k, v) ∈ d → OD.get d k = Some v.
Proof.
  unfold OD.keys. induction d as [|[k0 v0] d IH]; simpl.
  - by intros _ ?%elem_of_nil.
  - intros [Hk0 Hnd]%NoDup_cons [[= -> ->]|Hin]%elem_of_cons.
    + by rewrite decide_True.
    + destruct (decide (k = k0)) as [->|Hne]; [|by apply IH].
      exfalso. apply Hk0. apply list_elem_of_fmap. by exists (k0, v).
Qed.

Lemma od_keys_set d k v :
  OD.keys (OD.set d k v) = if OD.mem d k then OD.keys d else OD.keys d ++ [k].
Proof.
  unfold OD.keys, OD.mem. induction d as [|[k0 v0] d IH]; [done|].
  cbn [OD.set OD.get]. destruct (decide (k = k0)) as [->|Hne]; [done|].
  rewrite !fmap_cons, IH. by destruct (OD.get d k).
Qed.

Lemma od_get_keys d k : is_Some (OD.get d k) ↔ k ∈ OD.keys d.
Proof.
  unfold OD.keys. induction d as [|[k0 v0] d IH]; simpl.
  - split; [by intros [? ?]|by intros ?%elem_of_nil].
  - destruct (decide (k = k0)) as [->|Hne].
    + split; [left|by eexists].
    + rewrite IH. split; [by right|].
      by intros [?|?]%elem_of_cons.
Qed.

Lemma od_nodup_set d k v : NoDup (OD.keys d) → NoDup (OD.keys (OD.set d k v)).
Proof.
  intros Hnd. rewrite od_keys_set. unfold OD.mem.
  destruct (OD.get d k) eqn:Hg; [done|].
  apply NoDup_app. split; [done|]. split; [|apply NoDup_singleton].
  intros x Hx ->%list_elem_of_singleton.
  apply od_get_keys in Hx as [? ?]. congruence.
Qed.

End odict_facts.

(** ** Arrays *)

Lemma inplace_same_length f (a b : list bool) :
  length a = length b → np_binop_inplace f a b = Ok (zip_with f a b).
Proof. intros Hl. unfold np_binop_inplace. by rewrite decide_True. Qed.

Lemma binop_same_length f (a b : list bool) :
  length a = length b → np_binop f a b = Ok (zip_with f a b).
Proof. intros Hl. unfold np_binop. by rewrite decide_True. Qed.

(** An array of length [n] is the table of its bits. *)
Lemma bits_as_map (a : list bool) :
  a = map (λ i, default false (a !! i)) (seq 0 (length a)).
Proof.
  apply list_eq. intros i. rewrite list_lookup_fmap.
  destruct (decide (i < length a)) as [Hi|Hi].
  - rewrite lookup_seq_lt by done. simpl.
    destruct (lookup_lt_is_Some_2 a i Hi) as [b Hb]. by rewrite Hb.
  - rewrite lookup_seq_ge by lia. simpl. apply lookup_ge_None_2. lia.
Qed.

Lemma zip_with_map_seq (f : bool → bool → bool) (g h : nat → bool) n :
  zip_with f (map g (seq 0 n)) (map h (seq 0 n))
  = map (λ i, f (g i) (h i)) (seq 0 n).
Proof.
  generalize 0. induction n as [|n IH]; intros s; simpl; [done|].
  by rewrite IH.
Qed.

Lemma spec_relevance_length n fm rm F R :
  length (spec_relevance n fm rm F R) = n.
Proof. unfold spec_relevance. by rewrite length_map, length_seq. Qed.

Lemma spec_relevance_lookup n fm rm F R i :
  i < n →
  spec_relevance n fm rm F R !! i
  = Some (union_bit fm (elements F) i && union_bit rm (elements R) i).
Proof.
  intros Hi. unfold spec_relevance. rewrite list_lookup_fmap.
  by rewrite lookup_seq_lt.
Qed.

(** ** The engine keeps its invariants *)

Section engine_facts.
Context `{Helpers}.
(** The content hash is taken to be free of collisions. *)
Context (hash_inj : ∀ a b : list bool, array_hash a = array_hash b → a = b).

(** Closes a goal [frozen st st'] or [quiet st st'] for a state [st'] that
    agrees with [st] on the parts in question. *)
Ltac solve_frozen := by constructor; try reflexivity.

Lemma frozen_refl st : frozen st st.
Proof. solve_frozen. Qed.

Lemma frozen_trans st1 st2 st3 : frozen st1 st2 → frozen st2 st3 → frozen st1 st3.
Proof. intros [] []. constructor; [by etrans|congruence..]. Qed.

Lemma quiet_refl st : quiet st st.
Proof. solve_frozen. Qed.

Lemma quiet_trans st1 st2 st3 : quiet st1 st2 → quiet st2 st3 → quiet st1 st3.
Proof. intros [] []. constructor; congruence. Qed.

Lemma steady_refl st : inv st → steady st st.
Proof. intros. split; [done|apply frozen_refl]. Qed.

Lemma steady_trans st1 st2 st3 : steady st1 st2 → steady st2 st3 → steady st1 st3.
Proof. intros [_ ?] [? ?]. split; [done|by eapply frozen_trans]. Qed.

Lemma keeps_refl st : inv st → keeps st st.
Proof. intros. split; [by apply steady_refl|apply quiet_refl]. Qed.

Lemma keeps_trans st1 st2 st3 : keeps st1 st2 → keeps st2 st3 → keeps st1 st3.
Proof.
  intros [? ?] [? ?]. split; [by eapply steady_trans|by eapply quiet_trans].
Qed.

Lemma keeps_inv st st' : keeps st st' → inv st'.
Proof. by intros [[? _] _]. Qed.

Lemma keeps_frozen st st' : keeps st st' → frozen st st'.
Proof. by intros [[_ ?] _]. Qed.

(** The invariants only read the cache, the tables, the per-seed arrays,
    the seeds of the construction and the seed maps. *)
Lemma inv_ext st st' :
  _rel_array_cache st' = _rel_array_cache st →
  _all_seed_vars st' = _all_seed_vars st →
  _seed_var_map st' = _seed_var_map st →
  _seed_sys_map st' = _seed_sys_map st →
  _single_seed2relvars st' = _single_seed2relvars st →
  _single_seed2relsys st' = _single_seed2relsys st →
  _sys2idx st' = _sys2idx st →
  _var2idx st' = _var2idx st →
  inv st → inv st'.
Proof.
  intros Hc Ha Hv Hs Hsv Hss Hsi Hvi [].
  assert (Ht : ∀ k, table k st' = table k st) by (by intros []).
  assert (Hg : ∀ k, get_single k st' = get_single k st) by (by intros []).
  assert (Hm : ∀ k, get_seed_map k st' = get_seed_map k st) by (by intros []).
  assert (Hl : ∀ k, table_len k st' = table_len k st).
  { intros k. unfold table_len. by rewrite Ht. }
  constructor.
  - unfold cache_ok. by rewrite Hc.
  - intros k. by rewrite Ht.
  - intros k d s a. rewrite Hg, Hl. apply inv_len0.
  - intros k d s. rewrite Hg, Ha. apply inv_dom0.
  - intros k F R a. rewrite Hm, Hg, Hl. apply inv_map0.
  - intros k. by rewrite Hm.
  - intros k. by rewrite Hm.
Qed.

Lemma steady_upd_active v st : inv st → steady st (upd_active v st).
Proof. intros Hi. split; [by eapply inv_ext; [..|exact Hi]|solve_frozen]. Qed.

Lemma steady_upd_seed_vars v st : inv st → steady st (upd_seed_vars v st).
Proof. intros Hi. split; [by eapply inv_ext; [..|exact Hi]|solve_frozen]. Qed.

Lemma steady_upd_current_rel_varray v st :
  inv st → steady st (upd_current_rel_varray v st).
Proof. intros Hi. split; [by eapply inv_ext; [..|exact Hi]|solve_frozen]. Qed.

Lemma steady_upd_current_rel_sarray v st :
  inv st → steady st (upd_current_rel_sarray v st).
Proof. intros Hi. split; [by eapply inv_ext; [..|exact Hi]|solve_frozen]. Qed.

Lemma keeps_upd_next_oid v st : inv st → keeps st (upd_next_oid v st).
Proof.
  intros Hi. split; [|solve_frozen].
  split; [by eapply inv_ext; [..|exact Hi]|solve_frozen].
Qed.

(** *** The cache *)

Lemma get_cached_post arr st :
  inv st →
  post (_get_cached_array arr) st
       (λ c st', keeps st st' ∧ bits c = bits arr) (λ _, False).
Proof.
  intros Hi. unfold post, _get_cached_array.
  destruct (_rel_array_cache st !! array_hash (bits arr)) as [c|] eqn:Hc.
  - split; [by apply keeps_refl|].
    apply hash_inj. by apply (inv_cache _ Hi).
  - split; [|done]. split; [|solve_frozen]. split.
    2:{ constructor; try reflexivity. simpl. by apply insert_subseteq. }
    destruct Hi. constructor; try done.
    intros h a. simpl. rewrite lookup_insert.
    case_decide as Hh; [|by apply inv_cache0].
    intros [= <-]. done.
Qed.

Lemma new_array_post b st :
  inv st →
  post (new_array b) st (λ a st', keeps st st' ∧ bits a = b) (λ _, False).
Proof.
  intros Hi. unfold post, new_array. split; [|done].
  by apply keeps_upd_next_oid.
Qed.

(** *** Unions and combinations *)

Lemma seed_bit_get m s a i :
  OD.get m s = Some a → seed_bit m s i = default false (bits a !! i).
Proof. intros Hg. unfold seed_bit. by rewrite Hg. Qed.

Lemma union_post (m : list (string * ndarray)) (S : gset string) st n :
  inv st →
  (∀ s a, OD.get m s = Some a → length (bits a) = n) →
  S ≠ ∅ →
  post (_union_arrays m (KSet S)) st
       (λ a st', keeps st st' ∧ (∀ s, s ∈ S → is_Some (OD.get m s)) ∧
                 bits a = map (λ i, union_bit m (elements S) i) (seq 0 n))
       (keeps st).
Proof.
  intros Hi Hlen HS. unfold _union_arrays. simpl.
  rewrite bool_decide_false by done. simpl.
  destruct (elements S) as [|s0 rest] eqn:Hel.
  { apply elements_empty_inv in Hel. by apply leibniz_equiv in Hel. }
  assert (Hin : ∀ s, s ∈ S ↔ s ∈ s0 :: rest).
  { intros s. by rewrite <- Hel, elem_of_elements. }
  apply post_bind, post_lift_opt; [|by apply keeps_refl].
  intros arr Harr.
  apply post_bind.
  eapply post_mono; [by apply new_array_post| |done].
  intros array st1 [Hk1 Hb1]. simpl.
  eapply post_mono.
  - apply (post_foldM_prefix _
             (λ pre acc st',
                keeps st st' ∧ (∀ s, s ∈ s0 :: pre → is_Some (OD.get m s)) ∧
                bits acc = map (λ i, union_bit m (s0 :: pre) i) (seq 0 n))
             (keeps st) rest []).
    + split; [done|]. split.
      * intros s ->%list_elem_of_singleton. by eexists.
      * rewrite Hb1. rewrite (bits_as_map (bits arr)) at 1.
        rewrite (Hlen _ _ Harr). apply map_ext. intros i.
        unfold union_bit. simpl. rewrite orb_false_r.
        by rewrite (seed_bit_get _ _ _ _ Harr).
    + intros pre x acc st' (Hk & Hdom & Hacc).
      apply post_bind, post_lift_opt; [|done].
      intros arr' Harr'.
      apply post_bind, post_lift; [|done].
      intros b Hb. apply post_ret. split; [done|]. split.
      * intros s Hs. apply elem_of_cons in Hs as [->|Hs]; [apply Hdom; by left|].
        apply elem_of_app in Hs as [Hs| ->%list_elem_of_singleton];
          [apply Hdom; by right|by eexists].
      * simpl. rewrite inplace_same_length in Hb.
        2:{ rewrite Hacc, length_map, length_seq. by rewrite (Hlen _ _ Harr'). }
        injection Hb as <-. rewrite Hacc.
        rewrite (bits_as_map (bits arr')) at 1.
        rewrite (Hlen _ _ Harr'), zip_with_map_seq.
        apply map_ext. intros i. unfold union_bit. simpl.
        rewrite existsb_app. simpl. rewrite orb_false_r, orb_assoc.
        by rewrite (seed_bit_get _ _ _ _ Harr').
  - simpl. intros a st' (Hk & Hdom & Ha). split; [done|]. split.
    + intros s Hs. apply Hdom. by apply Hin.
    + done.
  - done.
Qed.

Lemma combine_post k (F R : gset string) st :
  inv st → F ≠ ∅ → R ≠ ∅ →
  post (_combine_relevance (get_single k st).1 (KSet F)
                           (get_single k st).2 (KSet R)) st
       (λ a st', keeps st st' ∧
                 (∀ s, s ∈ F → is_Some (OD.get (get_single k st).1 s)) ∧
                 (∀ s, s ∈ R → is_Some (OD.get (get_single k st).2 s)) ∧
                 bits a = spec_relevance (table_len k st) (get_single k st).1
                                         (get_single k st).2 F R)
       (keeps st).
Proof.
  intros Hi HF HR. unfold _combine_relevance.
  apply post_bind.
  eapply post_mono;
    [apply (union_post _ F st (table_len k st)); [done| |done]| |done].
  { intros s a. apply (inv_len _ Hi k fwd). }
  intros fa st1 (Hk1 & HdF & Hfa). simpl.
  apply post_bind.
  eapply post_mono;
    [apply (union_post _ R st1 (table_len k st)); [apply Hk1| |done]| |].
  { intros s a. apply (inv_len _ Hi k rev). }
  2:{ intros st'. by apply keeps_trans. }
  intros ra st2 (Hk2 & HdR & Hra). simpl.
  assert (Hk02 : keeps st st2) by by eapply keeps_trans.
  apply post_bind, post_lift; [|done].
  intros b Hb.
  rewrite inplace_same_length in Hb
    by by rewrite Hfa, Hra, !length_map, !length_seq.
  injection Hb as <-.
  eapply post_mono; [apply get_cached_post, Hk02| |done].
  simpl. intros c st3 [Hk3 Hc]. split; [by eapply keeps_trans|].
  split; [done|]. split; [done|].
  rewrite Hc, Hfa, Hra, zip_with_map_seq. done.
Qed.

(** *** The seed maps *)

Lemma get_upd_seed_map k k' v st :
  get_seed_map k' (upd_seed_map k v st)
  = if decide (k' = k) then v else get_seed_map k' st.
Proof. by destruct k, k'. Qed.

Lemma sm_lookup_store_hit sm l kr a kf :
  sm_top sm !! kf = Some l → l < length (sm_subs sm) →
  sm_lookup (sm_store_at sm l kr a) kf kr = Some a.
Proof.
  intros Ht Hl. unfold sm_lookup, sm_sub, sm_store_at. simpl. rewrite Ht. simpl.
  rewrite list_lookup_alter_eq.
  destruct (lookup_lt_is_Some_2 _ _ Hl) as [sub Hsub]. rewrite Hsub. simpl.
  apply lookup_insert_eq.
Qed.

Lemma sm_lookup_store_miss sm l kr a kf kr' :
  sm_top sm !! kf ≠ Some l ∨ kr' ≠ kr →
  sm_lookup (sm_store_at sm l kr a) kf kr' = sm_lookup sm kf kr'.
Proof.
  intros Hd. unfold sm_lookup, sm_sub, sm_store_at. simpl.
  destruct (sm_top sm !! kf) as [l'|] eqn:Ht; simpl; [|done].
  destruct (decide (l' = l)) as [->|Hne].
  - destruct Hd as [Hd|Hd]; [done|].
    rewrite list_lookup_alter_eq. destruct (sm_subs sm !! l); simpl; [|done].
    by rewrite lookup_insert_ne.
  - by rewrite list_lookup_alter_ne.
Qed.

Lemma sm_store_at_top sm l kr a : sm_top (sm_store_at sm l kr a) = sm_top sm.
Proof. done. Qed.

Lemma sm_store_at_length sm l kr a :
  length (sm_subs (sm_store_at sm l kr a)) = length (sm_subs sm).
Proof. simpl. apply length_alter. Qed.

(** Replacing a seed map by one that is again well formed. *)
Lemma inv_upd_seed_map k sm' st :
  inv st → alias_ok sm' → range_ok sm' →
  (∀ F R a, sm_lookup sm' (KSet F) (KSet R) = Some a →
            bits a = spec_relevance (table_len k st) (get_single k st).1
                                    (get_single k st).2 F R) →
  keeps st (upd_seed_map k sm' st).
Proof.
  intros Hi Ha Hr Hm.
  assert (Ht : ∀ k', table k' (upd_seed_map k sm' st) = table k' st)
    by (by destruct k; intros []).
  assert (Hg : ∀ k', get_single k' (upd_seed_map k sm' st) = get_single k' st)
    by (by destruct k; intros []).
  assert (Hl : ∀ k', table_len k' (upd_seed_map k sm' st) = table_len k' st).
  { intros k'. unfold table_len. by rewrite Ht. }
  split; [|destruct k; solve_frozen].
  split; [|destruct k; solve_frozen].
  destruct Hi. constructor.
  - by destruct k.
  - intros k'. by rewrite Ht.
  - intros k' d s a. rewrite Hg, Hl. apply inv_len0.
  - intros k' d s. rewrite Hg.
    replace (_all_seed_vars (upd_seed_map k sm' st)) with (_all_seed_vars st)
      by by destruct k.
    apply inv_dom0.
  - intros k' F R a. rewrite get_upd_seed_map, Hg, Hl.
    case_decide as Hk; [subst k'; apply Hm|apply inv_map0].
  - intros k'. rewrite get_upd_seed_map. case_decide; [done|apply inv_alias0].
  - intros k'. rewrite get_upd_seed_map. case_decide; [done|apply inv_range0].
Qed.

Lemma frozen_single st st' k : frozen st st' → get_single k st' = get_single k st.
Proof. intros []. by destruct k. Qed.

Lemma frozen_table st st' k : frozen st st' → table k st' = table k st.
Proof. intros []. by destruct k. Qed.

Lemma frozen_table_len st st' k : frozen st st' → table_len k st' = table_len k st.
Proof. intros Hf. unfold table_len. by rewrite (frozen_table _ _ _ Hf). Qed.

Lemma get_rel_array_gen k kf kr st (P : ndarray → Prop) (E : Relevance → Prop) :
  inv st →
  (∀ a, sm_lookup (get_seed_map k st) kf kr = Some a → P a) →
  post (_combine_relevance (get_single k st).1 kf (get_single k st).2 kr) st
       (λ a st', keeps st st' ∧ P a) E →
  (∀ a R, P a → kr = KSet R →
          bits a = spec_relevance (table_len k st) (get_single k st).1
                                  (get_single k st).2 (key_set kf) R) →
  post (_get_rel_array k kf kr) st
       (λ a st', keeps st st' ∧ P a ∧
                 sm_lookup (get_seed_map k st') kf kr = Some a)
       E.
Proof.
  intros Hi Hhit Hcomb Hspec. unfold _get_rel_array.
  apply post_bind, post_gets.
  destruct (sm_lookup (get_seed_map k st) kf kr) as [a|] eqn:Hlook.
  { apply post_ret. split; [by apply keeps_refl|]. split; [by apply Hhit|done]. }
  apply post_bind, post_gets. apply post_bind.
  eapply post_mono; [exact Hcomb| |done].
  simpl. intros relarr st1 [Hk1 HP].
  apply post_bind, post_gets.
  pose proof (keeps_inv _ _ Hk1) as Hi1. pose proof (keeps_frozen _ _ Hk1) as Hf1.
  assert (Hspec1 : ∀ R, kr = KSet R →
            bits relarr = spec_relevance (table_len k st1) (get_single k st1).1
                                         (get_single k st1).2 (key_set kf) R).
  { intros R HR. rewrite (frozen_table_len _ _ _ Hf1), (frozen_single _ _ _ Hf1).
    by apply Hspec. }
  destruct (sm_top (get_seed_map k st1) !! kf) as [l|] eqn:Htop.
  - apply post_bind, post_ret. apply post_bind, post_modify. apply post_ret.
    pose proof (inv_range _ Hi1 k _ _ Htop) as Hl.
    assert (Hk2 : keeps st1 (upd_seed_map k
                     (sm_store_at (get_seed_map k st1) l kr relarr) st1)).
    { apply inv_upd_seed_map; [done|..].
      - intros K K' l'. rewrite !sm_store_at_top. apply (inv_alias _ Hi1).
      - intros K l'. rewrite sm_store_at_top, sm_store_at_length.
        apply (inv_range _ Hi1).
      - intros F R a.
        destruct (decide (sm_top (get_seed_map k st1) !! KSet F = Some l
                          ∧ KSet R = kr)) as [[HF HR]|Hn].
        + subst kr. rewrite (sm_lookup_store_hit _ _ _ _ _ HF Hl).
          intros [= <-].
          rewrite (Hspec1 R eq_refl).
          by rewrite <- (inv_alias _ Hi1 k _ _ _ HF Htop).
        + rewrite sm_lookup_store_miss.
          * apply (inv_map _ Hi1).
          * destruct (decide (sm_top (get_seed_map k st1) !! KSet F = Some l));
              [right|by left]. intros Heq. apply Hn. done. }
    split; [by eapply keeps_trans|]. split; [done|].
    rewrite get_upd_seed_map, decide_True by done.
    by apply sm_lookup_store_hit.
  - unfold sm_new_sub. simpl.
    apply post_bind, post_bind, post_modify, post_ret.
    apply post_bind, post_modify, post_ret.
    set (sm := get_seed_map k st1) in *.
    set (l := length (sm_subs sm)).
    set (sm1 := mk_seed_map (<[kf := l]> (sm_top sm)) (sm_subs sm ++ [∅])).
    assert (Hfresh : ∀ K, sm_top sm !! K ≠ Some l).
    { intros K HK. apply (inv_range _ Hi1 k) in HK. unfold l in HK. fold sm in HK. lia. }
    assert (Hsub1 : ∀ K, sm_top sm !! K ≠ None → sm_sub sm1 K = sm_sub sm K).
    { intros K HK. unfold sm_sub. simpl. rewrite lookup_insert_ne by congruence.
      destruct (sm_top sm !! K) as [l'|] eqn:HK'; [|done]. simpl.
      apply lookup_app_l. by apply (inv_range _ Hi1 k _ _ HK'). }
    assert (Hk1' : keeps st1 (upd_seed_map k sm1 st1)).
    { apply inv_upd_seed_map; [done|..].
      - intros K K' l'. simpl. rewrite !lookup_insert.
        repeat case_decide; subst; try done.
        + intros [= <-] HK'. by apply Hfresh in HK'.
        + intros HK [= <-]. by apply Hfresh in HK.
        + apply (inv_alias _ Hi1 k).
      - intros K l'. simpl. rewrite lookup_insert, length_app. simpl.
        case_decide; [intros [= <-]; unfold l; lia|].
        intros HK. apply (inv_range _ Hi1 k) in HK. fold sm in HK. lia.
      - intros F R a. unfold sm_lookup.
        destruct (decide (kf = KSet F)) as [->|Hne].
        + unfold sm_sub. simpl. rewrite lookup_insert_eq. simpl.
          rewrite lookup_app_r by done. unfold l. rewrite Nat.sub_diag. simpl.
          by rewrite lookup_empty.
        + destruct (sm_top sm !! KSet F) as [l'|] eqn:HK.
          * rewrite Hsub1 by congruence. apply (inv_map _ Hi1).
          * unfold sm_sub. simpl. rewrite lookup_insert_ne by done.
            by rewrite HK. }
    simpl. rewrite get_upd_seed_map, decide_True by done.
    pose proof (keeps_inv _ _ Hk1') as Hi1'. pose proof (keeps_frozen _ _ Hk1') as Hf1'.
    assert (Htop1 : sm_top sm1 !! kf = Some l) by apply lookup_insert_eq.
    assert (Hl1 : l < length (sm_subs sm1)).
    { simpl. rewrite length_app. simpl. unfold l. lia. }
    assert (Hk2 : keeps (upd_seed_map k sm1 st1)
                    (upd_seed_map k (sm_store_at sm1 l kr relarr)
                                  (upd_seed_map k sm1 st1))).
    { apply inv_upd_seed_map; [done|..].
      - intros K K' l'. rewrite !sm_store_at_top.
        pose proof (inv_alias _ Hi1' k) as Ha.
        rewrite get_upd_seed_map, decide_True in Ha by done. apply Ha.
      - intros K l'. rewrite sm_store_at_top, sm_store_at_length.
        pose proof (inv_range _ Hi1' k) as Hr.
        rewrite get_upd_seed_map, decide_True in Hr by done. apply Hr.
      - intros F R a.
        pose proof (inv_alias _ Hi1' k) as Ha.
        rewrite get_upd_seed_map, decide_True in Ha by done.
        pose proof (inv_map _ Hi1' k) as Hm.
        rewrite get_upd_seed_map, decide_True in Hm by done.
        destruct (decide (sm_top sm1 !! KSet F = Some l ∧ KSet R = kr))
          as [[HF HR]|Hn].
        + subst kr. rewrite (sm_lookup_store_hit _ _ _ _ _ HF Hl1).
          intros [= <-].
          rewrite (frozen_table_len _ _ _ Hf1'), (frozen_single _ _ _ Hf1').
          rewrite (Hspec1 R eq_refl).
          by rewrite <- (Ha _ _ _ HF Htop1).
        + rewrite sm_lookup_store_miss; [apply Hm|].
          destruct (decide (sm_top sm1 !! KSet F = Some l));
            [right|by left]. intros Heq. apply Hn. done. }
    split; [eapply keeps_trans; [exact Hk1|]; by eapply keeps_trans|].
    split; [done|].
    assert (Heq : upd_seed_map k (sm_store_at sm1 l kr relarr) st1
                  = upd_seed_map k (sm_store_at sm1 l kr relarr)
                                 (upd_seed_map k sm1 st1)) by by destruct k.
    rewrite get_upd_seed_map, decide_True by done.
    by apply sm_lookup_store_hit.
Qed.

(** Whatever the keys, a union or a combination only allocates arrays and
    fills the cache. *)
Lemma union_keeps m key st :
  inv st → post (_union_arrays m key) st (λ _, keeps st) (keeps st).
Proof.
  intros Hi. unfold _union_arrays.
  destruct (negb (key_truthy key)).
  { eapply post_mono; [by apply new_array_post|by intros ?? []|done]. }
  destruct (key_iter key) as [|s0 rest]; [by apply post_raise, keeps_refl|].
  apply post_bind, post_lift_opt; [|by apply keeps_refl].
  intros arr _. apply post_bind.
  eapply post_mono; [by apply new_array_post| |done].
  intros array st1 [Hk1 _]. simpl.
  apply (post_foldM _ (λ _, keeps st)); [done|].
  intros acc x st' _ Hk.
  apply post_bind, post_lift_opt; [|done]. intros arr' _.
  apply post_bind, post_lift; [|done]. intros b _. by apply post_ret.
Qed.

Lemma combine_keeps fm kf rm kr st :
  inv st →
  post (_combine_relevance fm kf rm kr) st (λ _, keeps st) (keeps st).
Proof.
  intros Hi. unfold _combine_relevance.
  apply post_bind.
  eapply post_mono; [by apply union_keeps| |done].
  intros fa st1 Hk1. simpl. apply post_bind.
  eapply post_mono; [apply union_keeps, Hk1| |intros ?; by apply keeps_trans].
  intros ra st2 Hk2. simpl.
  assert (Hk02 : keeps st st2) by by apply (keeps_trans _ st1).
  apply post_bind, post_lift; [|done]. intros b _.
  eapply post_mono; [apply get_cached_post, Hk02| |done].
  simpl. intros c st3 [Hk3 _]. by apply (keeps_trans _ st2).
Qed.

Lemma get_rel_array_str k kf r st :
  inv st →
  post (_get_rel_array k kf (KStr r)) st (λ _, keeps st) (keeps st).
Proof.
  intros Hi.
  eapply post_mono;
    [apply (get_rel_array_gen k kf (KStr r) st (λ _, True) (keeps st));
     [done|done|..]
    |by intros ?? (? & _)|done].
  - eapply post_mono; [by apply combine_keeps|done|done].
  - done.
Qed.

Lemma get_rel_array_set k (F R : gset string) st :
  inv st → F ≠ ∅ → R ≠ ∅ →
  post (_get_rel_array k (KSet F) (KSet R)) st
       (λ a st', keeps st st' ∧
                 bits a = spec_relevance (table_len k st) (get_single k st).1
                                         (get_single k st).2 F R)
       (keeps st).
Proof.
  intros Hi HF HR.
  eapply post_mono;
    [apply (get_rel_array_gen k (KSet F) (KSet R) st
              (λ a, bits a = spec_relevance (table_len k st) (get_single k st).1
                                            (get_single k st).2 F R)
              (keeps st));
     [done|..]
    |by intros ?? (? & ? & _)|done].
  - apply (inv_map _ Hi).
  - eapply post_mono; [by apply combine_post| |done].
    simpl. by intros a st' (? & _ & _ & ?).
  - intros a R' Ha [= <-]. done.
Qed.

(** [_get_rel_array] succeeds on seed sets whose seeds are known. *)
Lemma union_ok (m : list (string * ndarray)) (seeds : gset string) st n :
  (∀ s a, OD.get m s = Some a → length (bits a) = n) →
  seeds ≠ ∅ → (∀ s, s ∈ seeds → is_Some (OD.get m s)) →
  is_ok (_union_arrays m (KSet seeds) st).1 = true.
Proof.
  intros Hlen HS Hdom. unfold _union_arrays. simpl.
  rewrite bool_decide_false by done. simpl.
  destruct (elements seeds) as [|s0 rest] eqn:Hel.
  { apply elements_empty_inv in Hel. by apply leibniz_equiv in Hel. }
  assert (Hin : ∀ s, s ∈ s0 :: rest → is_Some (OD.get m s)).
  { intros s Hs. apply Hdom. by rewrite <- elem_of_elements, Hel. }
  rewrite bind_run.
  destruct (Hin s0) as [arr Harr]; [by left|]. unfold lift_opt, lift.
  rewrite Harr. simpl. rewrite bind_run. unfold new_array.
  assert (Hrest : ∀ s, s ∈ rest → is_Some (OD.get m s)).
  { intros s Hs. apply Hin. by right. }
  assert (Hl0 : length (bits (mk_ndarray (next_oid st) (bits arr))) = n)
    by (simpl; eauto).
  revert Hl0. generalize (mk_ndarray (next_oid st) (bits arr)).
  generalize (upd_next_oid (S (next_oid st)) st).
  clear Harr Hin Hel. induction rest as [|x rest IH]; intros st' acc Hacc;
    [done|].
  simpl. rewrite bind_run, bind_run.
  destruct (Hrest x) as [arr' Harr']; [by left|]. rewrite Harr'. simpl.
  rewrite bind_run. unfold lift.
  rewrite inplace_same_length by (rewrite Hacc; symmetry; eauto).
  simpl. apply IH.
  - intros s Hs. apply Hrest. by right.
  - simpl. rewrite length_zip_with. rewrite Hacc, (Hlen _ _ Harr'). lia.
Qed.

Lemma post_ok {A} (m : M A) st (Q : A → Relevance → Prop) (E : Relevance → Prop) :
  post m st Q E → is_ok (m st).1 = true → post m st Q (λ _, False).
Proof. unfold post. by destruct (m st) as [[a|e] st']. Qed.

Lemma post_lift_ok {A} (r : result A) a st (Q : A → Relevance → Prop)
    (E : Relevance → Prop) :
  r = Ok a → Q a st → post (lift r) st Q E.
Proof. by intros ->. Qed.

(** With known seeds the combination is computed and is the AND of the two
    unions. *)
Lemma combine_total k (F R : gset string) st :
  inv st → F ≠ ∅ → R ≠ ∅ →
  (∀ s, s ∈ F → is_Some (OD.get (get_single k st).1 s)) →
  (∀ s, s ∈ R → is_Some (OD.get (get_single k st).2 s)) →
  post (_combine_relevance (get_single k st).1 (KSet F)
                           (get_single k st).2 (KSet R)) st
       (λ a st', keeps st st' ∧
                 bits a = spec_relevance (table_len k st) (get_single k st).1
                                         (get_single k st).2 F R)
       (λ _, False).
Proof.
  intros Hi HF HR HdF HdR. unfold _combine_relevance.
  assert (HlF := inv_len _ Hi k fwd). assert (HlR := inv_len _ Hi k rev).
  simpl in HlF, HlR.
  apply post_bind.
  eapply post_mono;
    [eapply post_ok;
     [by apply (union_post _ F st (table_len k st))
     |by apply (union_ok _ F st (table_len k st))]| |done].
  intros fa st1 (Hk1 & _ & Hfa). simpl.
  apply post_bind.
  eapply post_mono;
    [eapply post_ok;
     [apply (union_post _ R st1 (table_len k st));
      [by eapply keeps_inv|done|done]
     |by apply (union_ok _ R st1 (table_len k st))]| |done].
  intros ra st2 (Hk2 & _ & Hra). simpl.
  assert (Hk02 : keeps st st2) by by apply (keeps_trans _ st1).
  apply post_bind. eapply post_lift_ok.
  { apply inplace_same_length.
    by rewrite Hfa, Hra, !length_map, !length_seq. }
  eapply post_mono; [eapply get_cached_post, keeps_inv, Hk02| |done].
  simpl. intros c st3 [Hk3 Hc]. split; [by apply (keeps_trans _ st2)|].
  by rewrite Hc, Hfa, Hra, zip_with_map_seq.
Qed.

Lemma get_rel_array_total k (F R : gset string) st :
  inv st → F ≠ ∅ → R ≠ ∅ →
  F ⊆ (_all_seed_vars st).1 → R ⊆ (_all_seed_vars st).2 →
  post (_get_rel_array k (KSet F) (KSet R)) st
       (λ a st', keeps st st' ∧
                 bits a = spec_relevance (table_len k st) (get_single k st).1
                                         (get_single k st).2 F R)
       (λ _, False).
Proof.
  intros Hi HF HR HsF HsR.
  eapply post_mono;
    [apply (get_rel_array_gen k (KSet F) (KSet R) st
              (λ a, bits a = spec_relevance (table_len k st) (get_single k st).1
                                            (get_single k st).2 F R)
              (λ _, False));
     [done|..]
    |by intros ?? (? & ? & _)|done].
  - apply (inv_map _ Hi).
  - apply combine_total; [done..| |].
    + intros s Hs. apply (inv_dom _ Hi k fwd). by apply HsF.
    + intros s Hs. apply (inv_dom _ Hi k rev). by apply HsR.
  - intros a R' Ha [= <-]. done.
Qed.

(** [_set_seeds] on known, non-empty seed sets installs the two combined
    arrays. *)
Lemma set_seeds_total (F R : gset string) st :
  inv st → F ≠ ∅ → R ≠ ∅ →
  F ⊆ (_all_seed_vars st).1 → R ⊆ (_all_seed_vars st).2 →
  ∃ st' va sa,
    _set_seeds F R st = (Ok tt, st') ∧
    steady st st' ∧
    _active st' = _active st ∧
    _seed_vars st' = (F, R) ∧
    _current_rel_varray st' = Some va ∧
    _current_rel_sarray st' = Some sa ∧
    (∀ k a, current k st' = Some a →
            bits a = spec_relevance (table_len k st) (get_single k st).1
                                    (get_single k st).2 F R).
Proof.
  intros Hi HF HR HsF HsR. unfold _set_seeds.
  rewrite bind_run. simpl.
  rewrite !bool_decide_false by done. simpl.
  set (st0 := upd_seed_vars (F, R) st).
  assert (Hs0 : steady st st0) by by apply steady_upd_seed_vars.
  pose proof (get_rel_array_total Var F R st0 (proj1 Hs0) HF HR HsF HsR) as Hv.
  unfold post in Hv. rewrite bind_run.
  destruct (_get_rel_array Var (KSet F) (KSet R) st0) as [[va|e] st1]; [|done].
  destruct Hv as [Hk1 Hva]. rewrite bind_run. simpl.
  set (st2 := upd_current_rel_varray (Some va) st1).
  assert (Hs2 : steady st1 st2)
    by by apply steady_upd_current_rel_varray, (keeps_inv st0).
  assert (Hall2 : _all_seed_vars st2 = _all_seed_vars st).
  { destruct Hs2 as [_ []], Hk1 as [[_ []] _]. simpl in *. congruence. }
  pose proof (get_rel_array_total Sys F R st2 (proj1 Hs2) HF HR) as Hs.
  rewrite Hall2 in Hs. specialize (Hs HsF HsR).
  unfold post in Hs. rewrite bind_run.
  destruct (_get_rel_array Sys (KSet F) (KSet R) st2) as [[sa|e] st3]; [|done].
  destruct Hs as [Hk3 Hsa]. simpl.
  exists (upd_current_rel_sarray (Some sa) st3), va, sa.
  assert (Hs4 : steady st3 (upd_current_rel_sarray (Some sa) st3))
    by by apply steady_upd_current_rel_sarray, (keeps_inv st2).
  assert (Hst : steady st (upd_current_rel_sarray (Some sa) st3)).
  { apply (steady_trans _ st0); [done|]. apply (steady_trans _ st1); [apply Hk1|].
    apply (steady_trans _ st2); [done|]. apply (steady_trans _ st3); [apply Hk3|done]. }
  destruct Hk1 as [[_ Hf1] Hq1], Hk3 as [[_ Hf3] Hq3].
  split; [done|]. split; [done|].
  split. { simpl. rewrite (q_active _ _ Hq3). simpl. by rewrite (q_active _ _ Hq1). }
  split. { simpl. rewrite (q_seed_vars _ _ Hq3). simpl. by rewrite (q_seed_vars _ _ Hq1). }
  split. { simpl. by rewrite (q_varray _ _ Hq3). }
  split; [done|].
  intros [] a; simpl.
  - rewrite (q_varray _ _ Hq3). simpl. intros [= <-]. rewrite Hva. done.
  - intros [= <-]. rewrite Hsa.
    assert (Hf02 : frozen st st2).
    { apply (frozen_trans _ st0); [apply Hs0|].
      apply (frozen_trans _ st1); [done|apply Hs2]. }
    by rewrite (frozen_table_len _ _ Sys Hf02), (frozen_single _ _ Sys Hf02).
Qed.

(** *** Client code keeps the invariants *)

Lemma post_state {A} (m : M A) st (P : Relevance → Prop) :
  post m st (λ _, P) P ↔ P (m st).2.
Proof. unfold post. by destruct (m st) as [[a|e] st']. Qed.

Lemma keeps_steady st st' : keeps st st' → steady st st'.
Proof. by intros [? _]. Qed.

Lemma set_seeds_steady (F R : gset string) st :
  inv st → post (_set_seeds F R) st (λ _, steady st) (steady st).
Proof.
  intros Hi. unfold _set_seeds.
  apply post_bind, post_modify.
  set (st0 := upd_seed_vars (F, R) st).
  assert (Hs0 : steady st st0) by by apply steady_upd_seed_vars.
  simpl. destruct (decide (F = ∅)) as [->|HF].
  { rewrite bool_decide_true by done. simpl. by apply post_ret. }
  destruct (decide (R = ∅)) as [->|HR].
  { rewrite (bool_decide_true (∅ = ∅)) by done. rewrite andb_false_r.
    by apply post_ret. }
  rewrite !bool_decide_false by done. simpl.
  apply post_bind.
  eapply post_mono; [apply (get_rel_array_set Var F R st0); [apply Hs0|done..]| |].
  2:{ intros st' Hk. apply (steady_trans _ st0); [done|apply Hk]. }
  simpl. intros va st1 [Hk1 _].
  apply post_bind, post_modify.
  set (st2 := upd_current_rel_varray (Some va) st1).
  assert (Hs2 : steady st1 st2)
    by by apply steady_upd_current_rel_varray, (keeps_inv st0).
  assert (Hs02 : steady st st2).
  { apply (steady_trans _ st0); [done|].
    apply (steady_trans _ st1); [apply Hk1|done]. }
  apply post_bind.
  eapply post_mono; [apply (get_rel_array_set Sys F R st2); [apply Hs2|done..]| |].
  2:{ intros st' Hk. apply (steady_trans _ st2); [done|apply Hk]. }
  simpl. intros sa st3 [Hk3 _]. apply post_modify.
  apply (steady_trans _ st2); [done|].
  apply (steady_trans _ st3); [apply Hk3|].
  by apply steady_upd_current_rel_sarray, (keeps_inv st2).
Qed.

Section scopes_steady.
Context {A : Type} (body : M A).
Context (Hbody : ∀ st, inv st → steady st (body st).2).

Lemma finally_steady (cleanup : Relevance → Relevance) st :
  inv st → (∀ st', inv st' → steady st' (cleanup st')) →
  steady st (finally body cleanup st).2.
Proof.
  intros Hi Hc. unfold finally. specialize (Hbody st Hi).
  destruct (body st) as [r st']. simpl in *.
  apply (steady_trans _ st'); [done|]. apply Hc, Hbody.
Qed.

Lemma active_steady b st : inv st → steady st (active b body st).2.
Proof.
  intros Hi. unfold active. destruct (negb (truthy (_active st))); [by apply Hbody|].
  apply (steady_trans _ (upd_active (Some b) st)); [by apply steady_upd_active|].
  apply finally_steady; [by apply steady_upd_active|].
  intros st' Hi'. by apply steady_upd_active.
Qed.

Lemma restore_steady save save_active st :
  inv st → steady st (upd_active save_active (upd_seed_vars save st)).
Proof.
  intros Hi. apply (steady_trans _ (upd_seed_vars save st)).
  - by apply steady_upd_seed_vars.
  - by apply steady_upd_active, steady_upd_seed_vars.
Qed.

Lemma set_then_body_steady (F R : gset string) save save_active st :
  inv st →
  steady st ((_set_seeds F R;;
              finally body (λ st, upd_active save_active (upd_seed_vars save st)))
               st).2.
Proof.
  intros Hi. apply post_state. apply post_bind.
  eapply post_mono; [by apply set_seeds_steady| |done].
  simpl. intros _ st1 Hs1. apply post_state.
  apply (steady_trans _ st1); [done|].
  apply finally_steady; [apply Hs1|]. intros st' Hi'. by apply restore_steady.
Qed.

Lemma seeds_active_steady fs rs st :
  inv st → steady st (seeds_active fs rs body st).2.
Proof.
  intros Hi. unfold seeds_active.
  destruct (bool_decide (_active st = Some false)); [by apply Hbody|].
  apply (steady_trans _ (upd_active (Some true) st)); [by apply steady_upd_active|].
  apply set_then_body_steady. by apply steady_upd_active.
Qed.

Lemma all_seeds_active_steady st :
  inv st → steady st (all_seeds_active body st).2.
Proof.
  intros Hi. unfold all_seeds_active.
  destruct (bool_decide (_active st = Some false)); [by apply Hbody|].
  apply (steady_trans _ (upd_active (Some true) st)); [by apply steady_upd_active|].
  apply set_then_body_steady. by apply steady_upd_active.
Qed.

Lemma activate_nonlinear_steady name a st :
  inv st → steady st (activate_nonlinear name a body st).2.
Proof.
  intros Hi. unfold activate_nonlinear.
  destruct (_nonlinear_sets st) as [sets|].
  - destruct (sets !! name) as [arr|]; [|by apply Hbody].
    destruct (negb a || bool_decide (_active st = Some false)); [by apply Hbody|].
    set (st1 := upd_active (Some true) st).
    assert (Hs1 : steady st st1) by by apply steady_upd_active.
    set (st2 := upd_current_rel_sarray (Some arr) st1).
    assert (Hs2 : steady st1 st2)
      by by apply steady_upd_current_rel_sarray, Hs1.
    apply (steady_trans _ st1); [done|]. apply (steady_trans _ st2); [done|].
    apply finally_steady; [apply Hs2|].
    intros st' Hi'. by apply steady_upd_active.
  - destruct (negb a || bool_decide (_active st = Some false)); [by apply Hbody|].
    by apply steady_refl.
Qed.

End scopes_steady.

Lemma is_relevant_state name st : (is_relevant name st).2 = st.
Proof. unfold is_relevant. by destruct (negb (truthy (_active st))). Qed.

Lemma is_relevant_system_state name st : (is_relevant_system name st).2 = st.
Proof. unfold is_relevant_system. by destruct (negb (truthy (_active st))). Qed.

Lemma filter_systems_state systems relevant st :
  (filter_systems systems relevant st).2 = st.
Proof.
  unfold filter_systems. destruct (truthy (_active st)).
  2:{ by destruct relevant. }
  set (f := λ (acc : list string) (s : string),
              r ← is_relevant_system s;
              mret (if bool_decide (relevant = r) then acc ++ [s] else acc)).
  change (foldM _ [] systems st) with (foldM f [] systems st).
  generalize (@nil string). induction systems as [|s l IH]; intros acc; [done|].
  simpl. rewrite bind_run. unfold f at 1. rewrite bind_run.
  pose proof (is_relevant_system_state s st) as Hs.
  destruct (is_relevant_system s st) as [[b|e] st']; simpl in Hs; subst st';
    [|done].
  simpl. apply IH.
Qed.

Lemma list_relevance_state relevant type st :
  (list_relevance relevant type st).2 = st.
Proof. done. Qed.

Lemma iter_seed_pair_relevance_keeps fs rs inputs outputs st :
  inv st →
  post (iter_seed_pair_relevance fs rs inputs outputs) st
       (λ _, keeps st) (keeps st).
Proof.
  intros Hi. unfold iter_seed_pair_relevance.
  assert (Hmain : ∀ filt,
    post (fs0 ← gets (λ st, match fs with
                            | None => elements (_seed_vars st).1
                            | Some l => l
                            end);
          rs0 ← gets (λ st, match rs with
                            | None => elements (_seed_vars st).2
                            | Some l => l
                            end);
          foldM (λ acc seed,
            foldM (λ acc rseed,
              inter ← _get_rel_array Var (KStr seed) (KStr rseed);
              if np_any (bits inter) then
                var2idx ← (st ← gets _var2idx; lift_opt AttributeError st);
                g ← gets _graph;
                s ← lift (_apply_node_filter g
                            (_rel_names_iter (bits inter) var2idx true) filt);
                mret (acc ++ [(seed, rseed, s)])
              else mret acc)
            acc rs0)
          [] fs0) st (λ _, keeps st) (keeps st)).
  { intros filt. apply post_bind, post_gets. apply post_bind, post_gets.
    apply (post_foldM _ (λ _, keeps st)); [by apply keeps_refl|].
    intros acc seed st1 _ Hk1.
    apply (post_foldM _ (λ _, keeps st)); [done|].
    intros acc' rseed st2 _ Hk2.
    apply post_bind.
    eapply post_mono; [eapply get_rel_array_str, keeps_inv, Hk2| |].
    2:{ intros st'. by apply keeps_trans. }
    simpl. intros inter st3 Hk3.
    assert (Hk03 : keeps st st3) by by apply (keeps_trans _ st2).
    destruct (np_any (bits inter)); [|by apply post_ret].
    apply post_bind, post_bind, post_gets, post_lift_opt; [|done].
    intros var2idx _. apply post_bind, post_gets.
    apply post_bind, post_lift; [|done]. intros s _. by apply post_ret. }
  destruct (_get_io_filter inputs outputs); try apply Hmain.
  by apply post_ret, keeps_refl.
Qed.

Lemma of_query_state {A} (r : result A * Relevance) log :
  (of_query r log).2 = r.2.
Proof. by destruct r as [[a|e] st]. Qed.

Lemma of_scope_state (r : result outcome * Relevance) : (of_scope r).2 = r.2.
Proof. by destruct r as [[a|e] st]. Qed.

Lemma as_body_state (run : Relevance → outcome * Relevance) st :
  (as_body run st).2 = (run st).2.
Proof. unfold as_body. by destruct (run st). Qed.

Lemma exec_steady c : ∀ st, inv st → steady st (exec c st).2.
Proof.
  induction c; intros st Hi; cbn [exec].
  - by apply steady_refl.
  - specialize (IHc1 st Hi). destruct (exec c1 st) as [[[[]|e] l1] st1]; [|done].
    specialize (IHc2 st1 (proj1 IHc1)).
    destruct (exec c2 st1) as [[r l2] st2]. simpl in *.
    by apply (steady_trans _ st1).
  - by apply steady_refl.
  - specialize (IHc st Hi). by destruct (exec c st) as [[r l] st'].
  - rewrite of_query_state, is_relevant_state. by apply steady_refl.
  - rewrite of_query_state, is_relevant_system_state. by apply steady_refl.
  - rewrite of_query_state, filter_systems_state. by apply steady_refl.
  - rewrite of_query_state, list_relevance_state. by apply steady_refl.
  - rewrite of_query_state.
    apply keeps_steady, post_state. by apply iter_seed_pair_relevance_keeps.
  - rewrite of_scope_state. apply active_steady; [|done].
    intros st1 Hi1. rewrite as_body_state. by apply IHc.
  - rewrite of_scope_state. apply seeds_active_steady; [|done].
    intros st1 Hi1. rewrite as_body_state. by apply IHc.
  - rewrite of_scope_state. apply all_seeds_active_steady; [|done].
    intros st1 Hi1. rewrite as_body_state. by apply IHc.
  - rewrite of_scope_state. apply activate_nonlinear_steady; [|done].
    intros st1 Hi1. rewrite as_body_state. by apply IHc.
Qed.

(** *** Construction establishes the invariants *)

Lemma only_cache_refl st : only_cache st st.
Proof. unfold only_cache. split; [by destruct st|done]. Qed.

Lemma only_cache_trans st1 st2 st3 :
  only_cache st1 st2 → only_cache st2 st3 → only_cache st1 st3.
Proof.
  unfold only_cache. intros [H1 Hc1] [H2 Hc2]. split; [|by etrans].
  rewrite H2 at 1. rewrite H1 at 1. by destruct st1.
Qed.

Lemma only_cache_fields st st' :
  only_cache st st' →
  _active st' = _active st ∧ _graph st' = _graph st ∧
  _no_dv_responses st' = _no_dv_responses st ∧
  _seed_vars st' = _seed_vars st ∧ _all_seed_vars st' = _all_seed_vars st ∧
  _seed_var_map st' = _seed_var_map st ∧ _seed_sys_map st' = _seed_sys_map st ∧
  _single_seed2relvars st' = _single_seed2relvars st ∧
  _single_seed2relsys st' = _single_seed2relsys st ∧
  _all_systems st' = _all_systems st ∧ _sys2idx st' = _sys2idx st ∧
  _var2idx st' = _var2idx st ∧ _nonlinear_sets st' = _nonlinear_sets st ∧
  _current_rel_varray st' = _current_rel_varray st ∧
  _current_rel_sarray st' = _current_rel_sarray st.
Proof. unfold only_cache. intros [-> _]. by repeat split. Qed.

Lemma get_cached_weak arr st :
  cache_ok st →
  post (_get_cached_array arr) st
       (λ c st', cache_ok st' ∧ only_cache st st' ∧ bits c = bits arr)
       (λ _, False).
Proof.
  intros Hc. unfold post, _get_cached_array.
  destruct (_rel_array_cache st !! array_hash (bits arr)) as [c|] eqn:Hl.
  - split; [done|]. split; [apply only_cache_refl|].
    apply hash_inj. by apply Hc.
  - split; [|split; [|done]].
    + intros h a. simpl. rewrite lookup_insert.
      case_decide; [by intros [= <-]|apply Hc].
    + unfold only_cache. split; [by destruct st|].
      simpl. by apply insert_subseteq.
Qed.

Lemma new_array_weak b st :
  cache_ok st →
  post (new_array b) st
       (λ a st', cache_ok st' ∧ only_cache st st' ∧ bits a = b) (λ _, False).
Proof.
  intros Hc. unfold post, new_array. split; [done|]. split; [|done].
  unfold only_cache. split; [by destruct st|done].
Qed.

Lemma set_true_length a idxs : length (set_true a idxs) = length a.
Proof.
  unfold set_true. revert a. induction idxs as [|i l IH]; intros a; [done|].
  simpl. by rewrite IH, length_insert.
Qed.

Lemma true_at_length idx names a b :
  true_at idx names a = Ok b → length b = length a.
Proof.
  unfold true_at. destruct (mapR _ names) as [idxs|]; simpl; [|done].
  destruct (forallb _ idxs); [|done]. intros [= <-]. apply set_true_length.
Qed.

Lemma names2rel_weak names n idx st :
  cache_ok st →
  post (_names2rel_array names n idx) st
       (λ a st', cache_ok st' ∧ only_cache st st' ∧ length (bits a) = n)
       (λ st', cache_ok st' ∧ only_cache st st').
Proof.
  intros Hc. unfold _names2rel_array. apply post_bind.
  eapply post_mono; [by apply new_array_weak| |done].
  simpl. intros a st1 (Hc1 & Ho1 & Ha).
  apply post_bind, post_lift; [|done].
  intros b Hb. eapply post_mono; [by apply get_cached_weak| |done].
  simpl. intros c st2 (Hc2 & Ho2 & Hbits).
  split; [done|]. split; [by eapply only_cache_trans|].
  rewrite Hbits. simpl. apply true_at_length in Hb. rewrite Hb, Ha.
  unfold np_zeros. apply length_replicate.
Qed.

Lemma phase1_ext A D D' st :
  (∀ k d s, s ∈ D k d ↔ s ∈ D' k d) → phase1 A D st → phase1 A D' st.
Proof.
  intros HD []. constructor; try done.
  intros k d s. rewrite <- HD. apply p1_dom0.
Qed.

Lemma phase1_only_cache A D st st' :
  phase1 A D st → only_cache st st' → cache_ok st' → phase1 A D st'.
Proof.
  intros [] Ho Hc.
  destruct (only_cache_fields _ _ Ho)
    as (_ & _ & _ & _ & Hall & Hvm & Hsm & Hsv & Hss & _ & Hsi & Hvi & _).
  assert (Ht : ∀ k, table k st' = table k st) by (by intros []).
  assert (Hg : ∀ k, get_single k st' = get_single k st) by (by intros []).
  assert (Hl : ∀ k, table_len k st' = table_len k st).
  { intros k. unfold table_len. by rewrite Ht. }
  constructor; try done; try congruence.
  - intros k. by rewrite Ht.
  - intros k d s a. rewrite Hg, Hl. apply p1_len0.
  - intros k d s. rewrite Hg. apply p1_dom0.
  - intros k d. rewrite Hg. apply p1_nodup0.
Qed.

Lemma get_upd_single k k' v st :
  get_single k' (upd_single k v st)
  = if decide (k' = k) then v else get_single k' st.
Proof. by destruct k, k'. Qed.

Lemma dir_get_set {A} (p : A * A) d a d' :
  dir_get (dir_set p d a) d' = if decide (d' = d) then a else dir_get p d'.
Proof. by destruct d, d', p. Qed.

Lemma phase1_set_single A D k io seed a st :
  phase1 A D st → length (bits a) = table_len k st →
  post (set_single k io seed a) st
       (λ _ st', phase1 A (with_seed D k io seed) st' ∧
                 _rel_array_cache st' = _rel_array_cache st ∧
                 (∀ k', table k' st' = table k' st))
       (λ _, False).
Proof.
  intros [] Hlen. unfold post, set_single, modify.
  set (st' := upd_single k _ st).
  assert (Ht : ∀ k', table k' st' = table k' st) by (by destruct k; intros []).
  assert (Hl : ∀ k', table_len k' st' = table_len k' st).
  { intros k'. unfold table_len. by rewrite Ht. }
  split; [|split; [by destruct k|done]].
  constructor.
  - by destruct k.
  - unfold cache_ok. by destruct k.
  - intros k'. by rewrite Ht.
  - intros k' d s b. unfold st'. rewrite get_upd_single, Hl.
    case_decide as Hk; [subst k'|apply p1_len0].
    rewrite dir_get_set. case_decide as Hd; [subst d|apply p1_len0].
    rewrite od_get_set. case_decide; [by intros [= <-]|apply p1_len0].
  - by destruct k.
  - by destruct k.
  - intros k' d s. unfold st', with_seed. rewrite get_upd_single.
    destruct (decide (k' = k)) as [->|Hk].
    + rewrite dir_get_set. destruct (decide (d = io)) as [->|Hd].
      * rewrite decide_True by done. rewrite od_get_set.
        case_decide as Hs; [subst s|].
        -- split; [|by eexists].
           intros _. by apply elem_of_union_l, elem_of_singleton.
        -- rewrite p1_dom0, elem_of_union, elem_of_singleton. tauto.
      * rewrite decide_False by (by intros [_ ?]). apply p1_dom0.
    + rewrite decide_False by (by intros [? _]). apply p1_dom0.
  - intros k' d. unfold st'. rewrite get_upd_single.
    case_decide as Hk; [subst k'|apply p1_nodup0].
    rewrite dir_get_set. case_decide as Hd; [subst d|apply p1_nodup0].
    apply od_nodup_set, p1_nodup0.
Qed.

Lemma dependent_nodes_state start d local_only st :
  post (dependent_nodes_M start d local_only) st
       (λ _ st', st' = st) (λ st', st' = st).
Proof.
  unfold dependent_nodes_M. apply post_bind, post_gets.
  destruct (_dependent_nodes _ _ _ _) as [r|]; [|done].
  by apply post_lift.
Qed.

Lemma single_seed_arrays_post nprocs m io all_systems all_vars st :
  cache_ok st →
  post (single_seed_arrays nprocs m io all_systems all_vars) st
       (λ r st', cache_ok st' ∧ only_cache st st' ∧ r.1.1.1 = source m ∧
                 length (bits r.1.2) = size all_vars ∧
                 length (bits r.2) = size all_systems)
       (λ _, True).
Proof.
  intros Hc. unfold single_seed_arrays. apply post_bind.
  eapply post_mono; [apply dependent_nodes_state| |done].
  simpl. intros depnodes ? ->.
  apply post_bind, post_bind, post_gets, post_lift_opt; [|done].
  intros var2idx _. apply post_bind.
  eapply post_mono; [by apply names2rel_weak| |done].
  simpl. intros va st1 (Hc1 & Ho1 & Hva).
  apply post_bind, post_bind, post_gets, post_lift_opt; [|done].
  intros sys2idx _. apply post_bind.
  eapply post_mono; [by apply names2rel_weak| |done].
  simpl. intros sa st2 (Hc2 & Ho2 & Hsa). apply post_ret. simpl.
  split; [done|]. split; [by eapply only_cache_trans|done].
Qed.

Lemma only_cache_table st st' k : only_cache st st' → table k st' = table k st.
Proof.
  intros Ho. destruct (only_cache_fields _ _ Ho)
    as (_ & _ & _ & _ & _ & _ & _ & _ & _ & _ & Hsi & Hvi & _).
  by destruct k.
Qed.

Lemma record_seed_post nprocs all_systems all_vars io hpd m A D st :
  phase1 A D st →
  table_len Var st = size all_vars → table_len Sys st = size all_systems →
  post (record_seed nprocs all_systems all_vars io hpd m) st
       (λ _ st', phase1 A (with_seed (with_seed D Var io (source m.2))
                                   Sys io (source m.2)) st' ∧
                 (∀ k, table k st' = table k st))
       (λ _, True).
Proof.
  intros Hp Hnv Hns. unfold record_seed. apply post_bind.
  eapply post_mono; [apply single_seed_arrays_post, Hp| |done].
  simpl. intros [[[seed local] va] sa] st1 (Hc1 & Ho1 & Hseed & Hva & Hsa).
  simpl in *. subst seed.
  pose proof (phase1_only_cache _ _ _ _ Hp Ho1 Hc1) as Hp1.
  apply post_bind.
  eapply post_mono; [by apply get_cached_weak| |done].
  simpl. intros cva st2 (Hc2 & Ho2 & Hcva).
  pose proof (phase1_only_cache _ _ _ _ Hp1 Ho2 Hc2) as Hp2.
  assert (Ht2 : ∀ k, table k st2 = table k st).
  { intros k. rewrite (only_cache_table _ _ _ Ho2).
    apply (only_cache_table _ _ _ Ho1). }
  assert (Hl2 : ∀ k, table_len k st2 = table_len k st).
  { intros k. unfold table_len. by rewrite Ht2. }
  apply post_bind.
  eapply post_mono;
    [apply (phase1_set_single _ _ Var io (source m.2) cva _ Hp2)| |done].
  { rewrite Hcva, Hl2. congruence. }
  simpl. intros _ st3 (Hp3 & Hcache3 & Ht3).
  apply post_bind.
  eapply post_mono; [apply get_cached_weak, Hp3| |done].
  simpl. intros csa st4 (Hc4 & Ho4 & Hcsa).
  pose proof (phase1_only_cache _ _ _ _ Hp3 Ho4 Hc4) as Hp4.
  assert (Ht4 : ∀ k, table k st4 = table k st).
  { intros k. rewrite (only_cache_table _ _ _ Ho4). by rewrite Ht3. }
  apply post_bind.
  eapply post_mono;
    [apply (phase1_set_single _ _ Sys io (source m.2) csa _ Hp4)| |done].
  { unfold table_len. rewrite Hcsa, Ht4. fold (table_len Sys st). congruence. }
  simpl. intros _ st5 (Hp5 & _ & Ht5). apply post_ret.
  split; [done|]. intros k. by rewrite Ht5.
Qed.

Lemma with_seed_both D io x k d s :
  s ∈ with_seed (with_seed D Var io x) Sys io x k d ↔
  (d = io ∧ s = x) ∨ s ∈ D k d.
Proof.
  unfold with_seed. destruct k; destruct (decide (d = io)) as [->|Hd].
  - rewrite decide_False by (by intros [? _]). rewrite decide_True by done.
    rewrite elem_of_union, elem_of_singleton. intuition.
  - rewrite decide_False by (by intros [? _]).
    rewrite decide_False by (by intros [_ ?]). intuition.
  - rewrite decide_True by done. rewrite decide_False by (by intros [? _]).
    rewrite elem_of_union, elem_of_singleton. intuition.
  - rewrite decide_False by (by intros [_ ?]).
    rewrite decide_False by (by intros [? _]). intuition.
Qed.

(** [D] with the sources of [metas] added for the direction [io]. *)
Lemma record_seeds_post nprocs all_systems all_vars io metas :
  ∀ hpd A D st,
    phase1 A D st →
    table_len Var st = size all_vars → table_len Sys st = size all_systems →
    post (foldM (record_seed nprocs all_systems all_vars io) hpd metas) st
         (λ _ st', phase1 A (λ k d, if decide (d = io)
                                  then list_to_set (map (λ p, source p.2) metas)
                                       ∪ D k d
                                  else D k d) st' ∧
                   (∀ k, table k st' = table k st))
         (λ _, True).
Proof.
  induction metas as [|m metas IH]; intros hpd A D st Hp Hnv Hns; simpl.
  - apply post_ret. split; [|done]. eapply phase1_ext; [|done].
    intros k d s. case_decide; [|done].
    rewrite elem_of_union, elem_of_empty. tauto.
  - apply post_bind.
    eapply post_mono; [by apply record_seed_post| |done].
    simpl. intros hpd' st1 [Hp1 Ht1].
    eapply post_mono; [apply IH; [exact Hp1|..]| |done].
    + unfold table_len. by rewrite Ht1.
    + unfold table_len. by rewrite Ht1.
    + simpl. intros _ st2 [Hp2 Ht2]. split.
      * eapply phase1_ext; [|done]. intros k d s. simpl.
        destruct (decide (d = io)) as [->|Hd].
        -- rewrite !elem_of_union, with_seed_both, elem_of_singleton.
           intuition.
        -- rewrite with_seed_both. intuition.
      * intros k. by rewrite Ht2, Ht1.
Qed.

Lemma compute_single_arrays_post nprocs fwd_meta rev_meta all_systems all_vars A st :
  phase1 A (λ _ _, ∅) st →
  table_len Var st = size all_vars → table_len Sys st = size all_systems →
  post (compute_single_arrays nprocs fwd_meta rev_meta all_systems all_vars) st
       (λ _ st', phase1 A (λ _ d, dir_get
                           (list_to_set (map (λ p, source p.2) fwd_meta),
                            list_to_set (map (λ p, source p.2) rev_meta)) d) st')
       (λ _, True).
Proof.
  intros Hp Hnv Hns. unfold compute_single_arrays. simpl.
  apply post_bind.
  eapply post_mono; [by apply record_seeds_post| |done].
  simpl. intros hpd1 st1 [Hp1 Ht1]. apply post_bind.
  eapply post_mono; [apply record_seeds_post; [exact Hp1|..]| |done].
  - unfold table_len. by rewrite Ht1.
  - unfold table_len. by rewrite Ht1.
  - simpl. intros hpd2 st2 [Hp2 _]. apply post_ret.
    eapply phase1_ext; [|done]. intros k d s.
    destruct d; simpl; rewrite ?elem_of_union, ?elem_of_empty; tauto.
Qed.

Lemma only_cache_keeps st st' :
  inv st → only_cache st st' → cache_ok st' → keeps st st'.
Proof.
  intros Hi Ho Hc.
  destruct (only_cache_fields _ _ Ho)
    as (Ha & Hg & _ & Hsv & Hall & Hvm & Hsm & Hv & Hs & Has & Hsi & Hvi & Hn
        & Hcv & Hcs).
  split; [split|]; [|constructor; [apply Ho|done..]|by constructor].
  assert (Hi' : inv (upd_cache (_rel_array_cache st') st)).
  { destruct Hi. constructor; try done. }
  eapply inv_ext; [..|exact Hi']; done.
Qed.

Lemma phase1_inv A st : phase1 A (λ _ d, dir_get A d) st → inv st.
Proof.
  intros []. constructor; try done.
  - intros k d s. rewrite p1_all0. symmetry. apply p1_dom0.
  - intros k F R a. destruct k; simpl; rewrite ?p1_var_map0, ?p1_sys_map0; done.
  - intros k K K' l. destruct k; simpl; rewrite ?p1_var_map0, ?p1_sys_map0; done.
  - intros k K l. destruct k; simpl; rewrite ?p1_var_map0, ?p1_sys_map0; done.
Qed.

(** The row of a union, and the specification in terms of rows. *)
Lemma spec_as_zip n fm rm F R :
  spec_relevance n fm rm F R
  = zip_with andb (map (λ i, union_bit fm (elements F) i) (seq 0 n))
                  (map (λ i, union_bit rm (elements R) i) (seq 0 n)).
Proof. unfold spec_relevance. by rewrite zip_with_map_seq. Qed.

Lemma union_row_singleton n (m : list (string * ndarray)) s a :
  OD.get m s = Some a → length (bits a) = n →
  map (λ i, union_bit m (elements ({[s]} : gset string)) i) (seq 0 n) = bits a.
Proof.
  intros Hg Hl. rewrite elements_singleton.
  rewrite (bits_as_map (bits a)) at 1. rewrite Hl. apply map_ext.
  intros i. unfold union_bit. simpl. rewrite orb_false_r.
  by apply seed_bit_get.
Qed.

Lemma cached_and_weak a b st :
  cache_ok st →
  post (cached_and a b) st
       (λ c st', cache_ok st' ∧ only_cache st st' ∧
                 (length (bits a) = length (bits b) →
                  bits c = zip_with andb (bits a) (bits b)))
       (λ st', cache_ok st' ∧ only_cache st st').
Proof.
  intros Hc. unfold cached_and.
  apply post_bind, post_lift; [|split; [done|apply only_cache_refl]].
  intros bs Hbs. apply post_bind.
  eapply post_mono; [by apply new_array_weak| |done].
  simpl. intros c st1 (Hc1 & Ho1 & Hbc).
  eapply post_mono; [by apply get_cached_weak| |done].
  simpl. intros c' st2 (Hc2 & Ho2 & Hbc').
  split; [done|]. split; [by eapply only_cache_trans|].
  intros Hl. unfold np_and in Hbs. rewrite binop_same_length in Hbs by done.
  injection Hbs as <-. congruence.
Qed.

Lemma cached_and_post a b st :
  inv st →
  post (cached_and a b) st
       (λ c st', keeps st st' ∧ only_cache st st' ∧
                 (length (bits a) = length (bits b) →
                  bits c = zip_with andb (bits a) (bits b)))
       (λ _, True).
Proof.
  intros Hi. eapply post_mono; [apply cached_and_weak, Hi| |done].
  simpl. intros c st' (Hc & Ho & Hb). split; [by apply only_cache_keeps|done].
Qed.

Lemma get_single_arr_post k d s st :
  post (get_single_arr k d s) st
       (λ a st', st' = st ∧ OD.get (dir_get (get_single k st) d) s = Some a)
       (λ _, True).
Proof.
  unfold get_single_arr. apply post_bind, post_gets.
  apply post_lift_opt; [|done]. by intros a ->.
Qed.

Lemma foldl_insert_lookup (top : gmap seedkey nat) l kfs K :
  foldl (λ top k, <[k := l]> top) top kfs !! K
  = if decide (K ∈ kfs) then Some l else top !! K.
Proof.
  revert top. induction kfs as [|k kfs IH]; intros top; cbn [foldl].
  - destruct (decide (K ∈ [])) as [Hin|_]; [by apply elem_of_nil in Hin|done].
  - rewrite IH. destruct (decide (K ∈ kfs)) as [Hin|Hnin].
    + destruct (decide (K ∈ k :: kfs)) as [_|Hn]; [done|].
      exfalso. apply Hn. by right.
    + rewrite lookup_insert. destruct (decide (k = K)) as [->|Hne].
      * destruct (decide (K ∈ K :: kfs)) as [_|Hn]; [done|].
        exfalso. apply Hn. by left.
      * destruct (decide (K ∈ k :: kfs)) as [Hin|_]; [|done].
        by apply elem_of_cons in Hin as [?|?].
Qed.

Lemma only_cache_tops st st' : only_cache st st' → tops_same_as st st'.
Proof.
  intros Ho k. destruct (only_cache_fields _ _ Ho)
    as (_ & _ & _ & _ & _ & Hvm & Hsm & _).
  destruct k; simpl; congruence.
Qed.

Lemma new_sub_post k kfs st :
  inv st →
  (∀ K K', K ∈ kfs → K' ∈ kfs → key_set K = key_set K') →
  post (new_sub k kfs) st
       (λ l st', keeps st st' ∧
                 (∀ K, K ∈ kfs → sm_top (get_seed_map k st') !! K = Some l) ∧
                 (∀ k', k' ≠ k → get_seed_map k' st' = get_seed_map k' st))
       (λ _, False).
Proof.
  intros Hi Hkfs. unfold new_sub.
  apply post_bind, post_gets. unfold sm_new_sub.
  set (sm := get_seed_map k st). set (l := length (sm_subs sm)).
  apply post_bind, post_modify, post_ret.
  set (sm' := mk_seed_map _ _).
  assert (Htop : ∀ K, sm_top sm' !! K
                      = if decide (K ∈ kfs) then Some l else sm_top sm !! K).
  { intros K. apply foldl_insert_lookup. }
  assert (Hfresh : ∀ K, sm_top sm !! K ≠ Some l).
  { intros K HK. apply (inv_range _ Hi k) in HK. fold sm in HK. unfold l in HK. lia. }
  split; [|split].
  - apply inv_upd_seed_map; [done|..].
    + intros K K' l'. rewrite !Htop.
      destruct (decide (K ∈ kfs)), (decide (K' ∈ kfs)).
      * intros _ _. by apply Hkfs.
      * intros [= <-] HK'. by apply Hfresh in HK'.
      * intros HK [= <-]. by apply Hfresh in HK.
      * apply (inv_alias _ Hi k).
    + intros K l'. rewrite Htop. simpl. rewrite length_app. simpl.
      case_decide; [intros [= <-]; unfold l; lia|].
      intros HK. apply (inv_range _ Hi k) in HK. fold sm in HK. lia.
    + intros F R a. unfold sm_lookup, sm_sub. rewrite Htop.
      case_decide.
      * simpl. rewrite lookup_app_r by done. unfold l.
        rewrite Nat.sub_diag. simpl. by rewrite lookup_empty.
      * intros Hl. apply (inv_map _ Hi k F R a). unfold sm_lookup, sm_sub.
        fold sm. destruct (sm_top sm !! KSet F) as [l'|] eqn:HK; [|done].
        simpl in *. rewrite lookup_app_l in Hl; [done|].
        by apply (inv_range _ Hi k _ _ HK).
  - intros K HK. rewrite get_upd_seed_map, decide_True by done.
    rewrite Htop. by rewrite decide_True.
  - intros k' Hk'. by rewrite get_upd_seed_map, decide_False.
Qed.

Lemma store_at_post k l krs a K0 st :
  inv st →
  sm_top (get_seed_map k st) !! K0 = Some l →
  (∀ R, KSet R ∈ krs →
        bits a = spec_relevance (table_len k st) (get_single k st).1
                                (get_single k st).2 (key_set K0) R) →
  post (store_at k l krs a) st
       (λ _ st', keeps st st' ∧ tops_same_as st st') (λ _, False).
Proof.
  intros Hi Htop Hspec. unfold store_at.
  eapply post_mono.
  - apply (post_forM_ _ (λ st', keeps st st' ∧ tops_same_as st st') (λ _, False)).
    + split; [by apply keeps_refl|done].
    + intros kr st1 Hkr [Hk1 Ht1]. apply post_modify.
      pose proof (keeps_inv _ _ Hk1) as Hi1.
      pose proof (keeps_frozen _ _ Hk1) as Hf1.
      assert (Htop1 : sm_top (get_seed_map k st1) !! K0 = Some l)
        by by rewrite Ht1.
      pose proof (inv_range _ Hi1 k _ _ Htop1) as Hl.
      assert (Hk2 : keeps st1 (upd_seed_map k
                       (sm_store_at (get_seed_map k st1) l kr a) st1)).
      { apply inv_upd_seed_map; [done|..].
        - intros K K' l'. rewrite !sm_store_at_top. apply (inv_alias _ Hi1).
        - intros K l'. rewrite sm_store_at_top, sm_store_at_length.
          apply (inv_range _ Hi1).
        - intros F R b.
          destruct (decide (sm_top (get_seed_map k st1) !! KSet F = Some l
                            ∧ KSet R = kr)) as [[HF HR]|Hn].
          + subst kr. rewrite (sm_lookup_store_hit _ _ _ _ _ HF Hl).
            intros [= <-].
            rewrite (frozen_table_len _ _ _ Hf1), (frozen_single _ _ _ Hf1).
            rewrite (Hspec R Hkr).
            by rewrite <- (inv_alias _ Hi1 k _ _ _ HF Htop1).
          + rewrite sm_lookup_store_miss; [apply (inv_map _ Hi1)|].
            destruct (decide (sm_top (get_seed_map k st1) !! KSet F = Some l));
              [right|by left]. intros Heq. apply Hn. done. }
      split; [by apply (keeps_trans _ st1)|].
      intros k'. rewrite get_upd_seed_map. case_decide; [subst k'|apply Ht1].
      rewrite sm_store_at_top. apply Ht1.
  - done.
  - done.
Qed.

Lemma store_under_post k kf kr a st :
  inv st →
  (∀ R, kr = KSet R →
        bits a = spec_relevance (table_len k st) (get_single k st).1
                                (get_single k st).2 (key_set kf) R) →
  post (store_under k kf kr a) st
       (λ _ st', keeps st st' ∧ tops_same_as st st') (λ _, True).
Proof.
  intros Hi Hspec. unfold store_under.
  apply post_bind, post_gets. apply post_bind, post_lift_opt; [|done].
  intros l Hl.
  eapply post_mono; [apply (store_at_post k l [kr] a kf); [done..|]|done|done].
  intros R HR%list_elem_of_singleton. by apply Hspec.
Qed.

Lemma tops_same_refl st : tops_same_as st st.
Proof. done. Qed.

Lemma tops_same_trans st1 st2 st3 :
  tops_same_as st1 st2 → tops_same_as st2 st3 → tops_same_as st1 st3.
Proof. intros H1 H2 k. by rewrite H2, H1. Qed.

Lemma nodup_frozen st st' : frozen st st' → single_nodup st → single_nodup st'.
Proof. intros Hf Hn k d. rewrite (frozen_single _ _ _ Hf). apply Hn. Qed.

(** The entry for a pair of single seeds is the AND of their arrays. *)
Lemma spec_pair k st f r fa ra :
  inv st →
  OD.get (get_single k st).1 f = Some fa →
  OD.get (get_single k st).2 r = Some ra →
  spec_relevance (table_len k st) (get_single k st).1 (get_single k st).2
                 {[f]} {[r]}
  = zip_with andb (bits fa) (bits ra).
Proof.
  intros Hi Hf Hr. rewrite spec_as_zip.
  rewrite (union_row_singleton _ _ _ _ Hf) by apply (inv_len _ Hi k fwd _ _ Hf).
  by rewrite (union_row_singleton _ _ _ _ Hr) by apply (inv_len _ Hi k rev _ _ Hr).
Qed.

Lemma in_pair_keys (R : gset string) (rsrc : string) :
  KSet R ∈ [KStr rsrc; KSet {[rsrc]}] → R = {[rsrc]}.
Proof.
  intros [Heq|Hin]%elem_of_cons; [done|].
  apply list_elem_of_singleton in Hin. by injection Hin.
Qed.

Lemma fill_pair_post vsub ssub fvarr fsarr fseed r st :
  inv st → single_nodup st →
  sm_top (get_seed_map Var st) !! KSet {[fseed]} = Some vsub →
  sm_top (get_seed_map Sys st) !! KSet {[fseed]} = Some ssub →
  OD.get (get_single Var st).1 fseed = Some fvarr →
  OD.get (get_single Sys st).1 fseed = Some fsarr →
  r ∈ (get_single Var st).2 →
  post (fill_pair vsub ssub fvarr fsarr r) st
       (λ _ st', keeps st st' ∧ tops_same_as st st') (λ _, True).
Proof.
  intros Hi Hnd Hv Hs Hfv Hfs Hr. destruct r as [rsrc rvarr]. unfold fill_pair.
  assert (Hrv : OD.get (get_single Var st).2 rsrc = Some rvarr)
    by by apply od_elem_get; [apply (Hnd Var rev)|].
  apply post_bind.
  eapply post_mono; [apply get_single_arr_post| |done].
  simpl. intros rsysarr ? [-> Hrs].
  apply post_bind.
  eapply post_mono; [by apply cached_and_post| |done].
  simpl. intros a st1 (Hk1 & Ho1 & Ha).
  pose proof (keeps_inv _ _ Hk1) as Hi1.
  pose proof (keeps_frozen _ _ Hk1) as Hf1.
  apply post_bind.
  eapply post_mono;
    [apply (store_at_post Var vsub _ a (KSet {[fseed]}) st1 Hi1)| |done].
  { by rewrite (only_cache_tops _ _ Ho1 Var). }
  { intros R ->%in_pair_keys. simpl key_set.
    rewrite (frozen_table_len _ _ _ Hf1), (frozen_single _ _ _ Hf1).
    rewrite (spec_pair Var st _ _ _ _ Hi Hfv Hrv). apply Ha.
    rewrite (inv_len _ Hi Var fwd _ _ Hfv).
    by rewrite (inv_len _ Hi Var rev _ _ Hrv). }
  simpl. intros _ st2 [Hk2 Ht2].
  assert (Hk02 : keeps st st2) by by apply (keeps_trans _ st1).
  assert (Ht02 : tops_same_as st st2).
  { apply (tops_same_trans _ st1); [by apply only_cache_tops|done]. }
  apply post_bind.
  eapply post_mono; [eapply cached_and_post, keeps_inv, Hk02| |done].
  simpl. intros b st3 (Hk3 & Ho3 & Hb).
  assert (Hk03 : keeps st st3) by by apply (keeps_trans _ st2).
  pose proof (keeps_inv _ _ Hk03) as Hi3.
  pose proof (keeps_frozen _ _ Hk03) as Hf3.
  assert (Ht03 : tops_same_as st st3).
  { apply (tops_same_trans _ st2); [done|by apply only_cache_tops]. }
  eapply post_mono;
    [apply (store_at_post Sys ssub _ b (KSet {[fseed]}) st3 Hi3)| |done].
  { by rewrite (Ht03 Sys). }
  { intros R ->%in_pair_keys. simpl key_set.
    rewrite (frozen_table_len _ _ _ Hf3), (frozen_single _ _ _ Hf3).
    rewrite (spec_pair Sys st _ _ _ _ Hi Hfs Hrs). apply Hb.
    rewrite (inv_len _ Hi Sys fwd _ _ Hfs).
    by rewrite (inv_len _ Hi Sys rev _ _ Hrs). }
  simpl. intros _ st4 [Hk4 Ht4].
  split; [by apply (keeps_trans _ st3)|by apply (tops_same_trans _ st3)].
Qed.

Lemma pair_keys_same (f : string) K K' :
  K ∈ [KStr f; KSet {[f]}] → K' ∈ [KStr f; KSet {[f]}] → key_set K = key_set K'.
Proof.
  intros HK HK'.
  assert (H1 : ∀ K0, K0 ∈ [KStr f; KSet {[f]}] → key_set K0 = {[f]}).
  { intros K0 [-> | ->%list_elem_of_singleton]%elem_of_cons; done. }
  by rewrite (H1 K), (H1 K').
Qed.

Lemma fill_pairs_of_post f st :
  inv st → single_nodup st → f ∈ (get_single Var st).1 →
  post (fill_pairs_of f) st (λ _, keeps st) (λ _, True).
Proof.
  intros Hi Hnd Hf. destruct f as [fseed fvarr]. unfold fill_pairs_of.
  assert (Hfv : OD.get (get_single Var st).1 fseed = Some fvarr)
    by by apply od_elem_get; [apply (Hnd Var fwd)|].
  apply post_bind.
  eapply post_mono; [apply get_single_arr_post| |done].
  simpl. intros fsarr ? [-> Hfs].
  apply post_bind.
  eapply post_mono;
    [apply (new_sub_post Var [KStr fseed; KSet {[fseed]}] st Hi),
       pair_keys_same| |done].
  simpl. intros vsub st1 (Hk1 & Hv1 & Ho1).
  pose proof (keeps_inv _ _ Hk1) as Hi1.
  apply post_bind.
  eapply post_mono;
    [apply (new_sub_post Sys [KStr fseed; KSet {[fseed]}] st1 Hi1),
       pair_keys_same| |done].
  simpl. intros ssub st2 (Hk2 & Hs2 & Ho2).
  assert (Hk02 : keeps st st2) by by apply (keeps_trans _ st1).
  pose proof (keeps_inv _ _ Hk02) as Hi2.
  pose proof (keeps_frozen _ _ Hk02) as Hf2.
  apply post_bind, post_gets.
  eapply post_mono.
  - apply (post_forM_ _ (λ st', keeps st2 st' ∧ tops_same_as st2 st') (λ _, True)).
    + split; [by apply keeps_refl|done].
    + intros r st3 Hr [Hk3 Ht3].
      pose proof (keeps_frozen _ _ Hk3) as Hf3.
      assert (Hf03 : frozen st st3) by by apply (frozen_trans _ st2).
      eapply post_mono;
        [apply (fill_pair_post vsub ssub fvarr fsarr fseed r st3)| |done].
      * by eapply keeps_inv.
      * by apply (nodup_frozen st).
      * rewrite (Ht3 Var), (Ho2 Var) by done. apply Hv1.
        apply elem_of_cons. right. by apply list_elem_of_singleton.
      * rewrite (Ht3 Sys). apply Hs2.
        apply elem_of_cons. right. by apply list_elem_of_singleton.
      * by rewrite (frozen_single _ _ _ Hf03).
      * by rewrite (frozen_single _ _ _ Hf03).
      * rewrite (frozen_single _ _ _ Hf3). exact Hr.
      * simpl. intros _ st4 [Hk4 Ht4].
        split; [by apply (keeps_trans _ st3)|by apply (tops_same_trans _ st3)].
  - simpl. intros _ st3 [Hk3 _]. by apply (keeps_trans _ st2).
  - done.
Qed.

Lemma fill_all_rev_post (rev_seeds : gset string) all_rv all_rs f st :
  inv st → single_nodup st → f ∈ (get_single Var st).1 →
  bits all_rv = map (λ i, union_bit (get_single Var st).2 (elements rev_seeds) i)
                    (seq 0 (table_len Var st)) →
  bits all_rs = map (λ i, union_bit (get_single Sys st).2 (elements rev_seeds) i)
                    (seq 0 (table_len Sys st)) →
  post (fill_all_rev rev_seeds all_rv all_rs f) st (λ _, keeps st) (λ _, True).
Proof.
  intros Hi Hnd Hf Hrv Hrs. destruct f as [fsrc farr]. unfold fill_all_rev.
  assert (Hfv : OD.get (get_single Var st).1 fsrc = Some farr)
    by by apply od_elem_get; [apply (Hnd Var fwd)|].
  apply post_bind.
  eapply post_mono; [apply get_single_arr_post| |done].
  simpl. intros fsysarr ? [-> Hfs].
  apply post_bind.
  eapply post_mono; [by apply cached_and_post| |done].
  simpl. intros a st1 (Hk1 & _ & Ha).
  pose proof (keeps_inv _ _ Hk1) as Hi1.
  pose proof (keeps_frozen _ _ Hk1) as Hf1.
  apply post_bind.
  eapply post_mono; [apply (store_under_post Var _ _ a st1 Hi1)| |done].
  { intros R [= <-]. simpl key_set.
    rewrite (frozen_table_len _ _ _ Hf1), (frozen_single _ _ _ Hf1).
    rewrite spec_as_zip.
    rewrite (union_row_singleton _ _ _ _ Hfv)
      by apply (inv_len _ Hi Var fwd _ _ Hfv).
    rewrite <- Hrv. apply Ha.
    rewrite Hrv, length_map, length_seq. apply (inv_len _ Hi Var fwd _ _ Hfv). }
  simpl. intros _ st2 [Hk2 _].
  assert (Hk02 : keeps st st2) by by apply (keeps_trans _ st1).
  apply post_bind.
  eapply post_mono; [eapply cached_and_post, keeps_inv, Hk02| |done].
  simpl. intros b st3 (Hk3 & _ & Hb).
  assert (Hk03 : keeps st st3) by by apply (keeps_trans _ st2).
  pose proof (keeps_inv _ _ Hk03) as Hi3.
  pose proof (keeps_frozen _ _ Hk03) as Hf3.
  eapply post_mono; [apply (store_under_post Sys _ _ b st3 Hi3)| |done].
  { intros R [= <-]. simpl key_set.
    rewrite (frozen_table_len _ _ _ Hf3), (frozen_single _ _ _ Hf3).
    rewrite spec_as_zip.
    rewrite (union_row_singleton _ _ _ _ Hfs)
      by apply (inv_len _ Hi Sys fwd _ _ Hfs).
    rewrite <- Hrs. apply Hb.
    rewrite Hrs, length_map, length_seq. apply (inv_len _ Hi Sys fwd _ _ Hfs). }
  simpl. intros _ st4 [Hk4 _]. by apply (keeps_trans _ st3).
Qed.

Lemma fill_all_fwd_post (fwd_seeds : gset string) all_fv all_fs r st :
  inv st →
  post (fill_all_fwd fwd_seeds all_fv all_fs r) st (λ _, keeps st) (λ _, True).
Proof.
  intros Hi. destruct r as [rsrc rarr]. unfold fill_all_fwd.
  apply post_bind.
  eapply post_mono; [apply get_single_arr_post| |done].
  simpl. intros rsysarr ? [-> _].
  apply post_bind.
  eapply post_mono; [by apply cached_and_post| |done].
  simpl. intros a st1 (Hk1 & _ & _).
  apply post_bind.
  eapply post_mono;
    [apply (store_under_post Var _ _ a st1 (keeps_inv _ _ Hk1))| |done];
    [done|].
  simpl. intros _ st2 [Hk2 _].
  assert (Hk02 : keeps st st2) by by apply (keeps_trans _ st1).
  apply post_bind.
  eapply post_mono; [eapply cached_and_post, keeps_inv, Hk02| |done].
  simpl. intros b st3 (Hk3 & _ & _).
  assert (Hk03 : keeps st st3) by by apply (keeps_trans _ st2).
  eapply post_mono;
    [apply (store_under_post Sys _ _ b st3 (keeps_inv _ _ Hk03))| |done];
    [done|].
  simpl. intros _ st4 [Hk4 _]. by apply (keeps_trans _ st3).
Qed.

(** A loop of steps that each keep the invariants. *)
Lemma forM_keeps {A} (f : A → M unit) (P : A → Prop) xs st :
  inv st →
  (∀ x, x ∈ xs → P x) →
  (∀ x st', P x → keeps st st' → post (f x) st' (λ _, keeps st') (λ _, True)) →
  post (forM_ f xs) st (λ _, keeps st) (λ _, True).
Proof.
  intros Hi HP Hf.
  apply (post_forM_ _ (keeps st) (λ _, True)); [by apply keeps_refl|].
  intros x st' Hx Hk.
  eapply post_mono; [apply Hf; [by apply HP|done]| |done].
  simpl. intros _ st'' Hk'. by apply (keeps_trans _ st').
Qed.

Lemma keeps_single st st' k : keeps st st' → get_single k st' = get_single k st.
Proof. intros Hk. by apply frozen_single, keeps_frozen. Qed.

Lemma keeps_len st st' k : keeps st st' → table_len k st' = table_len k st.
Proof. intros Hk. by apply frozen_table_len, keeps_frozen. Qed.

Lemma keeps_nodup st st' : keeps st st' → single_nodup st → single_nodup st'.
Proof. intros Hk. by apply nodup_frozen, keeps_frozen. Qed.

Lemma union_row_post k d (seeds : gset string) st0 st :
  inv st0 → keeps st0 st → seeds ≠ ∅ →
  post (_union_arrays (dir_get (get_single k st0) d) (KSet seeds)) st
       (λ a st', keeps st0 st' ∧
                 bits a = map (λ i, union_bit (dir_get (get_single k st0) d)
                                              (elements seeds) i)
                              (seq 0 (table_len k st0)))
       (λ _, True).
Proof.
  intros Hi0 Hk Hne.
  eapply post_mono;
    [apply (union_post _ seeds st (table_len k st0));
     [by eapply keeps_inv| |done]| |done].
  - intros s a. apply (inv_len _ Hi0 k d).
  - simpl. intros a st' (Hk' & _ & Ha). split; [by apply (keeps_trans _ st)|done].
Qed.

Lemma fill_seed_maps_post (fwd_seeds rev_seeds : gset string) st :
  inv st → single_nodup st → fwd_seeds ≠ ∅ → rev_seeds ≠ ∅ →
  post (fill_seed_maps fwd_seeds rev_seeds) st (λ _, keeps st) (λ _, True).
Proof.
  intros Hi Hnd HF HR. unfold fill_seed_maps, single_items.
  apply post_bind, post_gets. apply post_bind.
  eapply post_mono.
  { apply (forM_keeps _ (λ x, x ∈ (get_single Var st).1)); [done|done|].
    intros f st' Hf Hk. apply fill_pairs_of_post.
    - by eapply keeps_inv.
    - by apply (keeps_nodup st).
    - by rewrite (keeps_single _ _ _ Hk). }
  2: done.
  simpl. intros _ st1 Hk1.
  apply post_bind, post_gets. apply post_bind, post_gets.
  replace (_single_seed2relvars st1) with (get_single Var st)
    by (symmetry; apply (keeps_single _ _ Var Hk1)).
  replace (_single_seed2relsys st1) with (get_single Sys st)
    by (symmetry; apply (keeps_single _ _ Sys Hk1)).
  apply post_bind.
  eapply post_mono; [by apply (union_row_post Var fwd fwd_seeds st st1)| |done].
  simpl. intros all_fv st2 [Hk2 Hfv]. apply post_bind.
  eapply post_mono; [by apply (union_row_post Sys fwd fwd_seeds st st2)| |done].
  simpl. intros all_fs st3 [Hk3 Hfs]. apply post_bind.
  eapply post_mono; [by apply (union_row_post Var rev rev_seeds st st3)| |done].
  simpl. intros all_rv st4 [Hk4 Hrv]. apply post_bind.
  eapply post_mono; [by apply (union_row_post Sys rev rev_seeds st st4)| |done].
  simpl. intros all_rs st5 [Hk5 Hrs].
  apply post_bind, post_gets. apply post_bind.
  eapply post_mono.
  { apply (forM_keeps _ (λ x, x ∈ (get_single Var st).1)).
    - by eapply keeps_inv.
    - intros x. simpl.
      by replace (_single_seed2relvars st5) with (_single_seed2relvars st)
        by (symmetry; apply (keeps_single _ _ Var Hk5)).
    - intros f st' Hf Hk.
      assert (Hk0 : keeps st st') by by apply (keeps_trans _ st5).
      apply fill_all_rev_post.
      + by eapply keeps_inv.
      + by apply (keeps_nodup st).
      + by rewrite (keeps_single _ _ _ Hk0).
      + by rewrite (keeps_single _ _ _ Hk0), (keeps_len _ _ _ Hk0).
      + by rewrite (keeps_single _ _ _ Hk0), (keeps_len _ _ _ Hk0). }
  2: done.
  simpl. intros _ st6 Hk6.
  assert (Hk06 : keeps st st6) by by apply (keeps_trans _ st5).
  apply post_bind.
  eapply post_mono;
    [apply (new_sub_post Var [KSet fwd_seeds] st6 (keeps_inv _ _ Hk06))| |done].
  { by intros K K' ->%list_elem_of_singleton ->%list_elem_of_singleton. }
  simpl. intros vall st7 (Hk7 & _ & _).
  assert (Hk07 : keeps st st7) by by apply (keeps_trans _ st6).
  apply post_bind.
  eapply post_mono;
    [apply (new_sub_post Sys [KSet fwd_seeds] st7 (keeps_inv _ _ Hk07))| |done].
  { by intros K K' ->%list_elem_of_singleton ->%list_elem_of_singleton. }
  simpl. intros sall st8 (Hk8 & _ & _).
  assert (Hk08 : keeps st st8) by by apply (keeps_trans _ st7).
  apply post_bind, post_gets. apply post_bind.
  eapply post_mono.
  { apply (forM_keeps _ (λ _, True)); [by eapply keeps_inv|done|].
    intros r st' _ Hk. apply fill_all_fwd_post. by eapply keeps_inv. }
  2: done.
  simpl. intros _ st9 Hk9.
  assert (Hk09 : keeps st st9) by by apply (keeps_trans _ st8).
  apply post_bind.
  eapply post_mono; [eapply cached_and_post, keeps_inv, Hk09| |done].
  simpl. intros a st10 (Hk10 & _ & Ha).
  assert (Hk010 : keeps st st10) by by apply (keeps_trans _ st9).
  apply post_bind.
  eapply post_mono;
    [apply (store_under_post Var _ _ a st10 (keeps_inv _ _ Hk010))| |done].
  { intros R [= <-]. simpl key_set.
    rewrite (keeps_len _ _ _ Hk010), (keeps_single _ _ _ Hk010).
    rewrite spec_as_zip. cbn [get_single dir_get fst snd] in Hfv, Hrv |- *.
    rewrite <- Hfv, <- Hrv. apply Ha.
    by rewrite Hfv, Hrv, !length_map, !length_seq. }
  simpl. intros _ st11 [Hk11 _].
  assert (Hk011 : keeps st st11) by by apply (keeps_trans _ st10).
  apply post_bind.
  eapply post_mono; [eapply cached_and_post, keeps_inv, Hk011| |done].
  simpl. intros b st12 (Hk12 & _ & Hb).
  assert (Hk012 : keeps st st12) by by apply (keeps_trans _ st11).
  eapply post_mono;
    [apply (store_under_post Sys _ _ b st12 (keeps_inv _ _ Hk012))| |done].
  { intros R [= <-]. simpl key_set.
    rewrite (keeps_len _ _ _ Hk012), (keeps_single _ _ _ Hk012).
    rewrite spec_as_zip. cbn [get_single dir_get fst snd] in Hfs, Hrs |- *.
    rewrite <- Hfs, <- Hrs. apply Hb.
    by rewrite Hfs, Hrs, !length_map, !length_seq. }
  simpl. intros _ st13 [Hk13 _]. by apply (keeps_trans _ st12).
Qed.

Lemma inv_upd_no_dv_responses v st : inv st → inv (upd_no_dv_responses v st).
Proof. intros Hi. by eapply inv_ext; [..|exact Hi]. Qed.

Lemma names2rel_inv names n idx st :
  inv st →
  post (_names2rel_array names n idx) st (λ _ st', inv st') (λ _, True).
Proof.
  intros Hi. eapply post_mono; [apply names2rel_weak, Hi| |done].
  simpl. intros a st' (Hc & Ho & _). by eapply keeps_inv, only_cache_keeps.
Qed.

Lemma par_deriv_err_check_inv group responses desvars st :
  inv st →
  post (_par_deriv_err_check group responses desvars) st
       (λ _ st', inv st') (λ _, True).
Proof.
  intros Hi. unfold _par_deriv_err_check.
  apply post_bind, post_gets. apply post_bind.
  eapply (post_mono _ _ (λ _ st', inv st') _ (λ _, True)).
  { destruct (bool_decide (mode group = "fwd") || bool_decide (mode group = "auto")).
    - apply post_bind.
      eapply post_mono; [by apply iter_seed_pair_relevance_keeps| |done].
      simpl. intros items st1 Hk1. apply post_lift; [|done].
      intros ? _. by eapply keeps_inv.
    - by apply post_ret. }
  2: done.
  simpl. intros pd st1 Hi1. apply post_bind.
  eapply (post_mono _ _ (λ _ st', inv st') _ (λ _, True)).
  { destruct (bool_decide (mode group = "rev") || bool_decide (mode group = "auto")).
    - apply post_bind.
      eapply post_mono; [by apply iter_seed_pair_relevance_keeps| |done].
      simpl. intros items st2 Hk2. apply post_lift; [|done].
      intros ? _. by eapply keeps_inv.
    - by apply post_ret. }
  2: done.
  simpl. intros pd' st2 Hi2.
  by destruct (overlap_msgs _ _).
Qed.

Lemma unrestricted_arrays_inv hpd all_systems all_vars items st :
  inv st →
  post (unrestricted_arrays hpd all_systems all_vars items) st
       (λ _ st', inv st') (λ _, True).
Proof.
  intros Hi. unfold unrestricted_arrays.
  apply (post_foldM _ (λ _ st', inv st') (λ _, True)); [done|].
  intros arrs [src arr] st1 _ Hi1. apply post_bind.
  eapply (post_mono _ _ (λ _ st', inv st') _ (λ _, True)).
  { destruct (OD.get hpd src) as [d|]; [|by apply post_ret].
    apply post_bind.
    eapply post_mono; [apply dependent_nodes_state| |done].
    simpl. intros depnodes ? ->.
    apply post_bind, post_bind, post_gets, post_lift_opt; [|done].
    intros var2idx _. by apply names2rel_inv. }
  2: done.
  simpl. intros arr' st2 Hi2. by apply post_ret.
Qed.

Lemma scan_no_dv_responses_inv allfarrs rarrs st :
  inv st →
  post (scan_no_dv_responses allfarrs rarrs) st (λ _ st', inv st') (λ _, True).
Proof.
  intros Hi. unfold scan_no_dv_responses.
  apply post_bind, post_modify.
  apply (post_forM_ _ inv (λ _, True)); [by apply inv_upd_no_dv_responses|].
  intros [rsrc rarr] st1 _ Hi1.
  apply post_bind, post_lift; [|done]. intros bs _.
  apply post_bind.
  eapply post_mono; [by apply new_array_post| |done].
  simpl. intros both st2 [Hk2 _]. pose proof (keeps_inv _ _ Hk2) as Hi2.
  apply post_bind, post_bind, post_gets, post_lift_opt; [|done].
  intros var2idx _. apply post_bind, post_lift_opt; [|done].
  intros i _. apply post_bind, post_lift; [|done].
  intros hit _. destruct hit; [by apply post_ret|].
  by apply post_modify, inv_upd_no_dv_responses.
Qed.

Lemma finish_seeds_inv group fwd_meta rev_meta (fwd_seeds rev_seeds : gset string)
    all_systems all_vars hpd st :
  inv st →
  post (finish_seeds group fwd_meta rev_meta fwd_seeds rev_seeds
                     all_systems all_vars hpd) st
       (λ _ st', inv st') (λ _, True).
Proof.
  intros Hi. unfold finish_seeds, single_items. apply post_bind.
  eapply post_mono; [by apply set_seeds_steady| |done].
  simpl. intros _ st1 [Hi1 _]. apply post_bind.
  eapply (post_mono _ _ (λ _ st', inv st') _ (λ _, True)).
  { destruct hpd; [by apply post_ret|by apply par_deriv_err_check_inv]. }
  2: done.
  simpl. intros _ st2 Hi2.
  apply post_bind, post_gets. apply post_bind.
  eapply post_mono; [by apply unrestricted_arrays_inv| |done].
  simpl. intros farrs st3 Hi3.
  apply post_bind, post_gets. apply post_bind.
  eapply post_mono; [by apply unrestricted_arrays_inv| |done].
  simpl. intros rarrs st4 Hi4. apply post_bind.
  eapply post_mono; [by apply union_keeps| |done].
  simpl. intros allfarrs st5 Hk5.
  apply scan_no_dv_responses_inv. by eapply keeps_inv.
Qed.

Lemma sources_nonempty (metas : list (string * meta)) :
  metas ≠ [] →
  (list_to_set (map (λ p, source p.2) metas) : gset string) ≠ ∅.
Proof.
  destruct metas as [|m metas]; [done|]. intros _ Hempty. simpl in Hempty.
  assert (Hin : source m.2 ∈ ({[source m.2]} ∪
            list_to_set (map (λ p, source p.2) metas) : gset string))
    by by apply elem_of_union_l, elem_of_singleton.
  rewrite Hempty in Hin. by apply not_elem_of_empty in Hin.
Qed.

Lemma set_all_seeds_inv group fwd_meta rev_meta st :
  fwd_meta ≠ [] → rev_meta ≠ [] → cache_ok st →
  post (_set_all_seeds group fwd_meta rev_meta) st (λ _ st', inv st') (λ _, True).
Proof.
  intros Hfm Hrm Hc. unfold _set_all_seeds.
  set (F := list_to_set (map (λ p, source p.2) fwd_meta) : gset string).
  set (R := list_to_set (map (λ p, source p.2) rev_meta) : gset string).
  do 5 apply post_bind, post_modify.
  destruct fwd_meta as [|fm0 fwd_meta']; [done|].
  destruct rev_meta as [|rm0 rev_meta']; [done|].
  apply post_bind, post_gets.
  destruct (collect_names _) as [all_vars all_systems].
  apply post_bind, post_modify. apply post_bind.
  set (stB := upd_tables _ _ _ _).
  assert (Hp : phase1 (F, R) (λ _ _, ∅) stB).
  { constructor; try done.
    - by intros [].
    - by intros [] [] s a.
    - intros [] [] s; simpl; (split; [by intros [? ?]|by intros ?%not_elem_of_empty]).
    - intros [] []; apply NoDup_nil_2. }
  eapply post_mono;
    [apply (compute_single_arrays_post _ _ _ all_systems all_vars _ _ Hp)| |done].
  { unfold table_len. simpl. done. }
  { unfold table_len. simpl. done. }
  simpl. intros hpd st1 Hp1.
  pose proof (phase1_inv _ _ Hp1) as Hi1.
  pose proof (p1_nodup _ _ _ Hp1) as Hnd1.
  apply post_bind.
  eapply post_mono;
    [apply (fill_seed_maps_post F R st1 Hi1 Hnd1); by apply sources_nonempty
    | |done].
  simpl. intros _ st2 Hk2.
  apply finish_seeds_inv. by eapply keeps_inv.
Qed.

Lemma setup_nonlinear_sets_inv model st :
  inv st → post (_setup_nonlinear_sets model) st (λ _ st', inv st') (λ _, True).
Proof.
  intros Hi. unfold _setup_nonlinear_sets.
  apply post_bind, post_lift_opt; [|done]. intros pre_comps _.
  apply post_bind, post_lift_opt; [|done]. intros post_comps _.
  apply post_bind, post_bind, post_gets, post_lift_opt; [|done].
  intros all_systems _.
  apply post_bind, post_bind, post_gets, post_lift_opt; [|done].
  intros sys2idx _. apply post_bind.
  eapply post_mono; [by apply names2rel_inv| |done].
  simpl. intros pre_array st1 Hi1. apply post_bind.
  eapply post_mono; [by apply names2rel_inv| |done].
  simpl. intros post_array st2 Hi2. apply post_bind.
  eapply (post_mono _ _ (λ _ st', inv st') _ (λ _, True)).
  { destruct (_iterated_components model).
    - apply post_bind, post_lift; [|done]. intros b _.
      eapply post_mono; [by apply new_array_post| |done].
      simpl. intros ?? [Hk _]. by eapply keeps_inv.
    - eapply post_mono; [by apply new_array_post| |done].
      simpl. intros ?? [Hk _]. by eapply keeps_inv.
    - apply post_bind, post_lift; [|done]. intros b _.
      eapply post_mono; [by apply new_array_post| |done].
      simpl. intros ?? [Hk _]. by eapply keeps_inv. }
  2: done.
  simpl. intros iter_array st3 Hi3. apply post_modify.
  by eapply inv_ext; [..|exact Hi3].
Qed.

Lemma init_M_inv model fwd_meta rev_meta st :
  fwd_meta ≠ [] → rev_meta ≠ [] → cache_ok st →
  post (init_M model fwd_meta rev_meta) st (λ _ st', inv st') (λ _, True).
Proof.
  intros Hfm Hrm Hc. unfold init_M. apply post_bind.
  eapply post_mono; [by apply set_all_seeds_inv| |done].
  simpl. intros _ st1 Hi1.
  apply post_bind, post_modify. apply post_bind, post_modify.
  assert (Hi2 : inv (upd_current_rel_sarray None
                       (upd_current_rel_varray None st1))).
  { apply steady_upd_current_rel_sarray, steady_upd_current_rel_varray, Hi1. }
  apply post_bind, post_lift; [|done]. intros model' _.
  apply post_bind.
  eapply (post_mono _ _ (λ _ st', inv st') _ (λ _, True)).
  { destruct (set_truthy (_pre_components model')
              || set_truthy (_post_components model')).
    - by apply setup_nonlinear_sets_inv.
    - apply post_modify. by eapply inv_ext; [..|exact Hi2]. }
  2: done.
  simpl. intros _ st3 Hi3.
  destruct fwd_meta; [done|]. destruct rev_meta; [done|].
  apply post_bind, post_ret. by apply post_ret.
Qed.

(** A Relevance object constructed from seed metadata that is not empty
    satisfies the invariants. *)
Lemma init_inv model fwd_meta rev_meta st model' :
  fwd_meta ≠ [] → rev_meta ≠ [] →
  __init__ model fwd_meta rev_meta = Ok (st, model') → inv st.
Proof.
  intros Hfm Hrm. unfold __init__.
  destruct (negb (bool_decide (pathname model = ""))); [done|].
  pose proof (init_M_inv model fwd_meta rev_meta
                (init_state (_dataflow_graph model)) Hfm Hrm) as Hpost.
  unfold post in Hpost.
  destruct (init_M model fwd_meta rev_meta (init_state (_dataflow_graph model)))
    as [[m|e] st']; [|done].
  intros [= <- <-]. apply Hpost. by intros h a.
Qed.

Lemma list_to_set_nonempty (l : list string) :
  l ≠ [] → (list_to_set l : gset string) ≠ ∅.
Proof.
  destruct l as [|x l]; [done|]. intros _ Hempty. simpl in Hempty.
  assert (Hin : x ∈ ({[x]} ∪ list_to_set l : gset string))
    by by apply elem_of_union_l, elem_of_singleton.
  rewrite Hempty in Hin. by apply not_elem_of_empty in Hin.
Qed.

(** Every state that client code reaches from a construction with seeds on
    both sides satisfies the invariants. *)
Lemma reached_inv model fwd_meta rev_meta st0 model' c o st :
  fwd_meta ≠ [] → rev_meta ≠ [] →
  __init__ model fwd_meta rev_meta = Ok (st0, model') →
  exec c st0 = (o, st) →
  inv st.
Proof.
  intros Hfm Hrm Hinit Hexec.
  pose proof (init_inv _ _ _ _ _ Hfm Hrm Hinit) as Hi0.
  pose proof (exec_steady c st0 Hi0) as Hs. rewrite Hexec in Hs. apply Hs.
Qed.

(** C1. For every model (dataflow graph) and all non-empty sets F and R of
    seeds of the construction, entering [seeds_active(F, R)] on an engine
    that is not deactivated runs the body in a state that is active and
    whose current variable and system arrays, the ones [is_relevant] and
    [is_relevant_system] index, are the element-wise AND of the union of the
    per-seed arrays of F with the union of the per-seed arrays of R. *)
Theorem combined_relevance_is_and_of_unions
    model fwd_meta rev_meta st0 model' c o st (F R : list string) :
  fwd_meta ≠ [] → rev_meta ≠ [] →
  __init__ model fwd_meta rev_meta = Ok (st0, model') →
  exec c st0 = (o, st) →
  _active st ≠ Some false →
  F ≠ [] → R ≠ [] →
  list_to_set F ⊆ (_all_seed_vars st).1 →
  list_to_set R ⊆ (_all_seed_vars st).2 →
  ∃ st_in,
    (∀ A (body : M A),
       seeds_active (Some F) (Some R) body st
       = finally body (λ s, upd_active (_active st)
                              (upd_seed_vars (_seed_vars st) s)) st_in) ∧
    _active st_in = Some true ∧
    ∀ k, ∃ a, current k st_in = Some a ∧
              bits a = spec_relevance (table_len k st) (get_single k st).1
                                      (get_single k st).2
                                      (list_to_set F) (list_to_set R).
Proof.
  intros Hfm Hrm Hinit Hexec Hact HF HR HsF HsR.
  pose proof (reached_inv _ _ _ _ _ _ _ _ Hfm Hrm Hinit Hexec) as Hi.
  set (st1 := upd_active (Some true) st).
  assert (Hi1 : inv st1) by by apply steady_upd_active.
  destruct (set_seeds_total (list_to_set F) (list_to_set R) st1 Hi1)
    as (st' & va & sa & Hrun & Hs & Ha & Hseeds & Hva & Hsa & Hspec);
    [by apply list_to_set_nonempty|by apply list_to_set_nonempty|done|done|].
  exists st'. split; [|split].
  - intros A body. unfold seeds_active.
    rewrite bool_decide_false by done.
    fold st1. cbn zeta. rewrite bind_run. simpl in Hrun. by rewrite Hrun.
  - by rewrite Ha.
  - intros k. destruct k.
    + exists va. split; [done|]. by apply (Hspec Var).
    + exists sa. split; [done|]. by apply (Hspec Sys).
Qed.

(** *** Internal code leaves the activation state alone

    These hold for every state, constructed or not. *)

Lemma new_array_quiet b st :
  post (new_array b) st (λ _, quiet st) (quiet st).
Proof. unfold post, new_array. solve_frozen. Qed.

Lemma get_cached_quiet arr st :
  post (_get_cached_array arr) st (λ _, quiet st) (quiet st).
Proof.
  unfold post, _get_cached_array.
  destruct (_rel_array_cache st !! array_hash (bits arr)); solve_frozen.
Qed.

Lemma union_quiet m key st :
  post (_union_arrays m key) st (λ _, quiet st) (quiet st).
Proof.
  unfold _union_arrays.
  destruct (negb (key_truthy key)); [apply new_array_quiet|].
  destruct (key_iter key) as [|s0 rest]; [apply post_raise, quiet_refl|].
  apply post_bind, post_lift_opt; [|apply quiet_refl].
  intros arr _. apply post_bind.
  eapply post_mono; [apply new_array_quiet| |done].
  intros array st1 Hq1. simpl.
  apply (post_foldM _ (λ _, quiet st)); [done|].
  intros acc x st' _ Hq.
  apply post_bind, post_lift_opt; [|done]. intros arr' _.
  apply post_bind, post_lift; [|done]. intros b _. by apply post_ret.
Qed.

Lemma combine_quiet fm kf rm kr st :
  post (_combine_relevance fm kf rm kr) st (λ _, quiet st) (quiet st).
Proof.
  unfold _combine_relevance. apply post_bind.
  eapply post_mono; [apply union_quiet| |done].
  intros fa st1 Hq1. simpl. apply post_bind.
  eapply post_mono; [apply union_quiet| |intros ?; by apply quiet_trans].
  intros ra st2 Hq2. simpl.
  assert (Hq02 : quiet st st2) by by apply (quiet_trans _ st1).
  apply post_bind, post_lift; [|done]. intros b _.
  eapply post_mono; [apply get_cached_quiet| |intros ?; by apply quiet_trans].
  simpl. intros c st3 Hq3. by apply (quiet_trans _ st2).
Qed.

Lemma quiet_upd_seed_map k v st : quiet st (upd_seed_map k v st).
Proof. destruct k; solve_frozen. Qed.

Lemma get_rel_array_quiet k kf kr st :
  post (_get_rel_array k kf kr) st (λ _, quiet st) (quiet st).
Proof.
  unfold _get_rel_array. apply post_bind, post_gets.
  destruct (sm_lookup (get_seed_map k st) kf kr); [apply post_ret, quiet_refl|].
  apply post_bind, post_gets. apply post_bind.
  eapply post_mono; [apply combine_quiet| |done].
  simpl. intros relarr st1 Hq1. apply post_bind, post_gets.
  destruct (sm_top (get_seed_map k st1) !! kf) as [l|].
  - apply post_bind, post_ret. apply post_bind, post_modify. apply post_ret.
    apply (quiet_trans _ st1); [done|apply quiet_upd_seed_map].
  - unfold sm_new_sub. simpl.
    apply post_bind, post_bind, post_modify, post_ret.
    apply post_bind, post_modify, post_ret.
    apply (quiet_trans _ st1); [done|].
    eapply quiet_trans; apply quiet_upd_seed_map.
Qed.

Lemma iter_seed_pair_relevance_quiet fs rs inputs outputs st :
  post (iter_seed_pair_relevance fs rs inputs outputs) st
       (λ _, quiet st) (quiet st).
Proof.
  unfold iter_seed_pair_relevance.
  assert (Hmain : ∀ filt,
    post (fs0 ← gets (λ st, match fs with
                            | None => elements (_seed_vars st).1
                            | Some l => l
                            end);
          rs0 ← gets (λ st, match rs with
                            | None => elements (_seed_vars st).2
                            | Some l => l
                            end);
          foldM (λ acc seed,
            foldM (λ acc rseed,
              inter ← _get_rel_array Var (KStr seed) (KStr rseed);
              if np_any (bits inter) then
                var2idx ← (st ← gets _var2idx; lift_opt AttributeError st);
                g ← gets _graph;
                s ← lift (_apply_node_filter g
                            (_rel_names_iter (bits inter) var2idx true) filt);
                mret (acc ++ [(seed, rseed, s)])
              else mret acc)
            acc rs0)
          [] fs0) st (λ _, quiet st) (quiet st)).
  { intros filt. apply post_bind, post_gets. apply post_bind, post_gets.
    apply (post_foldM _ (λ _, quiet st)); [apply quiet_refl|].
    intros acc seed st1 _ Hq1.
    apply (post_foldM _ (λ _, quiet st)); [done|].
    intros acc' rseed st2 _ Hq2.
    apply post_bind.
    eapply post_mono; [apply get_rel_array_quiet| |].
    2:{ intros st'. by apply quiet_trans. }
    simpl. intros inter st3 Hq3.
    assert (Hq03 : quiet st st3) by by apply (quiet_trans _ st2).
    destruct (np_any (bits inter)); [|by apply post_ret].
    apply post_bind, post_bind, post_gets, post_lift_opt; [|done].
    intros var2idx _. apply post_bind, post_gets.
    apply post_bind, post_lift; [|done]. intros s _. by apply post_ret. }
  destruct (_get_io_filter inputs outputs); try apply Hmain.
  apply post_ret, quiet_refl.
Qed.

(** *** The permanently inactive engine *)

Lemma post_trivial {A} (m : M A) st : post m st (λ _ _, True) (λ _, True).
Proof. unfold post. by destruct (m st) as [[a|e] st']. Qed.

Lemma init_inactive model fwd_meta rev_meta st model' :
  fwd_meta = [] ∨ rev_meta = [] →
  __init__ model fwd_meta rev_meta = Ok (st, model') →
  _active st = Some false.
Proof.
  intros Hempty. unfold __init__.
  destruct (negb (bool_decide (pathname model = ""))); [done|].
  assert (Hpost : post (init_M model fwd_meta rev_meta)
                       (init_state (_dataflow_graph model))
                       (λ _ st', _active st' = Some false) (λ _, True)).
  { unfold init_M. apply post_bind.
    eapply post_mono; [apply post_trivial| |done].
    simpl. intros _ st1 _. apply post_bind, post_modify. apply post_bind, post_modify.
    apply post_bind, post_lift; [|done]. intros model1 _. apply post_bind.
    eapply post_mono; [apply post_trivial| |done].
    simpl. intros _ st2 _.
    destruct Hempty as [-> | ->].
    - apply post_bind, post_modify. by apply post_ret.
    - destruct fwd_meta; apply post_bind, post_modify; by apply post_ret. }
  unfold post in Hpost.
  destruct (init_M model fwd_meta rev_meta (init_state (_dataflow_graph model)))
    as [[m|e] st']; [|done].
  by intros [= <- <-].
Qed.

Lemma is_relevant_inactive name st :
  truthy (_active st) = false → is_relevant name st = (Ok true, st).
Proof. intros Ha. unfold is_relevant. by rewrite Ha. Qed.

Lemma is_relevant_system_inactive name st :
  truthy (_active st) = false → is_relevant_system name st = (Ok true, st).
Proof. intros Ha. unfold is_relevant_system. by rewrite Ha. Qed.

Lemma exec_inactive c :
  ∀ st, _active st = Some false →
        _active (exec c st).2 = Some false ∧
        Forall (λ b, b = true) (exec c st).1.2.
Proof.
  induction c; intros st Ha; cbn [exec].
  - done.
  - destruct (IHc1 st Ha) as [Ha1 Hl1].
    destruct (exec c1 st) as [[[[]|e] l1] st1]; [|done].
    destruct (IHc2 st1 Ha1) as [Ha2 Hl2].
    destruct (exec c2 st1) as [[r l2] st2]. simpl in *.
    split; [done|by apply Forall_app].
  - done.
  - destruct (IHc st Ha) as [Ha1 Hl1]. by destruct (exec c st) as [[r l] st'].
  - rewrite is_relevant_inactive by by rewrite Ha. simpl. by repeat constructor.
  - rewrite is_relevant_system_inactive by by rewrite Ha. simpl.
    by repeat constructor.
  - pose proof (filter_systems_state systems relevant st) as Hs.
    destruct (filter_systems systems relevant st) as [[l|e] st']; simpl in *;
      by subst.
  - by destruct (list_relevance relevant type st) as [[l|e] st'] eqn:Hl;
      injection Hl as _ <-.
  - pose proof (iter_seed_pair_relevance_quiet fwd_seeds rev_seeds inputs outputs
                  st) as Hq.
    unfold post in Hq.
    destruct (iter_seed_pair_relevance fwd_seeds rev_seeds inputs outputs st)
      as [[l|e] st']; simpl; (split; [|done]); by rewrite (q_active _ _ Hq).
  - unfold active. rewrite Ha. simpl. unfold as_body.
    destruct (IHc st Ha) as [Ha1 Hl1]. by destruct (exec c st) as [[r l] st'].
  - unfold seeds_active. rewrite bool_decide_true by done. unfold as_body.
    destruct (IHc st Ha) as [Ha1 Hl1]. by destruct (exec c st) as [[r l] st'].
  - unfold all_seeds_active. rewrite bool_decide_true by done. unfold as_body.
    destruct (IHc st Ha) as [Ha1 Hl1]. by destruct (exec c st) as [[r l] st'].
  - assert (Hbody : _active (of_scope (as_body (exec c) st)).2 = Some false ∧
                    Forall (λ b, b = true) (of_scope (as_body (exec c) st)).1.2).
    { unfold as_body. destruct (IHc st Ha) as [Ha1 Hl1].
      by destruct (exec c st) as [[r l] st']. }
    unfold activate_nonlinear. rewrite (bool_decide_true (_active st = Some false))
      by done. rewrite orb_true_r.
    destruct (_nonlinear_sets st) as [sets|]; [|done].
    by destruct (sets !! name).
Qed.

(** C2. An engine constructed with empty forward or empty reverse seed
    metadata stays inactive whatever client code does with it, and
    [is_relevant] and [is_relevant_system] answer [True] for every name,
    whether it is in the graph or not. *)
Theorem inactive_engine_always_relevant
    model fwd_meta rev_meta st0 model' c o st :
  fwd_meta = [] ∨ rev_meta = [] →
  __init__ model fwd_meta rev_meta = Ok (st0, model') →
  exec c st0 = (o, st) →
  _active st = Some false ∧
  Forall (λ b, b = true) o.2 ∧
  ∀ name, is_relevant name st = (Ok true, st) ∧
          is_relevant_system name st = (Ok true, st).
Proof.
  intros Hempty Hinit Hexec.
  pose proof (init_inactive _ _ _ _ _ Hempty Hinit) as Ha0.
  destruct (exec_inactive c st0 Ha0) as [Ha Hl]. rewrite Hexec in Ha, Hl.
  simpl in Ha, Hl. split; [done|]. split; [done|].
  intros name. split.
  - apply is_relevant_inactive. by rewrite Ha.
  - apply is_relevant_system_inactive. by rewrite Ha.
Qed.

(** *** Reference stability *)

Lemma new_array_only_cache b st :
  post (new_array b) st (λ _, only_cache st) (only_cache st).
Proof.
  unfold post, new_array, only_cache. split; [by destruct st|done].
Qed.

Lemma get_cached_only_cache arr st :
  post (_get_cached_array arr) st (λ _, only_cache st) (only_cache st).
Proof.
  unfold post, _get_cached_array.
  destruct (_rel_array_cache st !! array_hash (bits arr)) eqn:Hl;
    [apply only_cache_refl|].
  split; [by destruct st|]. simpl. by apply insert_subseteq.
Qed.

Lemma union_only_cache m key st :
  post (_union_arrays m key) st (λ _, only_cache st) (only_cache st).
Proof.
  unfold _union_arrays.
  destruct (negb (key_truthy key)); [apply new_array_only_cache|].
  destruct (key_iter key) as [|s0 rest]; [apply post_raise, only_cache_refl|].
  apply post_bind, post_lift_opt; [|apply only_cache_refl].
  intros arr _. apply post_bind.
  eapply post_mono; [apply new_array_only_cache| |done].
  intros array st1 Ho1. simpl.
  apply (post_foldM _ (λ _, only_cache st)); [done|].
  intros acc x st' _ Ho.
  apply post_bind, post_lift_opt; [|done]. intros arr' _.
  apply post_bind, post_lift; [|done]. intros b _. by apply post_ret.
Qed.

Lemma combine_only_cache fm kf rm kr st :
  post (_combine_relevance fm kf rm kr) st (λ _, only_cache st) (only_cache st).
Proof.
  unfold _combine_relevance. apply post_bind.
  eapply post_mono; [apply union_only_cache| |done].
  intros fa st1 Ho1. simpl. apply post_bind.
  eapply post_mono; [apply union_only_cache| |intros ?; by apply only_cache_trans].
  intros ra st2 Ho2. simpl.
  assert (Ho02 : only_cache st st2) by by apply (only_cache_trans _ st1).
  apply post_bind, post_lift; [|done]. intros b _.
  eapply post_mono;
    [apply get_cached_only_cache| |intros ?; by apply only_cache_trans].
  simpl. intros c st3 Ho3. by apply (only_cache_trans _ st2).
Qed.

(** A second request with the same keys returns the very array that the
    first request returned, and changes nothing. *)
Lemma get_rel_array_twice k kf kr st a st1 :
  range_ok (get_seed_map k st) →
  _get_rel_array k kf kr st = (Ok a, st1) →
  _get_rel_array k kf kr st1 = (Ok a, st1).
Proof.
  intros Hr Hrun.
  assert (Hhit : ∀ st2, sm_lookup (get_seed_map k st2) kf kr = Some a →
                        _get_rel_array k kf kr st2 = (Ok a, st2)).
  { intros st2 Hl. unfold _get_rel_array. rewrite bind_run. simpl.
    by rewrite Hl. }
  apply Hhit. revert Hrun. unfold _get_rel_array. rewrite bind_run. simpl.
  destruct (sm_lookup (get_seed_map k st) kf kr) as [a0|] eqn:Hlook.
  { by intros [= <- <-]. }
  rewrite bind_run. simpl. rewrite bind_run.
  pose proof (combine_only_cache (get_single k st).1 kf (get_single k st).2 kr st)
    as Hc. unfold post in Hc.
  destruct (_combine_relevance _ _ _ _ st) as [[relarr|e] st'] eqn:Hcomb;
    [|done].
  assert (Hsm : get_seed_map k st' = get_seed_map k st).
  { destruct (only_cache_fields _ _ Hc)
      as (_ & _ & _ & _ & _ & Hvm & Hsm & _). by destruct k. }
  rewrite bind_run. simpl. rewrite Hsm.
  destruct (sm_top (get_seed_map k st) !! kf) as [l|] eqn:Htop.
  - rewrite bind_run. simpl. rewrite bind_run. simpl.
    intros [= <- <-]. rewrite get_upd_seed_map, decide_True by done.
    rewrite Hsm. apply sm_lookup_store_hit; [done|by apply (Hr kf)].
  - unfold sm_new_sub. rewrite bind_run. simpl.
    intros [= <- <-]. rewrite !get_upd_seed_map, !decide_True by done.
    apply sm_lookup_store_hit; simpl.
    + apply lookup_insert_eq.
    + rewrite length_app. simpl. lia.
Qed.

(** Two arrays with the same contents that pass through the cache come out
    as one and the same array, as long as the cache only grew in between. *)
Lemma cached_is_canonical x y st st1 st2 st3 c1 c2 :
  _get_cached_array x st = (Ok c1, st1) →
  _rel_array_cache st1 ⊆ _rel_array_cache st2 →
  _get_cached_array y st2 = (Ok c2, st3) →
  bits x = bits y →
  c2 = c1.
Proof.
  unfold _get_cached_array. intros H1 Hsub H2 Hbits.
  assert (Hc1 : _rel_array_cache st1 !! array_hash (bits x) = Some c1).
  { destruct (_rel_array_cache st !! array_hash (bits x)) as [c|] eqn:Hl.
    - by injection H1 as <- <-.
    - injection H1 as <- <-. simpl. apply lookup_insert_eq. }
  rewrite <- Hbits in H2.
  rewrite (lookup_weaken _ _ _ _ Hc1 Hsub) in H2. by injection H2 as <- _.
Qed.


(** *** Scope exits *)

(** What the scoped activations do restore.  A scope that is entered puts
    back what it saved, however the body ended: [active] on a flag that is
    true puts the flag back; [seeds_active] and [all_seeds_active] on a flag
    that is not [False], once [_set_seeds] has returned, put the flag and
    the current seed sets back; [activate_nonlinear] for a known set, with
    [active] true and a flag that is not [False], puts the flag back.  In
    all other cases the scope is not entered and the call runs the body and
    nothing else: [active] on a flag that is [None] or [False],
    [seeds_active] and [all_seeds_active] on a flag that is [False],
    [activate_nonlinear] with [active] false, a flag that is [False] or a
    name that is in no set. *)
Lemma scopes_restore_flag_and_seeds {A} (body : M A) st :
  ((truthy (_active st) = true →
    ∀ b, _active (active b body st).2 = _active st) ∧
   (truthy (_active st) = false → ∀ b, active b body st = body st)) ∧
  ((_active st ≠ Some false →
    (∀ fs rs,
       let F := match fs with None => (_all_seed_vars st).1
                            | Some l => list_to_set l end in
       let R := match rs with None => (_all_seed_vars st).2
                            | Some l => list_to_set l end in
       is_ok (_set_seeds F R (upd_active (Some true) st)).1 = true →
       _active (seeds_active fs rs body st).2 = _active st ∧
       _seed_vars (seeds_active fs rs body st).2 = _seed_vars st) ∧
    (is_ok (_set_seeds (_all_seed_vars st).1 (_all_seed_vars st).2
                       (upd_active (Some true) st)).1 = true →
     _active (all_seeds_active body st).2 = _active st ∧
     _seed_vars (all_seeds_active body st).2 = _seed_vars st)) ∧
   (_active st = Some false →
    (∀ fs rs, seeds_active fs rs body st = body st) ∧
    all_seeds_active body st = body st)) ∧
  (∀ sets name,
     _nonlinear_sets st = Some sets →
     (_active st ≠ Some false → is_Some (sets !! name) →
      _active (activate_nonlinear name true body st).2 = _active st) ∧
     (∀ a, a = false ∨ _active st = Some false ∨ sets !! name = None →
           activate_nonlinear name a body st = body st)).
Proof.
  split; [|split].
  - split.
    + intros Ha b. unfold active. rewrite Ha. simpl. unfold finally.
      by destruct (body _) as [r st'].
    + intros Ha b. unfold active. by rewrite Ha.
  - split.
    + intros Ha. split.
      * intros fs rs F R Hok. unfold seeds_active.
        rewrite bool_decide_false by done. rewrite bind_run.
        change (_all_seed_vars (upd_active (Some true) st))
          with (_all_seed_vars st).
        unfold F, R in Hok.
        destruct (_set_seeds _ _ (upd_active (Some true) st)) as [[[]|e] st1];
          [|done].
        unfold finally. by destruct (body st1) as [r st'].
      * intros Hok. unfold all_seeds_active.
        rewrite bool_decide_false by done. rewrite bind_run.
        change (_all_seed_vars (upd_active (Some true) st))
          with (_all_seed_vars st).
        destruct (_set_seeds _ _ (upd_active (Some true) st)) as [[[]|e] st1];
          [|done].
        unfold finally. by destruct (body st1) as [r st'].
    + intros Ha. split.
      * intros fs rs. unfold seeds_active. by rewrite bool_decide_true.
      * unfold all_seeds_active. by rewrite bool_decide_true.
  - intros sets name Hsets. split.
    + intros Ha [arr Harr]. unfold activate_nonlinear.
      rewrite Hsets, Harr, bool_decide_false by done. simpl.
      unfold finally. by destruct (body _) as [r st'].
    + intros a Hcase. unfold activate_nonlinear. rewrite Hsets.
      destruct (sets !! name) as [arr|] eqn:Harr; [|done].
      destruct Hcase as [->|[Hf|Hn]]; [done| |done].
      rewrite (bool_decide_true (_active st = Some false)) by done.
      by rewrite orb_true_r.
Qed.

(** *** Queries on an active engine *)

Lemma index_of_None names n : n ∉ names → index_of names n = None.
Proof.
  induction names as [|m names IH]; [done|]. intros Hn. simpl.
  destruct (decide (n = m)) as [->|Hne]; [exfalso; apply Hn; by left|].
  rewrite IH; [done|]. intros Hin. apply Hn. by right.
Qed.

(** C10. On an active engine [is_relevant] and [is_relevant_system] raise
    [KeyError] for every name that is not in the variable (system) index
    table, and index the current array for the names that are; on an
    engine that is not active they return [True] for every name. *)
Theorem active_queries_need_known_names st name vnames snames :
  _var2idx st = Some vnames → _sys2idx st = Some snames →
  (truthy (_active st) = true →
   (name ∉ vnames → is_relevant name st = (Raise KeyError, st)) ∧
   (name ∉ snames → is_relevant_system name st = (Raise KeyError, st)) ∧
   (∀ i, index_of vnames name = Some i →
         is_relevant name st = (np_getitem (_current_rel_varray st) i, st)) ∧
   (∀ i, index_of snames name = Some i →
         is_relevant_system name st
         = (np_getitem (_current_rel_sarray st) i, st))) ∧
  (truthy (_active st) = false →
   is_relevant name st = (Ok true, st) ∧
   is_relevant_system name st = (Ok true, st)).
Proof.
  intros Hv Hs. split.
  - intros Ha. unfold is_relevant, is_relevant_system. rewrite Ha, Hv, Hs. simpl.
    repeat split.
    + intros Hn. by rewrite (index_of_None _ _ Hn).
    + intros Hn. by rewrite (index_of_None _ _ Hn).
    + by intros i ->.
    + by intros i ->.
  - intros Ha. split;
      [by apply is_relevant_inactive|by apply is_relevant_system_inactive].
Qed.

End engine_facts.

(** ** Canonical instances

    Every array that the engine holds on to is the array that the cache
    holds under the hash of its contents. *)

Section canonical_facts.
Context `{Helpers}.

Lemma canonical_mono st st' a :
  canonical st a → _rel_array_cache st ⊆ _rel_array_cache st' → canonical st' a.
Proof. unfold canonical. intros Ha Hsub. by eapply lookup_weaken. Qed.

Lemma grown_refl st : canon st → grown st st.
Proof. by split. Qed.

Lemma grown_trans st1 st2 st3 : grown st1 st2 → grown st2 st3 → grown st1 st3.
Proof. intros [_ ?] [? ?]. split; [done|by etrans]. Qed.

(** [canon] reads the cache, the per-seed arrays, the seed maps, the
    nonlinear sets and the two current arrays. *)
Lemma canon_ext st st' :
  _rel_array_cache st' = _rel_array_cache st →
  _seed_var_map st' = _seed_var_map st →
  _seed_sys_map st' = _seed_sys_map st →
  _single_seed2relvars st' = _single_seed2relvars st →
  _single_seed2relsys st' = _single_seed2relsys st →
  _nonlinear_sets st' = _nonlinear_sets st →
  _current_rel_varray st' = _current_rel_varray st →
  _current_rel_sarray st' = _current_rel_sarray st →
  canon st → canon st'.
Proof.
  intros Hc Hv Hs Hsv Hss Hn Hcv Hcs [Hcache Hheld Hsarr].
  assert (Hg : ∀ k, get_single k st' = get_single k st) by (by intros []).
  assert (Hm : ∀ k, get_seed_map k st' = get_seed_map k st) by (by intros []).
  assert (Hcan : ∀ a, canonical st a → canonical st' a).
  { intros a. unfold canonical. by rewrite Hc. }
  constructor.
  - unfold cache_ok. by rewrite Hc.
  - intros a Ha. apply Hcan, Hheld. unfold held in *.
    rewrite Hn, Hcv in Ha.
    destruct Ha as [(k & d & s & Ha)|[(k & l & sub & kr & Ha)|Ha]].
    + left. exists k, d, s. by rewrite <- Hg.
    + right. left. exists k, l, sub, kr. by rewrite <- Hm.
    + by right; right.
  - intros a. rewrite Hcs. intros Ha.
    destruct (Hsarr a Ha) as [?|Hi]; [left; by apply Hcan|right].
    unfold iter_array. by rewrite Hn.
Qed.


(** A step that keeps the nonlinear sets: what is held afterwards was held
    before or is canonical, and likewise for the current system array. *)
Lemma canon_step st st' :
  canon st →
  cache_ok st' →
  _rel_array_cache st ⊆ _rel_array_cache st' →
  _nonlinear_sets st' = _nonlinear_sets st →
  (∀ a, held st' a → held st a ∨ canonical st' a) →
  (∀ a, _current_rel_sarray st' = Some a →
        _current_rel_sarray st = Some a ∨ canonical st' a) →
  canon st'.
Proof.
  intros [Hcache Hheld Hsarr] Hc' Hsub Hn Hh Hs. constructor; [done|..].
  - intros a Ha. destruct (Hh a Ha) as [Hold|?]; [|done].
    by eapply canonical_mono; [apply Hheld|].
  - intros a Ha. destruct (Hs a Ha) as [Hold|?]; [|by left].
    destruct (Hsarr a Hold) as [?|Hi]; [left; by eapply canonical_mono|right].
    unfold iter_array. by rewrite Hn.
Qed.

Lemma canon_grown st st' : canon st → grown st st' → canon st'.
Proof. by intros _ [? _]. Qed.

Lemma new_array_canon b st :
  canon st → post (new_array b) st (λ _, grown st) (grown st).
Proof.
  intros Hc. unfold post, new_array. split; [|done].
  by eapply canon_ext; [..|exact Hc].
Qed.

Lemma get_cached_canon arr st :
  canon st →
  post (_get_cached_array arr) st
       (λ c st', grown st st' ∧ canonical st' c) (grown st).
Proof.
  intros Hc. unfold post, _get_cached_array.
  destruct (_rel_array_cache st !! array_hash (bits arr)) as [c|] eqn:Hl.
  - split; [by apply grown_refl|]. unfold canonical.
    by rewrite (cn_cache _ Hc _ _ Hl).
  - assert (Hsub : _rel_array_cache st
                   ⊆ <[array_hash (bits arr) := arr]> (_rel_array_cache st))
      by by apply insert_subseteq.
    split; [split; [|done]|].
    + apply (canon_step st); [done| |done|done| |].
      * intros h a. simpl. rewrite lookup_insert.
        case_decide; [by intros [= <-]|apply (cn_cache _ Hc)].
      * intros a Ha. left. unfold held in *.
        destruct Ha as [(k & d & s & Ha)|[(k & l & sub & kr & Ha)|Ha]].
        -- left. exists k, d, s. by destruct k.
        -- right. left. exists k, l, sub, kr. by destruct k.
        -- by right; right.
      * intros a Ha. by left.
    + unfold canonical. simpl. apply lookup_insert_eq.
Qed.

Lemma names2rel_canon names n idx st :
  canon st →
  post (_names2rel_array names n idx) st
       (λ c st', grown st st' ∧ canonical st' c) (grown st).
Proof.
  intros Hc. unfold _names2rel_array. apply post_bind.
  eapply post_mono; [by apply new_array_canon| |done].
  intros ra st1 Hg1. simpl. apply post_bind, post_lift; [|done].
  intros b _.
  eapply post_mono; [apply get_cached_canon, Hg1| |].
  - simpl. intros c st2 [Hg2 Hcan]. split; [by apply (grown_trans _ st1)|done].
  - intros st2. by apply grown_trans.
Qed.

Lemma union_canon m key st :
  canon st → post (_union_arrays m key) st (λ _, grown st) (grown st).
Proof.
  intros Hc. unfold _union_arrays.
  destruct (negb (key_truthy key)); [by apply new_array_canon|].
  destruct (key_iter key) as [|s0 rest]; [by apply post_raise, grown_refl|].
  apply post_bind, post_lift_opt; [|by apply grown_refl].
  intros arr _. apply post_bind.
  eapply post_mono; [by apply new_array_canon| |done].
  intros array st1 Hg1. simpl.
  apply (post_foldM _ (λ _, grown st)); [done|].
  intros acc x st' _ Hg.
  apply post_bind, post_lift_opt; [|done]. intros arr' _.
  apply post_bind, post_lift; [|done]. intros b _. by apply post_ret.
Qed.

Lemma combine_canon fm kf rm kr st :
  canon st →
  post (_combine_relevance fm kf rm kr) st
       (λ c st', grown st st' ∧ canonical st' c) (grown st).
Proof.
  intros Hc. unfold _combine_relevance. apply post_bind.
  eapply post_mono; [by apply union_canon| |done].
  intros fa st1 Hg1. simpl. apply post_bind.
  eapply post_mono; [apply union_canon, Hg1| |intros ?; by apply grown_trans].
  intros ra st2 Hg2. simpl.
  assert (Hg02 : grown st st2) by by apply (grown_trans _ st1).
  apply post_bind, post_lift; [|done]. intros b _.
  eapply post_mono;
    [apply get_cached_canon, Hg02| |intros ?; by apply grown_trans].
  simpl. intros c st3 [Hg3 Hcan]. split; [by apply (grown_trans _ st2)|done].
Qed.

(** Replacing a seed map by one whose entries are canonical. *)
Lemma canon_upd_seed_map k sm' st :
  canon st →
  (∀ l sub kr a, sm_subs sm' !! l = Some sub → sub !! kr = Some a →
                 canonical st a) →
  canon (upd_seed_map k sm' st).
Proof.
  intros Hc Hnew.
  apply (canon_step st);
    [done|destruct k; apply (cn_cache _ Hc)|by destruct k|by destruct k| |].
  - intros a [(k' & d & s & Ha)|[(k' & l & sub & kr & Hl & Ha)|Ha]].
    + left. left. exists k', d, s. by destruct k, k'.
    + rewrite get_upd_seed_map in Hl. case_decide as Hk.
      * right. unfold canonical.
        replace (_rel_array_cache (upd_seed_map k sm' st))
          with (_rel_array_cache st) by by destruct k.
        by apply (Hnew l sub kr).
      * left. right. left. by exists k', l, sub, kr.
    + left. right. right. by destruct k.
  - intros a Ha. left. by destruct k.
Qed.

Lemma canon_new_sub k kfs st :
  canon st → canon (upd_seed_map k (sm_new_sub (get_seed_map k st) kfs).1 st).
Proof.
  intros Hc. apply canon_upd_seed_map; [done|].
  intros l sub kr a Hl Ha. simpl in Hl.
  apply lookup_app_Some in Hl as [Hl|[_ Hl]].
  - apply (cn_held _ Hc). right. left. by exists k, l, sub, kr.
  - apply list_lookup_singleton_Some in Hl as [_ <-]. by rewrite lookup_empty in Ha.
Qed.

Lemma canon_store_at k l kr a st :
  canon st → canonical st a →
  canon (upd_seed_map k (sm_store_at (get_seed_map k st) l kr a) st).
Proof.
  intros Hc Hcan. apply canon_upd_seed_map; [done|].
  intros l' sub kr' a' Hl Ha. simpl in Hl.
  destruct (decide (l' = l)) as [->|Hne].
  - rewrite list_lookup_alter_eq in Hl.
    destruct (sm_subs (get_seed_map k st) !! l) as [sub0|] eqn:Hsub0; [|done].
    simpl in Hl. injection Hl as <-.
    rewrite lookup_insert in Ha. case_decide.
    + by injection Ha as <-.
    + apply (cn_held _ Hc). right. left. by exists k, l, sub0, kr'.
  - rewrite list_lookup_alter_ne in Hl by done.
    apply (cn_held _ Hc). right. left. by exists k, l', sub, kr'.
Qed.

Lemma get_rel_array_canon k kf kr st :
  canon st →
  post (_get_rel_array k kf kr) st
       (λ a st', grown st st' ∧ canonical st' a) (grown st).
Proof.
  intros Hc. unfold _get_rel_array. apply post_bind, post_gets.
  destruct (sm_lookup (get_seed_map k st) kf kr) as [a|] eqn:Hlook.
  { apply post_ret. split; [by apply grown_refl|].
    apply (cn_held _ Hc). right. left.
    unfold sm_lookup, sm_sub in Hlook.
    destruct (sm_top (get_seed_map k st) !! kf) as [l|]; [|done]. simpl in Hlook.
    destruct (sm_subs (get_seed_map k st) !! l) as [sub|] eqn:Hsub; [|done].
    by exists k, l, sub, kr. }
  apply post_bind, post_gets. apply post_bind.
  eapply post_mono; [by apply combine_canon| |done].
  simpl. intros relarr st1 [Hg1 Hcan1].
  apply post_bind, post_gets. apply post_bind.
  assert (Hstore : ∀ l st2, grown st st2 → canonical st2 relarr →
            post (modify (λ st0, upd_seed_map k
                            (sm_store_at (get_seed_map k st0) l kr relarr) st0);;
                  mret relarr) st2
                 (λ a st', grown st st' ∧ canonical st' a) (grown st)).
  { intros l st2 Hg2 Hcan2. apply post_bind, post_modify, post_ret.
    assert (Hc3 : canon (upd_seed_map k
                           (sm_store_at (get_seed_map k st2) l kr relarr) st2))
      by by apply canon_store_at; [apply Hg2|].
    split; [split; [done|]|].
    - destruct Hg2 as [_ Hsub]. by destruct k.
    - unfold canonical in *. by destruct k. }
  destruct (sm_top (get_seed_map k st1) !! kf) as [l|].
  - apply post_ret. by apply Hstore.
  - unfold sm_new_sub. apply post_bind, post_modify, post_ret.
    apply Hstore.
    + split; [apply (canon_new_sub k [kf]), Hg1|].
      destruct Hg1 as [_ Hsub]. by destruct k.
    + unfold canonical in *. by destruct k.
Qed.

(** *** Client code keeps the arrays canonical *)

Lemma canon_upd_active v st : canon st → canon (upd_active v st).
Proof. intros Hc. by eapply canon_ext; [..|exact Hc]. Qed.

Lemma canon_upd_seed_vars v st : canon st → canon (upd_seed_vars v st).
Proof. intros Hc. by eapply canon_ext; [..|exact Hc]. Qed.

Lemma canon_upd_current_rel_varray a st :
  canon st → canonical st a → canon (upd_current_rel_varray (Some a) st).
Proof.
  intros Hc Hcan. apply (canon_step st); [done|apply (cn_cache _ Hc)|done..| |].
  - intros b [Hb|[Hb|[Hb|Hb]]]; [left; by left|left; right; by left
                                  |left; right; right; by left|].
    right. simpl in Hb. by injection Hb as <-.
  - intros b Hb. by left.
Qed.

Lemma canon_upd_current_rel_sarray a st :
  canon st → canonical st a ∨ iter_array st a →
  canon (upd_current_rel_sarray (Some a) st).
Proof.
  intros Hc Hcan. constructor.
  - apply (cn_cache _ Hc).
  - intros b Hb. apply (cn_held _ Hc b).
    destruct Hb as [Hb|[Hb|[Hb|Hb]]]; [by left|right; by left
                                       |right; right; by left|by right; right; right].
  - intros b Hb. simpl in Hb. by injection Hb as <-.
Qed.

Lemma set_seeds_canon (F R : gset string) st :
  canon st → post (_set_seeds F R) st (λ _, canon) canon.
Proof.
  intros Hc. unfold _set_seeds. apply post_bind, post_modify.
  assert (Hc0 : canon (upd_seed_vars (F, R) st)) by by apply canon_upd_seed_vars.
  destruct (key_truthy (KSet F) && key_truthy (KSet R)); [|by apply post_ret].
  apply post_bind.
  eapply post_mono; [by apply get_rel_array_canon| |by intros ? [? _]].
  simpl. intros va st1 [[Hc1 _] Hva].
  apply post_bind, post_modify.
  assert (Hc2 : canon (upd_current_rel_varray (Some va) st1))
    by by apply canon_upd_current_rel_varray.
  apply post_bind.
  eapply post_mono; [by apply get_rel_array_canon| |by intros ? [? _]].
  simpl. intros sa st3 [[Hc3 _] Hsa]. apply post_modify.
  apply canon_upd_current_rel_sarray; [done|by left].
Qed.

Section scopes_canon.
Context {A : Type} (body : M A).
Context (Hbody : ∀ st, canon st → canon (body st).2).

Lemma finally_canon (cleanup : Relevance → Relevance) st :
  canon st → (∀ st', canon st' → canon (cleanup st')) →
  canon (finally body cleanup st).2.
Proof.
  intros Hc Hcl. unfold finally. specialize (Hbody st Hc).
  destruct (body st) as [r st']. by apply Hcl.
Qed.

Lemma active_canon b st : canon st → canon (active b body st).2.
Proof.
  intros Hc. unfold active.
  destruct (negb (truthy (_active st))); [by apply Hbody|].
  apply finally_canon; [by apply canon_upd_active|].
  intros st' Hc'. by apply canon_upd_active.
Qed.

Lemma set_then_body_canon (F R : gset string) save save_active st :
  canon st →
  canon ((_set_seeds F R;;
           finally body (λ st, upd_active save_active (upd_seed_vars save st)))
            st).2.
Proof.
  intros Hc. apply post_state. apply post_bind.
  eapply post_mono; [by apply set_seeds_canon| |done].
  simpl. intros _ st1 Hc1. apply post_state.
  apply finally_canon; [done|].
  intros st' Hc'. by apply canon_upd_active, canon_upd_seed_vars.
Qed.

Lemma seeds_active_canon fs rs st :
  canon st → canon (seeds_active fs rs body st).2.
Proof.
  intros Hc. unfold seeds_active.
  destruct (bool_decide (_active st = Some false)); [by apply Hbody|].
  apply set_then_body_canon. by apply canon_upd_active.
Qed.

Lemma all_seeds_active_canon st :
  canon st → canon (all_seeds_active body st).2.
Proof.
  intros Hc. unfold all_seeds_active.
  destruct (bool_decide (_active st = Some false)); [by apply Hbody|].
  apply set_then_body_canon. by apply canon_upd_active.
Qed.

Lemma activate_nonlinear_canon name a st :
  canon st → canon (activate_nonlinear name a body st).2.
Proof.
  intros Hc. unfold activate_nonlinear.
  destruct (_nonlinear_sets st) as [sets|] eqn:Hsets.
  - destruct (sets !! name) as [arr|] eqn:Harr; [|by apply Hbody].
    destruct (negb a || bool_decide (_active st = Some false)); [by apply Hbody|].
    apply finally_canon; [|intros st' Hc'; by apply canon_upd_active].
    apply canon_upd_current_rel_sarray; [by apply canon_upd_active|].
    destruct (decide (name = "iter")) as [->|Hne].
    + right. by exists sets.
    + left. apply (cn_held _ Hc). right. right. left. by exists sets, name.
  - by destruct (negb a || bool_decide (_active st = Some false));
      [apply Hbody|].
Qed.

End scopes_canon.

Lemma iter_seed_pair_relevance_canon fs rs inputs outputs st :
  canon st →
  post (iter_seed_pair_relevance fs rs inputs outputs) st (λ _, canon) canon.
Proof.
  intros Hc. unfold iter_seed_pair_relevance.
  assert (Hmain : ∀ filt,
    post (fs0 ← gets (λ st, match fs with
                            | None => elements (_seed_vars st).1
                            | Some l => l
                            end);
          rs0 ← gets (λ st, match rs with
                            | None => elements (_seed_vars st).2
                            | Some l => l
                            end);
          foldM (λ acc seed,
            foldM (λ acc rseed,
              inter ← _get_rel_array Var (KStr seed) (KStr rseed);
              if np_any (bits inter) then
                var2idx ← (st ← gets _var2idx; lift_opt AttributeError st);
                g ← gets _graph;
                s ← lift (_apply_node_filter g
                            (_rel_names_iter (bits inter) var2idx true) filt);
                mret (acc ++ [(seed, rseed, s)])
              else mret acc)
            acc rs0)
          [] fs0) st (λ _, canon) canon).
  { intros filt. apply post_bind, post_gets. apply post_bind, post_gets.
    apply (post_foldM _ (λ _, canon)); [done|].
    intros acc seed st1 _ Hc1.
    apply (post_foldM _ (λ _, canon)); [done|].
    intros acc' rseed st2 _ Hc2.
    apply post_bind.
    eapply post_mono; [by apply get_rel_array_canon| |by intros ? [? _]].
    simpl. intros inter st3 [[Hc3 _] _].
    destruct (np_any (bits inter)); [|by apply post_ret].
    apply post_bind, post_bind, post_gets, post_lift_opt; [|done].
    intros var2idx _. apply post_bind, post_gets.
    apply post_bind, post_lift; [|done]. intros s _. by apply post_ret. }
  destruct (_get_io_filter inputs outputs); try apply Hmain.
  by apply post_ret.
Qed.

Lemma exec_canon c : ∀ st, canon st → canon (exec c st).2.
Proof.
  induction c; intros st Hc; cbn [exec].
  - done.
  - specialize (IHc1 st Hc). destruct (exec c1 st) as [[[[]|e] l1] st1]; [|done].
    specialize (IHc2 st1 IHc1).
    by destruct (exec c2 st1) as [[r l2] st2].
  - done.
  - specialize (IHc st Hc). by destruct (exec c st) as [[r l] st'].
  - by rewrite of_query_state, is_relevant_state.
  - by rewrite of_query_state, is_relevant_system_state.
  - by rewrite of_query_state, filter_systems_state.
  - by rewrite of_query_state, list_relevance_state.
  - rewrite of_query_state. apply post_state.
    by apply iter_seed_pair_relevance_canon.
  - rewrite of_scope_state. apply active_canon; [|done].
    intros st1 Hc1. rewrite as_body_state. by apply IHc.
  - rewrite of_scope_state. apply seeds_active_canon; [|done].
    intros st1 Hc1. rewrite as_body_state. by apply IHc.
  - rewrite of_scope_state. apply all_seeds_active_canon; [|done].
    intros st1 Hc1. rewrite as_body_state. by apply IHc.
  - rewrite of_scope_state. apply activate_nonlinear_canon; [|done].
    intros st1 Hc1. rewrite as_body_state. by apply IHc.
Qed.

(** *** The construction makes the arrays canonical *)

Lemma od_elem_set {K V} `{EqDecision K} (d : list (K * V)) k v k' v' :
  (k', v') ∈ OD.set d k v → (k', v') = (k, v) ∨ (k', v') ∈ d.
Proof.
  induction d as [|[k0 v0] d IH]; simpl.
  - intros ->%list_elem_of_singleton. by left.
  - destruct (decide (k = k0)) as [->|Hne].
    + intros [->|Hin]%elem_of_cons; [by left|right; by right].
    + intros [->|Hin]%elem_of_cons; [right; by left|].
      destruct (IH Hin) as [?|?]; [by left|right; by right].
Qed.

Lemma canon_upd_single k v st :
  canon st →
  (∀ d s a, (s, a) ∈ dir_get v d → canonical st a) →
  canon (upd_single k v st).
Proof.
  intros Hc Hnew.
  apply (canon_step st);
    [done|destruct k; apply (cn_cache _ Hc)|by destruct k|by destruct k| |].
  - intros a [(k' & d & s & Ha)|[(k' & l & sub & kr & Hl & Ha)|Ha]].
    + rewrite get_upd_single in Ha. case_decide as Hk.
      * right. unfold canonical.
        replace (_rel_array_cache (upd_single k v st))
          with (_rel_array_cache st) by by destruct k.
        by apply (Hnew d s).
      * left. left. by exists k', d, s.
    + left. right. left. exists k', l, sub, kr. by destruct k, k'.
    + left. right. right. by destruct k.
  - intros a Ha. left. by destruct k.
Qed.

Lemma set_single_canon k d seed a st :
  canon st → canonical st a →
  post (set_single k d seed a) st (λ _, grown st) (λ _, True).
Proof.
  intros Hc Hcan. unfold set_single. apply post_modify.
  split; [|by destruct k].
  apply canon_upd_single; [done|].
  intros d' s b. rewrite dir_get_set. case_decide as Hd.
  - intros [[= -> ->]|Hin]%od_elem_set; [done|].
    apply (cn_held _ Hc). left. exists k, d, s. by subst d'.
  - intros Hin. apply (cn_held _ Hc). left. by exists k, d', s.
Qed.

Lemma dependent_nodes_canon start d lo st :
  canon st → post (dependent_nodes_M start d lo) st (λ _ st', st' = st) (λ _, True).
Proof.
  intros Hc. unfold dependent_nodes_M. apply post_bind, post_gets.
  destruct (_dependent_nodes _ _ _ _) as [r|]; [by apply post_lift|done].
Qed.

Lemma single_seed_arrays_canon nprocs m io all_systems all_vars st :
  canon st →
  post (single_seed_arrays nprocs m io all_systems all_vars) st
       (λ _, grown st) (λ _, True).
Proof.
  intros Hc. unfold single_seed_arrays. apply post_bind.
  eapply post_mono; [by apply dependent_nodes_canon| |done].
  simpl. intros depnodes st0 ->.
  apply post_bind, post_bind, post_gets, post_lift_opt; [|done].
  intros var2idx _. apply post_bind.
  eapply post_mono; [by apply names2rel_canon| |done].
  simpl. intros va st1 [Hg1 _].
  apply post_bind, post_bind, post_gets, post_lift_opt; [|done].
  intros sys2idx _. apply post_bind.
  eapply post_mono; [apply names2rel_canon, Hg1| |done].
  simpl. intros sa st2 [Hg2 _]. apply post_ret. by apply (grown_trans _ st1).
Qed.

Lemma record_seed_canon nprocs all_systems all_vars io hpd m st :
  canon st →
  post (record_seed nprocs all_systems all_vars io hpd m) st
       (λ _, grown st) (λ _, True).
Proof.
  intros Hc. unfold record_seed. apply post_bind.
  eapply post_mono; [by apply single_seed_arrays_canon| |done].
  simpl. intros [[[seed local] var_array] sys_array] st1 Hg1.
  apply post_bind.
  eapply post_mono; [apply get_cached_canon, Hg1| |done].
  simpl. intros va st2 [Hg2 Hva]. apply post_bind.
  eapply post_mono; [apply set_single_canon; [apply Hg2|done]| |done].
  simpl. intros _ st3 Hg3. apply post_bind.
  eapply post_mono; [apply get_cached_canon, Hg3| |done].
  simpl. intros sa st4 [Hg4 Hsa]. apply post_bind.
  eapply post_mono; [apply set_single_canon; [apply Hg4|done]| |done].
  simpl. intros _ st5 Hg5. apply post_ret.
  apply (grown_trans _ st1); [done|]. apply (grown_trans _ st2); [done|].
  apply (grown_trans _ st3); [done|]. by apply (grown_trans _ st4).
Qed.

Lemma compute_single_arrays_canon nprocs fwd_meta rev_meta all_systems all_vars st :
  canon st →
  post (compute_single_arrays nprocs fwd_meta rev_meta all_systems all_vars) st
       (λ _, canon) (λ _, True).
Proof.
  intros Hc. unfold compute_single_arrays.
  apply (post_foldM _ (λ _, canon)); [done|].
  intros hpd io st1 _ Hc1.
  apply (post_foldM _ (λ _, canon)); [done|].
  intros hpd' m st2 _ Hc2.
  eapply post_mono; [by apply record_seed_canon|by intros ? ? [? _]|done].
Qed.

Lemma cached_and_canon a b st :
  canon st →
  post (cached_and a b) st (λ c st', grown st st' ∧ canonical st' c) (λ _, True).
Proof.
  intros Hc. unfold cached_and. apply post_bind, post_lift; [|done].
  intros bs _. apply post_bind.
  eapply post_mono; [by apply new_array_canon| |done].
  simpl. intros c st1 Hg1.
  eapply post_mono; [apply get_cached_canon, Hg1| |done].
  simpl. intros c' st2 [Hg2 Hcan]. split; [by apply (grown_trans _ st1)|done].
Qed.

Lemma canonical_upd_seed_map k sm st a :
  canonical (upd_seed_map k sm st) a ↔ canonical st a.
Proof. unfold canonical. by destruct k. Qed.

Lemma new_sub_canon k kfs st :
  canon st → post (new_sub k kfs) st (λ _, grown st) (λ _, True).
Proof.
  intros Hc. unfold new_sub. apply post_bind, post_gets.
  unfold sm_new_sub. apply post_bind, post_modify, post_ret.
  split; [by apply (canon_new_sub k kfs)|by destruct k].
Qed.

Lemma store_at_canon k l krs a st :
  canon st → canonical st a →
  post (store_at k l krs a) st (λ _, grown st) (λ _, True).
Proof.
  intros Hc Hcan. unfold store_at.
  eapply post_mono.
  - apply (post_forM_ _ (λ st', grown st st' ∧ canonical st' a) (λ _, True)).
    + split; [by apply grown_refl|done].
    + intros kr st1 _ [Hg1 Hcan1]. apply post_modify. split.
      * apply (grown_trans _ st1); [done|].
        split; [by apply canon_store_at; [apply Hg1|]|by destruct k].
      * by apply canonical_upd_seed_map.
  - by intros _ st' [? _].
  - done.
Qed.

Lemma store_under_canon k kf kr a st :
  canon st → canonical st a →
  post (store_under k kf kr a) st (λ _, grown st) (λ _, True).
Proof.
  intros Hc Hcan. unfold store_under. apply post_bind, post_gets.
  apply post_bind, post_lift_opt; [|done]. intros l _.
  by apply store_at_canon.
Qed.

Lemma get_single_arr_canon k d s st :
  canon st → post (get_single_arr k d s) st (λ _ st', st' = st) (λ _, True).
Proof.
  intros Hc. unfold get_single_arr. apply post_bind, post_gets.
  by apply post_lift_opt.
Qed.

Lemma fill_pair_canon vsub ssub fvarr fsarr r st :
  canon st →
  post (fill_pair vsub ssub fvarr fsarr r) st (λ _, canon) (λ _, True).
Proof.
  intros Hc. unfold fill_pair. destruct r as [rsrc rvarr]. apply post_bind.
  eapply post_mono; [by apply get_single_arr_canon| |done].
  simpl. intros rsysarr st0 ->. apply post_bind.
  eapply post_mono; [by apply cached_and_canon| |done].
  simpl. intros a st1 [Hg1 Ha]. apply post_bind.
  eapply post_mono; [apply store_at_canon; [apply Hg1|done]| |done].
  simpl. intros _ st2 Hg2. apply post_bind.
  eapply post_mono; [apply cached_and_canon, Hg2| |done].
  simpl. intros b st3 [Hg3 Hb].
  eapply post_mono; [apply store_at_canon; [apply Hg3|done]| |done].
  by intros _ st4 [? _].
Qed.

Lemma fill_pairs_of_canon f st :
  canon st → post (fill_pairs_of f) st (λ _, canon) (λ _, True).
Proof.
  intros Hc. unfold fill_pairs_of. destruct f as [fseed fvarr]. apply post_bind.
  eapply post_mono; [by apply get_single_arr_canon| |done].
  simpl. intros fsarr st0 ->. apply post_bind.
  eapply post_mono; [by apply new_sub_canon| |done].
  simpl. intros vsub st1 Hg1. apply post_bind.
  eapply post_mono; [apply new_sub_canon, Hg1| |done].
  simpl. intros ssub st2 Hg2. apply post_bind, post_gets.
  apply (post_forM_ _ canon); [apply Hg2|].
  intros r st3 _ Hc3. by apply fill_pair_canon.
Qed.

Lemma fill_all_rev_canon (rev_seeds : gset string) all_rv all_rs f st :
  canon st →
  post (fill_all_rev rev_seeds all_rv all_rs f) st (λ _, canon) (λ _, True).
Proof.
  intros Hc. unfold fill_all_rev. destruct f as [fsrc farr]. apply post_bind.
  eapply post_mono; [by apply get_single_arr_canon| |done].
  simpl. intros fsysarr st0 ->. apply post_bind.
  eapply post_mono; [by apply cached_and_canon| |done].
  simpl. intros a st1 [Hg1 Ha]. apply post_bind.
  eapply post_mono; [apply store_under_canon; [apply Hg1|done]| |done].
  simpl. intros _ st2 Hg2. apply post_bind.
  eapply post_mono; [apply cached_and_canon, Hg2| |done].
  simpl. intros b st3 [Hg3 Hb].
  eapply post_mono; [apply store_under_canon; [apply Hg3|done]| |done].
  by intros _ st4 [? _].
Qed.

Lemma fill_all_fwd_canon (fwd_seeds : gset string) all_fv all_fs r st :
  canon st →
  post (fill_all_fwd fwd_seeds all_fv all_fs r) st (λ _, canon) (λ _, True).
Proof.
  intros Hc. unfold fill_all_fwd. destruct r as [rsrc rarr]. apply post_bind.
  eapply post_mono; [by apply get_single_arr_canon| |done].
  simpl. intros rsysarr st0 ->. apply post_bind.
  eapply post_mono; [by apply cached_and_canon| |done].
  simpl. intros a st1 [Hg1 Ha]. apply post_bind.
  eapply post_mono; [apply store_under_canon; [apply Hg1|done]| |done].
  simpl. intros _ st2 Hg2. apply post_bind.
  eapply post_mono; [apply cached_and_canon, Hg2| |done].
  simpl. intros b st3 [Hg3 Hb].
  eapply post_mono; [apply store_under_canon; [apply Hg3|done]| |done].
  by intros _ st4 [? _].
Qed.

Lemma union_canon' m key st :
  canon st → post (_union_arrays m key) st (λ _, canon) (λ _, True).
Proof.
  intros Hc.
  eapply post_mono; [by apply union_canon|by intros ? ? [? _]|done].
Qed.

Lemma fill_seed_maps_canon (fwd_seeds rev_seeds : gset string) st :
  canon st → post (fill_seed_maps fwd_seeds rev_seeds) st (λ _, canon) (λ _, True).
Proof.
  intros Hc. unfold fill_seed_maps, single_items.
  apply post_bind, post_gets. apply post_bind.
  eapply post_mono;
    [apply (post_forM_ _ canon (λ _, True)); [done|]| |done].
  { intros f st1 _ Hc1. by apply fill_pairs_of_canon. }
  simpl. intros _ st1 Hc1.
  apply post_bind, post_gets. apply post_bind, post_gets.
  apply post_bind. eapply post_mono; [by apply union_canon'| |done].
  simpl. intros all_fv st2 Hc2.
  apply post_bind. eapply post_mono; [by apply union_canon'| |done].
  simpl. intros all_fs st3 Hc3.
  apply post_bind. eapply post_mono; [by apply union_canon'| |done].
  simpl. intros all_rv st4 Hc4.
  apply post_bind. eapply post_mono; [by apply union_canon'| |done].
  simpl. intros all_rs st5 Hc5.
  apply post_bind, post_gets. apply post_bind.
  eapply post_mono;
    [apply (post_forM_ _ canon (λ _, True)); [done|]| |done].
  { intros f st6 _ Hc6. by apply fill_all_rev_canon. }
  simpl. intros _ st6 Hc6. apply post_bind.
  eapply post_mono; [by apply new_sub_canon| |done].
  simpl. intros vall st7 [Hc7 _]. apply post_bind.
  eapply post_mono; [by apply new_sub_canon| |done].
  simpl. intros sall st8 [Hc8 _]. apply post_bind, post_gets. apply post_bind.
  eapply post_mono;
    [apply (post_forM_ _ canon (λ _, True)); [done|]| |done].
  { intros r st9 _ Hc9. by apply fill_all_fwd_canon. }
  simpl. intros _ st9 Hc9. apply post_bind.
  eapply post_mono; [by apply cached_and_canon| |done].
  simpl. intros a st10 [Hg10 Ha]. apply post_bind.
  eapply post_mono; [apply store_under_canon; [apply Hg10|done]| |done].
  simpl. intros _ st11 Hg11. apply post_bind.
  eapply post_mono; [apply cached_and_canon, Hg11| |done].
  simpl. intros b st12 [Hg12 Hb].
  eapply post_mono; [apply store_under_canon; [apply Hg12|done]| |done].
  by intros _ st13 [? _].
Qed.

Lemma par_deriv_err_check_canon group responses desvars st :
  canon st →
  post (_par_deriv_err_check group responses desvars) st (λ _, canon) (λ _, True).
Proof.
  intros Hc. unfold _par_deriv_err_check. apply post_bind, post_gets.
  apply post_bind.
  eapply post_mono with (Q := λ _, canon) (E := λ _, True).
  - destruct (bool_decide (mode group = "fwd") || bool_decide (mode group = "auto"));
      [|by apply post_ret].
    apply post_bind.
    eapply post_mono; [by apply iter_seed_pair_relevance_canon| |done].
    simpl. intros items st1 Hc1. by apply post_lift.
  - simpl. intros pd st1 Hc1. apply post_bind.
    eapply post_mono with (Q := λ _, canon) (E := λ _, True).
    + destruct (bool_decide (mode group = "rev") || bool_decide (mode group = "auto"));
        [|by apply post_ret].
      apply post_bind.
      eapply post_mono; [by apply iter_seed_pair_relevance_canon| |done].
      simpl. intros items st2 Hc2. by apply post_lift.
    + simpl. intros pd' st2 Hc2.
      by destruct (overlap_msgs _ _); [apply post_ret|apply post_raise].
    + done.
  - done.
Qed.

Lemma unrestricted_arrays_canon hpd all_systems all_vars items st :
  canon st →
  post (unrestricted_arrays hpd all_systems all_vars items) st
       (λ _, canon) (λ _, True).
Proof.
  intros Hc. unfold unrestricted_arrays.
  apply (post_foldM _ (λ _, canon)); [done|].
  intros arrs [src arr] st1 _ Hc1. apply post_bind.
  eapply post_mono with (Q := λ _, canon) (E := λ _, True).
  - destruct (OD.get hpd src) as [d|]; [|by apply post_ret].
    apply post_bind.
    eapply post_mono; [by apply dependent_nodes_canon| |done].
    simpl. intros depnodes st0 ->.
    apply post_bind, post_bind, post_gets, post_lift_opt; [|done].
    intros var2idx _.
    eapply post_mono; [by apply names2rel_canon|by intros ? ? [[? _] _]|done].
  - simpl. intros arr' st2 Hc2. by apply post_ret.
  - done.
Qed.

Lemma canon_upd_no_dv_responses v st : canon st → canon (upd_no_dv_responses v st).
Proof. intros Hc. by eapply canon_ext; [..|exact Hc]. Qed.

Lemma scan_no_dv_responses_canon allfarrs rarrs st :
  canon st →
  post (scan_no_dv_responses allfarrs rarrs) st (λ _, canon) (λ _, True).
Proof.
  intros Hc. unfold scan_no_dv_responses. apply post_bind, post_modify.
  apply (post_forM_ _ canon); [by apply canon_upd_no_dv_responses|].
  intros [rsrc rarr] st1 _ Hc1.
  apply post_bind, post_lift; [|done]. intros bs _. apply post_bind.
  eapply post_mono; [by apply new_array_canon| |done].
  simpl. intros both st2 [Hc2 _].
  apply post_bind, post_bind, post_gets, post_lift_opt; [|done].
  intros var2idx _. apply post_bind, post_lift_opt; [|done]. intros i _.
  apply post_bind, post_lift; [|done]. intros hit _.
  destruct hit; [by apply post_ret|].
  by apply post_modify, canon_upd_no_dv_responses.
Qed.

Lemma finish_seeds_canon group fwd_meta rev_meta (fwd_seeds rev_seeds : gset string)
    all_systems all_vars hpd st :
  canon st →
  post (finish_seeds group fwd_meta rev_meta fwd_seeds rev_seeds
                     all_systems all_vars hpd) st (λ _, canon) (λ _, True).
Proof.
  intros Hc. unfold finish_seeds, single_items. apply post_bind.
  eapply post_mono; [by apply set_seeds_canon| |done].
  simpl. intros _ st1 Hc1. apply post_bind.
  eapply post_mono with (Q := λ _, canon) (E := λ _, True).
  - destruct hpd; [by apply post_ret|by apply par_deriv_err_check_canon].
  - simpl. intros _ st2 Hc2. apply post_bind, post_gets. apply post_bind.
    eapply post_mono; [by apply unrestricted_arrays_canon| |done].
    simpl. intros farrs st3 Hc3. apply post_bind, post_gets. apply post_bind.
    eapply post_mono; [by apply unrestricted_arrays_canon| |done].
    simpl. intros rarrs st4 Hc4. apply post_bind.
    eapply post_mono; [by apply union_canon'| |done].
    simpl. intros allfarrs st5 Hc5. by apply scan_no_dv_responses_canon.
  - done.
Qed.

Lemma canon_upd_all_seed_vars v st : canon st → canon (upd_all_seed_vars v st).
Proof. intros Hc. by eapply canon_ext; [..|exact Hc]. Qed.

Lemma canon_upd_tables s si vi st : canon st → canon (upd_tables s si vi st).
Proof. intros Hc. by eapply canon_ext; [..|exact Hc]. Qed.

Lemma set_all_seeds_canon group fwd_meta rev_meta st :
  canon st →
  post (_set_all_seeds group fwd_meta rev_meta) st (λ _, canon) (λ _, True).
Proof.
  intros Hc. unfold _set_all_seeds.
  apply post_bind, post_modify.
  assert (Hc1 : canon (upd_seed_var_map sm_empty st)).
  { apply (canon_upd_seed_map Var); [done|]. intros l sub kr a Hl. simpl in Hl. by rewrite lookup_nil in Hl. }
  apply post_bind, post_modify.
  assert (Hc2 : canon (upd_seed_sys_map sm_empty (upd_seed_var_map sm_empty st))).
  { apply (canon_upd_seed_map Sys); [done|]. intros l sub kr a Hl. simpl in Hl. by rewrite lookup_nil in Hl. }
  apply post_bind, post_modify.
  set (st3 := upd_all_seed_vars _ _).
  assert (Hc3 : canon st3) by by apply canon_upd_all_seed_vars.
  apply post_bind, post_modify.
  assert (Hc4 : canon (upd_single_seed2relvars ([], []) st3)).
  { apply (canon_upd_single Var); [done|]. by intros [] s a ?%elem_of_nil. }
  apply post_bind, post_modify.
  set (st5 := upd_single_seed2relsys _ _).
  assert (Hc5 : canon st5).
  { apply (canon_upd_single Sys); [done|]. by intros [] s a ?%elem_of_nil. }
  clearbody st5. clear Hc4 Hc3 Hc2 Hc1 st3.
  assert (Hmain :
    post (g ← gets _graph;
          let '(all_vars, all_systems) := collect_names g in
          modify (upd_tables all_systems (elements all_systems)
                             (elements all_vars));;
          has_par_derivs ←
            compute_single_arrays (comm_size group) fwd_meta rev_meta
                                  all_systems all_vars;
          fill_seed_maps (list_to_set (map (λ p, source p.2) fwd_meta))
                         (list_to_set (map (λ p, source p.2) rev_meta));;
          finish_seeds group fwd_meta rev_meta
            (list_to_set (map (λ p, source p.2) fwd_meta))
            (list_to_set (map (λ p, source p.2) rev_meta))
            all_systems all_vars has_par_derivs) st5 (λ _, canon) (λ _, True)).
  { apply post_bind, post_gets.
    destruct (collect_names (_graph st5)) as [all_vars all_systems].
    apply post_bind, post_modify. apply post_bind.
    eapply post_mono;
      [by apply compute_single_arrays_canon, canon_upd_tables| |done].
    simpl. intros hpd st6 Hc6. apply post_bind.
    eapply post_mono; [by apply fill_seed_maps_canon| |done].
    simpl. intros _ st7 Hc7. by apply finish_seeds_canon. }
  destruct fwd_meta as [|f fm]; [by apply post_ret|].
  destruct rev_meta as [|r rm]; [by apply post_ret|].
  exact Hmain.
Qed.

Lemma names2rel_quiet names n idx st :
  post (_names2rel_array names n idx) st (λ _, quiet st) (quiet st).
Proof.
  unfold _names2rel_array. apply post_bind.
  eapply post_mono; [apply new_array_quiet| |done].
  intros ra st1 Hq1. simpl. apply post_bind, post_lift; [|done].
  intros b _.
  eapply post_mono; [apply get_cached_quiet| |].
  - simpl. intros c st2 Hq2. by apply (quiet_trans _ st1).
  - intros st2 Hq2. by apply (quiet_trans _ st1).
Qed.

Lemma canon_upd_nonlinear_sets sets st :
  canon st → _current_rel_sarray st = None →
  (∀ name a, name ≠ "iter" → sets !! name = Some a → canonical st a) →
  canon (upd_nonlinear_sets sets st).
Proof.
  intros Hc Hs Hsets. constructor.
  - apply (cn_cache _ Hc).
  - intros a [Ha|[Ha|[(sets' & name & [= <-] & Hne & Ha)|Ha]]].
    + apply (cn_held _ Hc a). by left.
    + apply (cn_held _ Hc a). right. by left.
    + by apply (Hsets name).
    + apply (cn_held _ Hc a). by right; right; right.
  - intros a Ha. simpl in Ha. congruence.
Qed.

Lemma setup_nonlinear_sets_canon model st :
  canon st → _current_rel_sarray st = None →
  post (_setup_nonlinear_sets model) st (λ _, canon) (λ _, True).
Proof.
  intros Hc Hs. unfold _setup_nonlinear_sets.
  apply post_bind, post_lift_opt; [|done]. intros pre_comps _.
  apply post_bind, post_lift_opt; [|done]. intros post_comps _.
  apply post_bind, post_bind, post_gets, post_lift_opt; [|done].
  intros all_systems _.
  apply post_bind, post_bind, post_gets, post_lift_opt; [|done].
  intros sys2idx _.
  set (pre_names := elements (with_ancestors pre_comps)).
  set (post_names := elements (with_ancestors post_comps)).
  apply post_bind.
  pose proof (names2rel_canon pre_names (size all_systems) sys2idx st Hc) as Hp1.
  pose proof (names2rel_quiet pre_names (size all_systems) sys2idx st) as Hq1.
  unfold post in *.
  destruct (_names2rel_array pre_names (size all_systems) sys2idx st)
    as [[pre_array|e] st1]; [|done].
  destruct Hp1 as [Hg1 Hpre].
  pose proof (names2rel_canon post_names (size all_systems) sys2idx st1
                (proj1 Hg1)) as Hp2.
  pose proof (names2rel_quiet post_names (size all_systems) sys2idx st1) as Hq2.
  rewrite bind_run. unfold post in *.
  destruct (_names2rel_array post_names (size all_systems) sys2idx st1)
    as [[post_array|e] st2]; [|done].
  destruct Hp2 as [Hg2 Hpost].
  assert (Hs2 : _current_rel_sarray st2 = None).
  { by rewrite (q_sarray _ _ Hq2), (q_sarray _ _ Hq1). }
  assert (Hpre2 : canonical st2 pre_array)
    by (eapply canonical_mono; [exact Hpre|apply Hg2]).
  assert (Hfin : ∀ iter_array st3,
            grown st2 st3 → _current_rel_sarray st3 = None →
            canon (upd_nonlinear_sets
                     (<["pre" := pre_array]> (<["iter" := iter_array]>
                        (<["post" := post_array]> ∅))) st3)).
  { intros ia st3 Hg3 Hs3. apply canon_upd_nonlinear_sets; [apply Hg3|done|].
    intros name a Hne. rewrite lookup_insert. case_decide as H1.
    { intros [= <-]. eapply canonical_mono; [exact Hpre2|apply Hg3]. }
    rewrite lookup_insert. case_decide as H2; [by subst name|].
    rewrite lookup_insert. case_decide as H3; [|by rewrite lookup_empty].
    intros [= <-]. eapply canonical_mono; [exact Hpost|apply Hg3]. }
  rewrite bind_run.
  destruct (_iterated_components model).
  - rewrite bind_run. simpl.
    destruct (np_or (bits pre_array) (bits post_array)) as [b|]; [|done].
    simpl. apply Hfin; [|done].
    split; [|done]. by eapply canon_ext; [..|apply Hg2].
  - simpl. apply Hfin; [|done].
    split; [|done]. by eapply canon_ext; [..|apply Hg2].
  - rewrite bind_run. simpl.
    destruct (np_or (bits pre_array) (bits post_array)) as [b|]; [|done].
    simpl. apply Hfin; [|done].
    split; [|done]. by eapply canon_ext; [..|apply Hg2].
Qed.

Lemma init_state_canon g : canon (init_state g).
Proof.
  constructor.
  - intros h a Hl. simpl in Hl. by rewrite lookup_empty in Hl.
  - intros a [(k & d & s & Ha)|[(k & l & sub & kr & Hl & _)|[(sets & ? & ? & _)|Ha]]].
    + destruct k, d; by apply elem_of_nil in Ha.
    + destruct k; simpl in Hl; by rewrite lookup_nil in Hl.
    + done.
    + done.
  - done.
Qed.

Lemma init_M_canon model fwd_meta rev_meta st :
  canon st → post (init_M model fwd_meta rev_meta) st (λ _, canon) (λ _, True).
Proof.
  intros Hc. unfold init_M. apply post_bind.
  eapply post_mono; [by apply set_all_seeds_canon| |done].
  simpl. intros _ st1 Hc1. apply post_bind, post_modify.
  assert (Hc2 : canon (upd_current_rel_varray None st1)).
  { constructor; [apply (cn_cache _ Hc1)| |apply (cn_sarray _ Hc1)].
    intros a [Ha|[Ha|[Ha|Ha]]]; [..|done].
    - apply (cn_held _ Hc1 a). by left.
    - apply (cn_held _ Hc1 a). right. by left.
    - apply (cn_held _ Hc1 a). right. right. by left. }
  apply post_bind, post_modify.
  set (st3 := upd_current_rel_sarray None _).
  assert (Hc3 : canon st3).
  { constructor; [apply (cn_cache _ Hc2)|apply (cn_held _ Hc2)|done]. }
  assert (Hs3 : _current_rel_sarray st3 = None) by done.
  clearbody st3.
  apply post_bind, post_lift; [|done]. intros model' _. apply post_bind.
  eapply post_mono with (Q := λ _, canon) (E := λ _, True).
  - destruct (set_truthy (_pre_components model')
              || set_truthy (_post_components model')).
    + by apply setup_nonlinear_sets_canon.
    + apply post_modify. apply canon_upd_nonlinear_sets; [done..|].
      intros name a _ Hl. by rewrite lookup_empty in Hl.
  - simpl. intros _ st4 Hc4. apply post_bind.
    eapply post_mono with (Q := λ _, canon) (E := λ _, True).
    + destruct fwd_meta; [by apply post_modify, canon_upd_active|].
      destruct rev_meta; [by apply post_modify, canon_upd_active|].
      by apply post_ret.
    + simpl. intros _ st5 Hc5. by apply post_ret.
    + done.
  - done.
Qed.

Lemma init_canon model fwd_meta rev_meta st model' :
  __init__ model fwd_meta rev_meta = Ok (st, model') → canon st.
Proof.
  unfold __init__.
  destruct (negb (bool_decide (pathname model = ""))); [done|].
  pose proof (init_M_canon model fwd_meta rev_meta
                (init_state (_dataflow_graph model))
                (init_state_canon _)) as Hp.
  unfold post in Hp.
  destruct (init_M _ _ _ _) as [[m|e] st']; [|done]. by intros [= <- <-].
Qed.

Lemma reached_canon model fwd_meta rev_meta st0 model' c o st :
  __init__ model fwd_meta rev_meta = Ok (st0, model') →
  exec c st0 = (o, st) → canon st.
Proof.
  intros Hinit Hexec. pose proof (exec_canon c st0 (init_canon _ _ _ _ _ Hinit)) as Hc.
  by rewrite Hexec in Hc.
Qed.

(** The content hash is taken to be free of collisions. *)
Context (hash_inj : ∀ a b : list bool, array_hash a = array_hash b → a = b).


End canonical_facts.

(** ** The example engines *)

Lemma hash_bits_inj (a b : list bool) : hash_bits a = hash_bits b → a = b.
Proof.
  revert b. induction a as [|x a IH]; intros [|y b]; simpl; try done.
  intros Heq. injection Heq as Hc Ht. f_equal; [|by apply IH].
  by destruct x, y.
Qed.

Lemma two_seed_init_eq :
  @__init__ (demo_helpers no_sccs) (serial_model chain_graph)
            [seed "c1.x"; seed "d.z"] [seed "c2.y"]
  = Ok (two_seed_engine, two_seed_model).
Proof.
  unfold two_seed_engine, two_seed_model, two_seed_init.
  assert (is_ok (@__init__ (demo_helpers no_sccs) (serial_model chain_graph)
                   [seed "c1.x"; seed "d.z"] [seed "c2.y"]) = true) as Hok
    by (vm_compute; reflexivity).
  destruct (@__init__ (demo_helpers no_sccs) (serial_model chain_graph)
              [seed "c1.x"; seed "d.z"] [seed "c2.y"]) as [[st m]|e];
    [reflexivity|discriminate Hok].
Qed.

Lemma no_fwd_init_eq :
  @__init__ (demo_helpers no_sccs) (serial_model chain_graph) [] [seed "c2.y"]
  = Ok (no_fwd_engine, no_fwd_model).
Proof.
  unfold no_fwd_engine, no_fwd_model, no_fwd_init.
  assert (is_ok (@__init__ (demo_helpers no_sccs) (serial_model chain_graph)
                   [] [seed "c2.y"]) = true) as Hok
    by (vm_compute; reflexivity).
  destruct (@__init__ (demo_helpers no_sccs) (serial_model chain_graph)
              [] [seed "c2.y"]) as [[st m]|e];
    [reflexivity|discriminate Hok].
Qed.

(** The combined arrays of the pair ([c1.x], [c2.y]) on the chain. *)
Lemma combined_relevance_on_chain :
  ∃ st_in,
    (∀ A (body : M A),
       @seeds_active (demo_helpers no_sccs) A (Some ["c1.x"]) (Some ["c2.y"])
                     body two_seed_engine
       = finally body
           (λ s, upd_active (_active two_seed_engine)
                   (upd_seed_vars (_seed_vars two_seed_engine) s)) st_in) ∧
    _active st_in = Some true ∧
    ∀ k, ∃ a, current k st_in = Some a ∧
              bits a = spec_relevance (table_len k two_seed_engine)
                         (get_single k two_seed_engine).1
                         (get_single k two_seed_engine).2
                         (list_to_set ["c1.x"]) (list_to_set ["c2.y"]).
Proof.
  apply (@combined_relevance_is_and_of_unions (demo_helpers no_sccs)
           hash_bits_inj (serial_model chain_graph)
           [seed "c1.x"; seed "d.z"] [seed "c2.y"]
           two_seed_engine two_seed_model CSkip (Ok tt, []) two_seed_engine
           ["c1.x"] ["c2.y"]).
  - discriminate.
  - discriminate.
  - exact two_seed_init_eq.
  - reflexivity.
  - vm_compute. discriminate.
  - discriminate.
  - discriminate.
  - apply (bool_decide_unpack _). vm_compute. reflexivity.
  - apply (bool_decide_unpack _). vm_compute. reflexivity.
Defined.

(** An engine without forward seeds answers [True] for a name that is in
    no graph, also inside a scope. *)
Lemma no_fwd_engine_always_relevant :
  _active (@exec (demo_helpers no_sccs) unknown_name_prog no_fwd_engine).2
    = Some false ∧
  Forall (λ b, b = true)
    (@exec (demo_helpers no_sccs) unknown_name_prog no_fwd_engine).1.2 ∧
  ∀ name,
    is_relevant name
      (@exec (demo_helpers no_sccs) unknown_name_prog no_fwd_engine).2
    = (Ok true, (@exec (demo_helpers no_sccs) unknown_name_prog no_fwd_engine).2) ∧
    is_relevant_system name
      (@exec (demo_helpers no_sccs) unknown_name_prog no_fwd_engine).2
    = (Ok true, (@exec (demo_helpers no_sccs) unknown_name_prog no_fwd_engine).2).
Proof.
  apply (@inactive_engine_always_relevant (demo_helpers no_sccs)
           (serial_model chain_graph) [] [seed "c2.y"]
           no_fwd_engine no_fwd_model unknown_name_prog).
  - left. reflexivity.
  - exact no_fwd_init_eq.
  - apply surjective_pairing.
Defined.


(** A name that is in no table: [KeyError] inside a scope of the chain
    engine, [True] outside of it. *)
Lemma unknown_name_on_chain :
  is_relevant "nowhere" two_seed_in_scope = (Raise KeyError, two_seed_in_scope) ∧
  is_relevant_system "nowhere" two_seed_in_scope
    = (Raise KeyError, two_seed_in_scope) ∧
  is_relevant "nowhere" two_seed_engine = (Ok true, two_seed_engine) ∧
  is_relevant_system "nowhere" two_seed_engine = (Ok true, two_seed_engine).
Proof.
  pose proof (active_queries_need_known_names two_seed_in_scope "nowhere"
                (default [] (_var2idx two_seed_in_scope))
                (default [] (_sys2idx two_seed_in_scope))) as Hin.
  pose proof (active_queries_need_known_names two_seed_engine "nowhere"
                (default [] (_var2idx two_seed_engine))
                (default [] (_sys2idx two_seed_engine))) as Hout.
  destruct Hin as [Hin _]; [vm_compute; reflexivity|vm_compute; reflexivity|].
  destruct Hout as [_ Hout]; [vm_compute; reflexivity|vm_compute; reflexivity|].
  destruct Hin as (Hv & Hs & _); [vm_compute; reflexivity|].
  destruct Hout as [Hv' Hs']; [vm_compute; reflexivity|].
  split; [|split; [|split]].
  - apply Hv. apply (bool_decide_unpack _). vm_compute. reflexivity.
  - apply Hs. apply (bool_decide_unpack _). vm_compute. reflexivity.
  - exact Hv'.
  - exact Hs'.
Defined.

(** C3. The scope [seeds_active] does not put the current arrays back.  On
    the chain engine, inside a scope with all seeds active, an inner scope
    for the seeds [d.z] and [c2.y] is entered and left: the flag and the seed
    sets are as before, the current variable array is another one, and
    [is_relevant] answers [False] for [c1.x] where it answered [True]
    before the inner scope. *)
Theorem seeds_scope_exit_keeps_inner_arrays :
  let st := two_seed_in_scope in
  let st' := (@exec (demo_helpers no_sccs) inner_seeds_scope st).2 in
  (@exec (demo_helpers no_sccs) inner_seeds_scope st).1 = (Ok tt, []) ∧
  _active st' = _active st ∧
  _seed_vars st' = _seed_vars st ∧
  (is_relevant "c1.x" st).1 = Ok true ∧
  (is_relevant "c1.x" st').1 = Ok false ∧
  option_map bits (_current_rel_varray st) ≠
    option_map bits (_current_rel_varray st') ∧
  (@exec (demo_helpers no_sccs) nested_seeds_prog two_seed_engine).1
    = (Ok tt, [true; false]).
Proof.
  cbv zeta.
  split; [vm_compute; reflexivity|].
  split; [vm_compute; reflexivity|].
  split; [apply (bool_decide_unpack _); vm_compute; reflexivity|].
  split; [vm_compute; reflexivity|].
  split; [vm_compute; reflexivity|].
  split; [vm_compute; discriminate|].
  vm_compute; reflexivity.
Qed.

(** C4. The scope [activate_nonlinear] does not put the current system
    array back.  On the grouped engine, inside a scope with all seeds
    active, the scope for [pre] is entered and left: the flag is as
    before, the current system array is the array of [pre], and
    [is_relevant_system] answers [False] for [c1] where it answered
    [True] before. *)
Theorem nonlinear_scope_exit_keeps_set_array :
  let st := opt_in_scope in
  let st' := (@exec (demo_helpers opt_sccs) inner_nonlinear_scope st).2 in
  (@exec (demo_helpers opt_sccs) inner_nonlinear_scope st).1 = (Ok tt, []) ∧
  _active st' = _active st ∧
  (is_relevant_system "c1" st).1 = Ok true ∧
  (is_relevant_system "c1" st').1 = Ok false ∧
  option_map bits (_current_rel_sarray st') ≠
    option_map bits (_current_rel_sarray st) ∧
  Some (_current_rel_sarray st') = (λ sets, sets !! "pre") <$> _nonlinear_sets st ∧
  (@exec (demo_helpers opt_sccs) nested_nonlinear_prog opt_engine).1
    = (Ok tt, [true; false]).
Proof.
  cbv zeta.
  split; [vm_compute; reflexivity|].
  split; [vm_compute; reflexivity|].
  split; [vm_compute; reflexivity|].
  split; [vm_compute; reflexivity|].
  split; [vm_compute; discriminate|].
  split; [vm_compute; reflexivity|].
  vm_compute; reflexivity.
Qed.


(** ** The parallel-derivative colour check *)

(** Loops that stop at the first exception keep what every round keeps. *)
Lemma foldl_raise {A B} (F : result B → A → result B) (l : list A) e :
  (∀ e a, F (Raise e) a = Raise e) → foldl F (Raise e) l = Raise e.
Proof.
  intros HF. induction l as [|a l IH]; [done|]. simpl. by rewrite HF.
Qed.

Section colour_check.
Context `{Helpers}.

(** [_par_deriv_err_check] is the collection of the dictionary followed by
    the verdict on it. *)
Lemma par_deriv_err_check_split group responses desvars st :
  _par_deriv_err_check group responses desvars st
  = (pd ← par_deriv_sets group responses desvars; par_deriv_verdict group pd) st.
Proof.
  unfold _par_deriv_err_check, par_deriv_sets, par_deriv_verdict.
  rewrite !bind_run. simpl.
  destruct (bool_decide (mode group = "fwd") || bool_decide (mode group = "auto"));
    destruct (bool_decide (mode group = "rev") || bool_decide (mode group = "auto"));
    rewrite ?bind_run; simpl.
  all: repeat match goal with
       | |- context [iter_seed_pair_relevance ?a ?b ?c ?d ?s] =>
           destruct (iter_seed_pair_relevance a b c d s) as [[?|?] ?]; simpl
       | |- context [pd_collect ?g ?m ?p ?i ?d] =>
           destruct (pd_collect g m p i d) as [?|?]; simpl
       end; try reflexivity.
Qed.

Lemma overlap_names_elem (dct : list (string * gset string)) v n sv sn :
  (v, sv) ∈ dct → (n, sn) ∈ dct → v ≠ n → sv ∩ sn ≠ ∅ →
  v ∈ overlap_names dct.
Proof.
  intros Hv Hn Hne Hcap. unfold overlap_names.
  apply list_elem_of_In, in_flat_map. exists (v, sv).
  split; [by apply list_elem_of_In|].
  apply in_flat_map. exists (n, sn). split; [by apply list_elem_of_In|].
  rewrite bool_decide_true by done.
  rewrite (bool_decide_false (sv ∩ sn = ∅)) by done. simpl. by left.
Qed.

Lemma overlap_errs_elem (pd : pd_dict) color dct v :
  (color, dct) ∈ pd → v ∈ overlap_names dct →
  (color, overlap_names dct) ∈ overlap_errs pd.
Proof.
  intros Hpd Hv. unfold overlap_errs.
  apply list_elem_of_In, in_flat_map. exists (color, dct).
  split; [by apply list_elem_of_In|].
  destruct (overlap_names dct) as [|x l] eqn:E.
  - by apply elem_of_nil in Hv.
  - by left.
Qed.

Lemma overlap_msgs_elem mode (all_errs : list err_dict) errs color names :
  errs ∈ all_errs → (color, names) ∈ errs →
  overlap_msg mode color names ∈ overlap_msgs mode all_errs.
Proof.
  intros He Hc. unfold overlap_msgs.
  apply list_elem_of_In, in_flat_map. exists errs.
  split; [by apply list_elem_of_In|].
  apply in_map_iff. exists (color, names). split; [done|by apply list_elem_of_In].
Qed.

Lemma sorted_names_elem v names : v ∈ names → v ∈ sorted_names names.
Proof.
  intros Hv. unfold sorted_names.
  by rewrite (merge_sort_Permutation str_le names).
Qed.


(** All processes raise the same text: whether the check raises, and what,
    is a function of the mode and of the gathered list. *)
Lemma par_deriv_verdict_gathered group group' pd pd' st st' :
  mode group = mode group' →
  comm_allgather group (overlap_errs pd)
    = comm_allgather group' (overlap_errs pd') →
  (par_deriv_verdict group pd st).1 = (par_deriv_verdict group' pd' st').1.
Proof.
  intros Hm Hg. unfold par_deriv_verdict. rewrite Hm, Hg.
  by destruct (overlap_msgs _ _).
Qed.

Lemma bind_ok {A B} (m : M A) (f : A → M B) st a st' :
  m st = (Ok a, st') → (m ≫= f) st = f a st'.
Proof. intros Hm. by rewrite bind_run, Hm. Qed.

Lemma bind_raise {A B} (m : M A) (f : A → M B) st e st' :
  m st = (Raise e, st') → (m ≫= f) st = (Raise e, st').
Proof. intros Hm. by rewrite bind_run, Hm. Qed.

(** The construction raises what the colour check raises. *)
Lemma set_all_seeds_check group fwd_meta rev_meta st hpd st1 e st2 :
  fwd_meta ≠ [] → rev_meta ≠ [] →
  seeds_up_to_check group fwd_meta rev_meta st = (Ok hpd, st1) →
  hpd ≠ [] →
  _par_deriv_err_check group rev_meta fwd_meta st1 = (Raise e, st2) →
  _set_all_seeds group fwd_meta rev_meta st = (Raise e, st2).
Proof.
  intros Hfm Hrm Hup Hhpd Hcheck.
  unfold seeds_up_to_check in Hup. unfold _set_all_seeds.
  destruct fwd_meta as [|f fm]; [done|]. destruct rev_meta as [|r rm]; [done|].
  set (F := list_to_set (map (λ p, source p.2) (f :: fm)) : gset string) in *.
  set (R := list_to_set (map (λ p, source p.2) (r :: rm)) : gset string) in *.
  unfold finish_seeds.
  repeat (rewrite bind_run in Hup; unfold modify at 1, gets in Hup;
          cbv beta iota in Hup).
  repeat (rewrite bind_run; unfold modify at 1, gets; cbv beta iota).
  destruct (collect_names _) as [all_vars all_systems].
  rewrite bind_run in Hup. rewrite bind_run. cbv beta iota in Hup |- *.
  rewrite bind_run in Hup. rewrite bind_run.
  destruct (compute_single_arrays _ _ _ _ _ _) as [[hpd'|e'] st3]; [|done].
  rewrite bind_run in Hup. rewrite bind_run.
  destruct (fill_seed_maps F R st3) as [[[]|e'] st4]; [|done].
  rewrite bind_run in Hup. rewrite bind_run.
  destruct (_set_seeds F R st4) as [[[]|e'] st5]; [|done].
  injection Hup as -> ->.
  rewrite bind_run. destruct hpd as [|h hpd]; [done|].
  by rewrite Hcheck.
Qed.


(** The seeds that [has_par_derivs] lists. *)
Lemma single_seed_arrays_flag nprocs m io all_systems all_vars st :
  post (single_seed_arrays nprocs m io all_systems all_vars) st
       (λ r _, r.1.1.1 = source m ∧
               r.1.1.2 = bool_decide (1 < nprocs)
                         && bool_decide (parallel_deriv_color m ≠ None))
       (λ _, True).
Proof.
  unfold single_seed_arrays. apply post_bind.
  eapply post_mono; [apply post_trivial| |done].
  simpl. intros depnodes st0 _.
  apply post_bind, post_bind, post_gets, post_lift_opt; [|done].
  intros var2idx _. apply post_bind.
  eapply post_mono; [apply post_trivial| |done].
  simpl. intros va st1 _.
  apply post_bind, post_bind, post_gets, post_lift_opt; [|done].
  intros sys2idx _. apply post_bind.
  eapply post_mono; [apply post_trivial| |done].
  simpl. intros sa st2 _. by apply post_ret.
Qed.

Lemma record_seed_hpd nprocs all_systems all_vars io hpd m st :
  post (record_seed nprocs all_systems all_vars io hpd m) st
       (λ hpd' _,
          (∀ s, is_Some (OD.get hpd s) → is_Some (OD.get hpd' s)) ∧
          (1 < nprocs → parallel_deriv_color m.2 ≠ None →
           is_Some (OD.get hpd' (source m.2))))
       (λ _, True).
Proof.
  unfold record_seed. apply post_bind.
  eapply post_mono; [apply single_seed_arrays_flag| |done].
  simpl. intros [[[seed local] var_array] sys_array] st1 [Hseed Hlocal].
  simpl in *. subst seed.
  apply post_bind. eapply post_mono; [apply post_trivial| |done].
  simpl. intros va st2 _.
  apply post_bind. eapply post_mono; [apply post_trivial| |done].
  simpl. intros _ st3 _.
  apply post_bind. eapply post_mono; [apply post_trivial| |done].
  simpl. intros sa st4 _.
  apply post_bind. eapply post_mono; [apply post_trivial| |done].
  simpl. intros _ st5 _. apply post_ret. split.
  - intros s Hs. destruct local; [|done].
    rewrite od_get_set. destruct (decide (s = source m.2)); [by eexists|done].
  - intros Hn Hcol. rewrite Hlocal.
    rewrite !bool_decide_true by done. simpl.
    rewrite od_get_set, decide_True by done. by eexists.
Qed.

Lemma record_seeds_hpd nprocs all_systems all_vars io metas :
  ∀ hpd st,
    post (foldM (record_seed nprocs all_systems all_vars io) hpd metas) st
         (λ hpd' _,
            (∀ s, is_Some (OD.get hpd s) → is_Some (OD.get hpd' s)) ∧
            (∀ m, m ∈ metas → 1 < nprocs → parallel_deriv_color m.2 ≠ None →
                  is_Some (OD.get hpd' (source m.2))))
         (λ _, True).
Proof.
  induction metas as [|m metas IH]; intros hpd st; simpl.
  - apply post_ret. split; [done|]. by intros m ?%elem_of_nil.
  - apply post_bind.
    eapply post_mono; [apply record_seed_hpd| |done].
    simpl. intros hpd1 st1 [Hmono1 Hm1].
    eapply post_mono; [apply IH| |done].
    simpl. intros hpd2 st2 [Hmono2 Hm2]. split.
    + intros s Hs. by apply Hmono2, Hmono1.
    + intros m' [->|Hin]%elem_of_cons Hn Hcol.
      * by apply Hmono2, Hm1.
      * by apply Hm2.
Qed.

Lemma compute_single_arrays_hpd nprocs fwd_meta rev_meta all_systems all_vars st :
  post (compute_single_arrays nprocs fwd_meta rev_meta all_systems all_vars) st
       (λ hpd _,
          ∀ io m, m ∈ dir_get (fwd_meta, rev_meta) io → 1 < nprocs →
                  parallel_deriv_color m.2 ≠ None →
                  is_Some (OD.get hpd (source m.2)))
       (λ _, True).
Proof.
  unfold compute_single_arrays. simpl. apply post_bind.
  eapply post_mono; [apply record_seeds_hpd| |done].
  simpl. intros hpd1 st1 [_ Hf]. apply post_bind.
  eapply post_mono; [apply record_seeds_hpd| |done].
  simpl. intros hpd2 st2 [Hmono Hr]. apply post_ret.
  intros [] m Hm Hn Hcol; [by apply Hmono, Hf|by apply Hr].
Qed.

Lemma seeds_up_to_check_hpd group fwd_meta rev_meta st hpd st1 io key m :
  seeds_up_to_check group fwd_meta rev_meta st = (Ok hpd, st1) →
  (key, m) ∈ dir_get (fwd_meta, rev_meta) io →
  1 < comm_size group → parallel_deriv_color m ≠ None →
  hpd ≠ [].
Proof.
  intros Hup Hin Hn Hcol. unfold seeds_up_to_check in Hup.
  repeat (rewrite bind_run in Hup; unfold modify at 1, gets in Hup;
          cbv beta iota in Hup).
  destruct (collect_names _) as [all_vars all_systems].
  rewrite bind_run in Hup. cbv beta iota in Hup.
  rewrite bind_run in Hup.
  pose proof (compute_single_arrays_hpd (comm_size group) fwd_meta rev_meta
                all_systems all_vars
                (upd_tables all_systems (elements all_systems)
                   (elements all_vars)
                   (upd_single_seed2relsys ([], [])
                      (upd_single_seed2relvars ([], [])
                         (upd_all_seed_vars
                            (list_to_set (map (λ p, source p.2) fwd_meta),
                             list_to_set (map (λ p, source p.2) rev_meta))
                            (upd_seed_sys_map sm_empty
                               (upd_seed_var_map sm_empty st))))))) as Hp.
  unfold post in Hp.
  destruct (compute_single_arrays _ _ _ _ _ _) as [[hpd'|e'] st3]; [|done].
  rewrite bind_run in Hup.
  destruct (fill_seed_maps _ _ st3) as [[[]|e'] st4]; [|done].
  rewrite bind_run in Hup.
  destruct (_set_seeds _ _ st4) as [[[]|e'] st5]; [|done].
  injection Hup as -> ->.
  destruct (Hp io (key, m) Hin Hn Hcol) as [d Hd].
  intros ->. done.
Qed.

(** *** What the collection loops record *)

Lemma pd_entry_record pd c n s c' n' :
  pd_entry (pd_record pd c n s) c' n'
  = if decide (c' = c ∧ n' = n) then Some s else pd_entry pd c' n'.
Proof.
  unfold pd_entry, pd_record. rewrite od_get_set.
  destruct (decide (c' = c)) as [->|Hc]; simpl.
  - rewrite od_get_set. destruct (decide (n' = n)) as [->|Hn].
    + by rewrite decide_True.
    + rewrite decide_False by (by intros [_ ?]).
      by destruct (OD.get pd c).
  - by rewrite decide_False by (by intros [? _]).
Qed.

Lemma last_yield_cons io v it items :
  last_yield io v (it :: items)
  = match last_yield io v items with
    | Some s => Some s
    | None => if decide (pick_of io it = v) then Some it.2 else None
    end.
Proof.
  unfold last_yield. rewrite filter_cons.
  destruct (decide (pick_of io it = v)); [|by destruct (last _)].
  rewrite last_cons. by destruct (last _).
Qed.

Lemma pd_collect_cons g metas pick it items pd0 :
  pd_collect g metas pick (it :: items) pd0
  = pd1 ← pd_collect g metas pick [it] pd0; pd_collect g metas pick items pd1.
Proof.
  unfold pd_collect.
  set (F := λ (acc : result pd_dict) (item : string * string * gset string), _).
  change (foldl F (Ok pd0) (it :: items)) with (foldl F (F (Ok pd0) it) items).
  change (foldl F (Ok pd0) [it]) with (F (Ok pd0) it).
  destruct (F (Ok pd0) it) as [pd1|e]; [reflexivity|].
  by apply foldl_raise.
Qed.

Lemma pd_collect_last g metas io items :
  ∀ pd0 pd,
    pd_collect g metas (pick_of io) items pd0 = Ok pd →
    ∀ v mv c,
      OD.get metas v = Some mv → node_is_local g v = Ok true →
      color_truthy (parallel_deriv_color mv) = Some c →
      pd_entry pd c v = match last_yield io v items with
                        | Some s => Some s
                        | None => pd_entry pd0 c v
                        end.
Proof.
  induction items as [|it items IH]; intros pd0 pd Hrun v mv c Hmv Hloc Hcol.
  { injection Hrun as <-. done. }
  rewrite pd_collect_cons in Hrun.
  destruct (pd_collect g metas (pick_of io) [it] pd0) as [pd1|e] eqn:Hstep;
    [|done].
  simpl in Hrun. rewrite (IH _ _ Hrun v mv c Hmv Hloc Hcol).
  rewrite last_yield_cons.
  destruct (last_yield io v items) as [s|]; [done|].
  unfold pd_collect in Hstep. simpl in Hstep.
  destruct (decide (pick_of io it = v)) as [Hv|Hv].
  - rewrite Hv, Hmv, Hloc in Hstep. simpl in Hstep. rewrite Hcol in Hstep.
    injection Hstep as <-. rewrite pd_entry_record. by rewrite decide_True.
  - destruct (OD.get metas (pick_of io it)) as [m|]; [|by injection Hstep as <-].
    destruct (node_is_local g (pick_of io it)) as [[]|]; simpl in Hstep;
      [|by injection Hstep as <-|done].
    destruct (color_truthy (parallel_deriv_color m)) as [c'|];
      [|by injection Hstep as <-].
    injection Hstep as <-. rewrite pd_entry_record.
    by rewrite decide_False by (intros [_ ?]; congruence).
Qed.

Lemma pd_collect_total g metas pick items :
  (∀ it, it ∈ items → is_Some (OD.get metas (pick it)) →
         is_ok (node_is_local g (pick it)) = true) →
  ∀ pd0, is_ok (pd_collect g metas pick items pd0) = true.
Proof.
  induction items as [|it items IH]; intros Hloc pd0; [done|].
  rewrite pd_collect_cons.
  assert (Hstep : is_ok (pd_collect g metas pick [it] pd0) = true).
  { unfold pd_collect. simpl.
    destruct (OD.get metas (pick it)) as [m|] eqn:Hm; [|done].
    specialize (Hloc it (list_elem_of_here _ _)). rewrite Hm in Hloc.
    specialize (Hloc (ltac:(by eexists))).
    destruct (node_is_local g (pick it)) as [[]|]; [|done..].
    simpl. by destruct (color_truthy _). }
  destruct (pd_collect g metas pick [it] pd0) as [pd1|e]; [|done].
  simpl. apply IH. intros it' Hin. apply Hloc. by right.
Qed.

(** In the mode of direction [io] the check is the collection loop of that
    direction followed by the verdict. *)
Lemma par_deriv_err_check_dir group responses desvars io st1 items st2 pd :
  mode group = dir_name io →
  yields_of io st1 = (Ok items, st2) →
  pd_collect (_graph st1) (dir_get (desvars, responses) io) (pick_of io)
             items [] = Ok pd →
  _par_deriv_err_check group responses desvars st1
  = par_deriv_verdict group pd st2.
Proof.
  intros Hmode Hitems Hpd. unfold _par_deriv_err_check, par_deriv_verdict.
  rewrite Hmode. rewrite bind_run. unfold gets at 1. cbv beta iota.
  destruct io; unfold yields_of in Hitems; cbn [dir_name dir_get fst snd] in *.
  - rewrite (bool_decide_true ("fwd" = "fwd")) by done.
    rewrite (bool_decide_false ("fwd" = "rev")) by done.
    rewrite (bool_decide_false ("fwd" = "auto")) by done.
    cbn [orb]. rewrite bind_run, (bind_ok _ _ _ _ _ Hitems).
    unfold lift at 1.
    change (pd_collect (_graph st1) desvars (λ t, t.1.1) items [])
      with (pd_collect (_graph st1) desvars (pick_of fwd) items []).
    rewrite Hpd. by rewrite bind_run.
  - rewrite (bool_decide_false ("rev" = "fwd")) by done.
    rewrite (bool_decide_true ("rev" = "rev")) by done.
    rewrite (bool_decide_false ("rev" = "auto")) by done.
    cbn [orb]. rewrite bind_run. unfold mret at 1, M_ret at 1.
    rewrite bind_run, (bind_ok _ _ _ _ _ Hitems).
    unfold lift at 1.
    change (pd_collect (_graph st1) responses (λ t, t.1.2) items [])
      with (pd_collect (_graph st1) responses (pick_of rev) items []).
    by rewrite Hpd.
Qed.


(** The verdict on a dictionary with two different names under one colour
    whose sets intersect. *)
Lemma verdict_raises group (pd : pd_dict) st color dct v n sv sn :
  (color, dct) ∈ pd → (v, sv) ∈ dct → (n, sn) ∈ dct →
  v ≠ n → sv ∩ sn ≠ ∅ →
  overlap_errs pd ∈ comm_allgather group (overlap_errs pd) →
  let msgs := overlap_msgs (mode group)
                           (comm_allgather group (overlap_errs pd)) in
  par_deriv_verdict group pd st = (Raise (RuntimeError (join newline msgs)), st) ∧
  ∃ names, overlap_msg (mode group) color names ∈ msgs ∧
           v ∈ sorted_names names ∧ n ∈ sorted_names names.
Proof.
  intros Hc Hv Hn Hne Hcap Hgather msgs.
  assert (Hvn : v ∈ overlap_names dct) by by eapply overlap_names_elem.
  assert (Hnv : n ∈ overlap_names dct).
  { eapply (overlap_names_elem dct n v sn sv); [done..|].
    by rewrite (comm_L (∩) sn sv). }
  assert (Hmsg : overlap_msg (mode group) color (overlap_names dct) ∈ msgs).
  { eapply overlap_msgs_elem; [exact Hgather|]. by eapply overlap_errs_elem. }
  split.
  - unfold par_deriv_verdict. fold msgs.
    destruct msgs as [|m ms]; [by apply elem_of_nil in Hmsg|done].
  - exists (overlap_names dct).
    split; [done|]. split; by apply sorted_names_elem.
Qed.


End colour_check.



(** ** The pre / iterated / post partition *)

Section partition.
Context `{helpers : Helpers}.
#[local] Set Warnings "-clear-no-such-hyp".

(** The three sets of a walk together, and what it means that they share
    no name other than [_auto_ivc]. *)
Let U (w : walk) : gset string := w_pre w ∪ w_iterated w ∪ w_post w.
Let apart3 (w : walk) : Prop :=
  w_pre w ∩ w_iterated w ⊆ {["_auto_ivc"]} ∧
  w_pre w ∩ w_post w ⊆ {["_auto_ivc"]} ∧
  w_iterated w ∩ w_post w ⊆ {["_auto_ivc"]}.

Lemma walk_step_spec g dv0 w0 c w1 :
  walk_step g dv0 w0 c = Ok w1 →
  ∃ ns, member_names g c = Ok ns ∧ U w1 = U w0 ∪ ns ∧
        (apart3 w0 → ns ∩ U w0 ⊆ {["_auto_ivc"]} → apart3 w1).
Proof.
  unfold walk_step. destruct (member_names g c) as [ns|e]; [|done]. simpl.
  intros Hw. exists ns. split; [done|].
  unfold U, apart3.
  destruct (bool_decide (dv0 ∈ c)); [|destruct (seen_dv w0)];
    injection Hw as <-; simpl; (split; [set_solver|]);
    intros (Hpi & Hpp & Hip) Hns; set_solver.
Qed.

Lemma walk_raise g dv0 e (l : list (list string)) :
  foldl (λ acc strong_con, w ← acc; walk_step g dv0 w strong_con) (Raise e) l
  = Raise e.
Proof. by induction l. Qed.

Lemma walk_from_spec g dv0 (l : list (list string)) :
  ∀ w0 w,
    foldl (λ acc strong_con, w ← acc; walk_step g dv0 w strong_con) (Ok w0) l
    = Ok w →
    ∃ nss, mapR (member_names g) l = Ok nss ∧ U w = U w0 ∪ ⋃ nss ∧
           (apart3 w0 → Forall (λ A, A ∩ U w0 ⊆ {["_auto_ivc"]}) nss →
            ForallOrdPairs (λ A B, A ∩ B ⊆ {["_auto_ivc"]}) nss →
            apart3 w).
Proof.
  induction l as [|c l IH]; intros w0 w; simpl.
  - intros [= <-]. exists []. split; [done|]. split; [|done].
    simpl. set_solver.
  - change (w ← Ok w0; walk_step g dv0 w c) with (walk_step g dv0 w0 c).
    destruct (walk_step g dv0 w0 c) as [w1|e] eqn:Hstep;
      [|by rewrite walk_raise].
    intros Hrest.
    destruct (walk_step_spec _ _ _ _ _ Hstep) as (ns & Hns & HU1 & Hap1).
    destruct (IH _ _ Hrest) as (nss & Hnss & HU & Hap).
    exists (ns :: nss). rewrite Hns, Hnss. split; [done|]. split.
    + rewrite HU, HU1. simpl. set_solver.
    + intros Hap0 Hall Hpairs.
      apply Forall_cons in Hall as [Hns0 Hall].
      inversion Hpairs as [|? ? Hhead Htail]; subst.
      apply Hap; [by apply Hap1| |done].
      apply Forall_forall. intros B HB. rewrite HU1.
      rewrite Forall_forall in Hall, Hhead.
      specialize (Hall B HB). specialize (Hhead B HB). set_solver.
Qed.

Lemma cover_apart_from (a : string) (P P' I O N : gset string) :
  P' ∖ {[a]} = P ∖ {[a]} → P ∪ I ∪ O = ∅ ∪ ∅ ∪ ∅ ∪ N →
  (P' ∪ I ∪ O) ∖ {[a]} = N ∖ {[a]}.
Proof.
  intros HP HU. apply set_eq. intros s.
  assert (Hs : s ∈ P' ∖ {[a]} ↔ s ∈ P ∖ {[a]}) by by rewrite HP.
  assert (Hu : s ∈ P ∪ I ∪ O ↔ s ∈ N).
  { rewrite HU. rewrite !elem_of_union. rewrite !elem_of_empty. tauto. }
  revert Hs Hu. rewrite !elem_of_difference, !elem_of_union. tauto.
Qed.

Lemma share_apart_from (a : string) (P P' X : gset string) :
  P' ∖ {[a]} = P ∖ {[a]} → P ∩ X ⊆ {[a]} → P' ∩ X ⊆ {[a]}.
Proof.
  intros HP HX s. specialize (HX s).
  assert (Hs : s ∈ P' ∖ {[a]} ↔ s ∈ P ∖ {[a]}) by by rewrite HP.
  revert Hs HX. rewrite !elem_of_difference, !elem_of_intersection.
  destruct (decide (s ∈ ({[a]} : gset string))); tauto.
Qed.

Lemma drop_apart_from (a : string) (P : gset string) (b : bool) :
  (if b then P ∖ {[a]} else P) ∖ {[a]} = P ∖ {[a]}.
Proof.
  destruct b; [|done]. apply set_eq. intros s.
  rewrite !elem_of_difference. tauto.
Qed.

Lemma add_apart_from (a : string) (P : gset string) :
  ({[a]} ∪ P) ∖ {[a]} = P ∖ {[a]}.
Proof.
  apply set_eq. intros s.
  rewrite !elem_of_difference, elem_of_union. tauto.
Qed.

(** C5, as the code has it.  The name [_auto_ivc] apart, the three sets
    that the partition leaves (before the groups that were added are
    subtracted) together hold exactly the component names of the nodes of
    the components that were walked, and no name is in two of the sets
    when no name is shared by two of the strongly connected components. *)
Theorem partition_covers_and_separates model dvs responses
    pre iterated post groups_added :
  partition_sets model dvs responses = Ok (pre, iterated, post, groups_added) →
  let g := (partition_graph model dvs responses).1 in
  ∃ nss,
    mapR (member_names g) (get_sccs_topo g) = Ok nss ∧
    (pre ∪ iterated ∪ post) ∖ {["_auto_ivc"]} = (⋃ nss) ∖ {["_auto_ivc"]} ∧
    (ForallOrdPairs (λ A B, A ∩ B ⊆ {["_auto_ivc"]}) nss →
     pre ∩ iterated ⊆ {["_auto_ivc"]} ∧
     pre ∩ post ⊆ {["_auto_ivc"]} ∧
     iterated ∩ post ⊆ {["_auto_ivc"]}).
Proof.
  unfold partition_sets.
  destruct (partition_graph model dvs responses) as [graph ga] eqn:Hg.
  simpl.
  set (auto_dvs := filter (λ dv, startswith dv "_auto_ivc." = true) dvs).
  destruct (match auto_dvs, dvs with
            | dv :: _, _ => Ok dv
            | [], dv :: _ => Ok (rpartition_head dv)
            | [], [] => Raise IndexError
            end) as [dv0|e]; [|done].
  simpl.
  destruct (walk_sccs graph dv0 (get_sccs_topo graph)) as [w|e] eqn:Hw; [|done].
  simpl.
  destruct (walk_from_spec _ _ _ _ _ Hw) as (nss & Hnss & HU & Hap).
  set (pre1 := if bool_decide ("_auto_ivc" ∉ w_pre w) then _ else _).
  destruct pre1 as [pre'|e] eqn:Hpre1; [|done]. simpl.
  intros [= <- <- <- <-].
  assert (Hpre : pre' ∖ {["_auto_ivc"]} = w_pre w ∖ {["_auto_ivc"]}).
  { unfold pre1 in Hpre1. destruct (bool_decide ("_auto_ivc" ∉ w_pre w)).
    - destruct (auto_ivc_in_pre _ _ _) as [[]|]; simpl in Hpre1;
        [| |done]; injection Hpre1 as <-; [apply add_apart_from|done].
    - by injection Hpre1 as <-. }
  exists nss. split; [done|].
  set (pre2 := if _ && _ then _ else _).
  assert (Hpre2 : pre2 ∖ {["_auto_ivc"]} = w_pre w ∖ {["_auto_ivc"]}).
  { unfold pre2. by rewrite drop_apart_from. }
  clearbody pre2. clear Hpre Hpre1 pre1 Hw Hg.
  unfold U in HU. simpl in HU. split.
  - by apply (cover_apart_from _ (w_pre w)).
  - intros Hpairs.
    destruct Hap as (Hpi & Hpp & Hip); [| |done|].
    + unfold apart3. simpl. repeat split; intros s Hs;
        apply elem_of_intersection in Hs as [Hs _];
        by apply elem_of_empty in Hs.
    + apply Forall_forall. intros B _ s Hs.
      apply elem_of_intersection in Hs as [_ Hs]. unfold U in Hs. simpl in Hs.
      rewrite !elem_of_union in Hs. rewrite !elem_of_empty in Hs. tauto.
    + split; [|split; [|done]];
        by apply (share_apart_from _ (w_pre w)).
Qed.

End partition.

(** The partition of [opt_model]: [p] before, [ivc], [c1] and [c2] in the
    iteration, [q] after; no name is in two of the sets. *)
Lemma partition_of_opt_model :
  (opt_partition.1.1.1 ∩ opt_partition.1.1.2 ⊆ {["_auto_ivc"]} ∧
   opt_partition.1.1.1 ∩ opt_partition.1.2 ⊆ {["_auto_ivc"]} ∧
   opt_partition.1.1.2 ∩ opt_partition.1.2 ⊆ {["_auto_ivc"]}) ∧
  (opt_partition.1.1.1 ∪ opt_partition.1.1.2 ∪ opt_partition.1.2)
    ∖ {["_auto_ivc"]}
  = (⋃ [{["p"]}; {["ivc"; "c1"; "c2"]}; {["q"]}]) ∖ {["_auto_ivc"]}.
Proof.
  destruct (@partition_covers_and_separates (demo_helpers opt_sccs) opt_model
              ["ivc.x"] {["c2.y"]}
              opt_partition.1.1.1 opt_partition.1.1.2 opt_partition.1.2
              opt_partition.2) as (nss & Hnss & Hcov & Hsep).
  { vm_compute. reflexivity. }
  assert (nss = [{["p"]}; {["ivc"; "c1"; "c2"]}; {["q"]}]) as ->.
  { cut (Ok nss = Ok [{["p"]}; {["ivc"; "c1"; "c2"]}; ({["q"]} : gset string)]);
      [by intros [= ->]|].
    rewrite <- Hnss. vm_compute. reflexivity. }
  split; [|exact Hcov].
  apply Hsep.
  repeat constructor; apply (bool_decide_unpack _); vm_compute; reflexivity.
Defined.

(** C5, the part that fails.  With a design variable of [_auto_ivc], the
    name [_auto_ivc] is in [pre] and in [iterated]; and where [_auto_ivc] is
    all that comes before the iteration it is dropped from [pre], so that a
    component that was walked is in none of the three sets. *)
Lemma auto_ivc_breaks_partition :
  (∃ pre iterated post groups_added,
     @partition_sets (demo_helpers auto_dv_sccs) auto_dv_model
                     ["_auto_ivc.v0"] {["c1.y"]}
     = Ok (pre, iterated, post, groups_added) ∧
     "_auto_ivc" ∈ pre ∧ "_auto_ivc" ∈ iterated) ∧
  (∃ pre iterated post groups_added nss,
     @partition_sets (demo_helpers lone_auto_sccs) lone_auto_model
                     ["ivc.x"] {["c1.y"]}
     = Ok (pre, iterated, post, groups_added) ∧
     mapR (member_names
             (partition_graph lone_auto_model
                               ["ivc.x"] {["c1.y"]}).1)
          (lone_auto_sccs empty_graph) = Ok nss ∧
     "_auto_ivc" ∈ ⋃ nss ∧
     "_auto_ivc" ∉ pre ∪ iterated ∪ post).
Proof.
  split.
  - exists {["_auto_ivc"; "c0"]}, {["_auto_ivc"; "c1"]}, ∅, ∅.
    split; [vm_compute; reflexivity|].
    split; apply (bool_decide_unpack _); vm_compute; reflexivity.
  - exists ∅, {["ivc"; "c1"]}, ∅, ∅, [{["_auto_ivc"]}; {["ivc"; "c1"]}].
    split; [vm_compute; reflexivity|].
    split; [vm_compute; reflexivity|].
    split; apply (bool_decide_unpack _); vm_compute; reflexivity.
Qed.

(** ** Approximation schemes *)

Lemma od_set_set {K V} `{EqDecision K} (d : list (K * V)) k v v' :
  OD.set (OD.set d k v) k v' = OD.set d k v'.
Proof.
  induction d as [|[k0 v0] d IH]; simpl.
  - by rewrite decide_True.
  - destruct (decide (k = k0)) as [->|Hne]; simpl.
    + by rewrite decide_True.
    + rewrite decide_False by done. by rewrite IH.
Qed.

Lemma od_set_same {K V} `{EqDecision K} (d : list (K * V)) k v :
  OD.get d k = Some v → OD.set d k v = d.
Proof.
  induction d as [|[k0 v0] d IH]; simpl; [done|].
  destruct (decide (k = k0)) as [->|Hne].
  - by intros [= ->].
  - intros Hg. by rewrite IH.
Qed.

Section coloring_facts.
Context {Coloring Data : Type}.
Implicit Types (tup : @approx Coloring) (l : list (@approx Coloring)).

(** The keys of the entries of [l] that count as coloured. *)
Let keys_of (wm : gset string) l : gset akey :=
  list_to_set (map fst (filter (λ tup, is_colored wm tup = true) l)).

Lemma union_keys (k : akey) (C L : gset akey) : ({[k]} ∪ C) ∪ L = C ∪ ({[k]} ∪ L).
Proof.
  apply set_eq. intros x. rewrite !elem_of_union. tauto.
Qed.

Lemma step_first wm (c : Coloring) key opts :
  is_colored wm (key, opts) = true →
  update_coloring_step wm (Some c) (mk_coloring_loop [] None ∅) (key, opts)
  = Ok (mk_coloring_loop
          [((None, None),
            OD.set (OD.set opts "coloring" (VColoring c)) "approxs"
                   (VApproxs [(key, opts)]))]
          (Some 0) ({[key]} ∪ ∅)).
Proof. intros Hc. unfold update_coloring_step. by rewrite Hc. Qed.

Lemma step_skip wm (coloring : option Coloring) st tup :
  is_colored wm tup = false → update_coloring_step wm coloring st tup = Ok st.
Proof.
  intros Hc. unfold update_coloring_step. destruct tup. by rewrite Hc.
Qed.

(** Without a coloring the loop appends the coloured entries. *)
Lemma update_loop_none wm l :
  ∀ st : @coloring_loop Coloring,
    foldl (λ acc tup, st ← acc; update_coloring_step wm None st tup) (Ok st) l
    = Ok (mk_coloring_loop
            (new_list st ++ filter (λ tup, is_colored wm tup = true) l)
            (new_entry st) (colored st ∪ keys_of wm l)).
Proof.
  unfold keys_of. induction l as [|tup l IH]; intros st; simpl.
  - rewrite app_nil_r, (right_id_L ∅ (∪)). by destruct st.
  - change (st ← Ok st; update_coloring_step wm None st tup)
      with (update_coloring_step wm None st tup).
    unfold update_coloring_step. destruct tup as [key opts].
    rewrite filter_cons.
    destruct (is_colored wm (key, opts)) eqn:Hc.
    + rewrite decide_True by done. rewrite IH. simpl.
      by rewrite <- app_assoc, union_keys.
    + rewrite decide_False by done. by rewrite IH.
Qed.

(** With a coloring, once the coloured entry is in place, the loop appends
    the coloured entries to its list. *)
Lemma update_loop_some wm c l :
  ∀ (e : @approx Coloring) acc (C : gset akey),
    OD.get e.2 "approxs" = Some (VApproxs acc) →
    foldl (λ a tup, st ← a; update_coloring_step wm (Some c) st tup)
          (Ok (mk_coloring_loop [e] (Some 0) C)) l
    = Ok (mk_coloring_loop
            [(e.1, OD.set e.2 "approxs"
                     (VApproxs (acc ++ filter (λ tup, is_colored wm tup = true) l)))]
            (Some 0) (C ∪ keys_of wm l)).
Proof.
  unfold keys_of. induction l as [|tup l IH]; intros e acc C He; simpl.
  - rewrite app_nil_r, (right_id_L ∅ (∪)), (od_set_same _ _ _ He).
    by destruct e.
  - change (st ← Ok ?s; update_coloring_step wm (Some c) st tup)
      with (update_coloring_step wm (Some c) s tup).
    unfold update_coloring_step. destruct tup as [key opts].
    rewrite filter_cons.
    destruct (is_colored wm (key, opts)) eqn:Hc.
    + rewrite decide_True by done. simpl.
      unfold append_approx. rewrite He. simpl.
      rewrite (IH _ (acc ++ [(key, opts)])); simpl.
      * rewrite od_set_set, <- app_assoc. simpl. by rewrite union_keys.
      * rewrite od_get_set. by rewrite decide_True.
    + rewrite decide_False by done. by apply IH.
Qed.

(** Before the first coloured entry nothing happens. *)
Lemma update_loop_start wm c l :
  foldl (λ a tup, st ← a; update_coloring_step wm (Some c) st tup)
        (Ok (mk_coloring_loop [] None ∅)) l
  = Ok (match filter (λ tup, is_colored wm tup = true) l with
        | [] => mk_coloring_loop [] None ∅
        | first :: rest =>
            mk_coloring_loop
              [((None, None),
                OD.set (OD.set first.2 "coloring" (VColoring c)) "approxs"
                       (VApproxs (first :: rest)))]
              (Some 0) (keys_of wm l)
        end).
Proof.
  unfold keys_of. induction l as [|tup l IH]; simpl; [done|].
  change (st ← Ok ?s; update_coloring_step wm (Some c) st tup)
    with (update_coloring_step wm (Some c) s tup).
  destruct tup as [key opts]. rewrite filter_cons.
  destruct (is_colored wm (key, opts)) eqn:Hc.
  - rewrite decide_True by done.
    rewrite (step_first wm c key opts Hc).
    rewrite (update_loop_some wm c l _ [(key, opts)]).
    + cbn [fst snd app map list_to_set]. rewrite od_set_set.
      unfold keys_of. do 2 f_equal.
      apply set_eq. intros x. rewrite !elem_of_union, elem_of_empty. tauto.
    + cbn [snd]. rewrite od_get_set. by rewrite decide_True.
  - rewrite decide_False by done.
    rewrite (step_skip wm (Some c) _ _ Hc). apply IH.
Qed.

Lemma keys_of_empty wm l :
  keys_of wm l = ∅ ↔ filter (λ tup, is_colored wm tup = true) l = [].
Proof.
  unfold keys_of. destruct (filter _ l) as [|first rest]; simpl; [done|].
  split; [|done]. intros Hempty.
  assert (Hin : first.1 ∈ ({[first.1]} ∪ list_to_set (map fst rest) : gset akey))
    by by apply elem_of_union_l, elem_of_singleton.
  rewrite Hempty in Hin. by apply elem_of_empty in Hin.
Qed.

(** C6, as the code has it.  [_update_coloring] never raises.  When no
    entry counts as coloured the scheme is left as it is.  Otherwise the new
    list starts with all coloured entries in their order when there is no
    coloring (entries with the same key included), and with one entry for
    all of them when there is one: the key (None, None), and the options of
    the first coloured entry with the coloring under [coloring] and all
    coloured entries in their order under [approxs]; then the entries
    follow whose key is not the key of a coloured entry; and
    [_approx_groups] is reset. *)
Theorem update_coloring_closed_form (self : @ApproximationScheme Coloring Data)
    (wrt_matches : option (gset string)) (coloring : option Coloring) :
  let wm := default ∅ wrt_matches in
  let matching := filter (λ tup, is_colored wm tup = true) (_exec_list self) in
  let keys : gset akey := list_to_set (map fst matching) in
  let rest := filter (λ tup, tup.1 ∉ keys) (_exec_list self) in
  _update_coloring self wrt_matches coloring
  = Ok (match matching with
        | [] => self
        | first :: _ =>
            mk_ApproximationScheme None (_approx_groups_cached_under_cs self)
              (match coloring with
               | None => matching
               | Some c =>
                   [((None, None),
                     OD.set (OD.set first.2 "coloring" (VColoring c)) "approxs"
                            (VApproxs matching))]
               end ++ rest)
        end).
Proof.
  cbv zeta. unfold _update_coloring.
  set (wm := default ∅ wrt_matches).
  pose proof (keys_of_empty wm (_exec_list self)) as Hk. unfold keys_of in Hk.
  destruct coloring as [c|].
  - rewrite update_loop_start. unfold keys_of. revert Hk.
    destruct (filter (λ tup, is_colored wm tup = true) (_exec_list self))
      as [|first more]; intros Hk.
    + simpl. by rewrite bool_decide_true.
    + cbn [mbind result_bind rbind colored new_list].
      rewrite bool_decide_false; [done|].
      intros Hempty. by apply Hk in Hempty.
  - rewrite update_loop_none. unfold keys_of. revert Hk.
    destruct (filter (λ tup, is_colored wm tup = true) (_exec_list self))
      as [|first more]; intros Hk.
    + simpl. rewrite (left_id_L ∅ (∪)). by rewrite bool_decide_true.
    + cbn [mbind result_bind rbind colored new_list app].
      rewrite (left_id_L ∅ (∪)).
      rewrite bool_decide_false; [done|].
      intros Hempty. by apply Hk in Hempty.
Qed.

End coloring_facts.

(** C6, the part that fails.  Without a coloring two requests with the same
    key that both count as coloured are both kept. *)
Lemma same_key_requests_are_kept :
  ∃ s',
    _update_coloring twice_requested (Some {["x"]}) None = Ok s' ∧
    map fst (_exec_list s') = [(Some "f", Some "x"); (Some "f", Some "x")] ∧
    length (_exec_list s') = 2.
Proof.
  eexists. split; [vm_compute; reflexivity|]. split; reflexivity.
Qed.

(** C7.  The multiplier is taken from the data of the last group and is
    applied to the blocks of all groups.  With the group of x (multiplier 2,
    column (1, 2)) before the group of y (multiplier 3, column (10, 20)),
    the block of (f, x) comes out as (3, 6), not (2, 4); with the groups
    the other way round the block of (f, y) comes out as (20, 40), not
    (30, 60). *)
Theorem last_group_multiplier_scales_all_blocks :
  (r ← @_compute_approximations string Z step_scheme two_step_scheme
         serial_system (JacDict []) false false; Ok r.1)
  = Ok (JacDict [((Some "f", Some "x"), Dense (mk_mat 1 [[3]; [6]]%Z));
                 ((Some "f", Some "y"), Dense (mk_mat 1 [[30]; [60]]%Z))]) ∧
  (r ← @_compute_approximations string Z step_scheme two_step_scheme_swapped
         serial_system (JacDict []) false false; Ok r.1)
  = Ok (JacDict [((Some "f", Some "y"), Dense (mk_mat 1 [[20]; [40]]%Z));
                 ((Some "f", Some "x"), Dense (mk_mat 1 [[2]; [4]]%Z))]) ∧
  @_get_multiplier string Z step_scheme (group_data (one_column_group "x" 2 0))
  = 2%Z ∧
  @_get_multiplier string Z step_scheme (group_data (one_column_group "y" 3 1))
  = 3%Z.
Proof.
  split; [vm_compute; reflexivity|].
  split; [vm_compute; reflexivity|].
  split; reflexivity.
Qed.

(** ** The graph traversal *)

Lemma size_list_to_set_le (l : list string) :
  size (list_to_set l : gset string) ≤ length l.
Proof.
  induction l as [|x l IH].
  - change (size (∅ : gset string) ≤ 0). by rewrite size_empty.
  - change (size ({[x]} ∪ list_to_set l : gset string) ≤ S (length l)).
    rewrite size_union_alt, size_singleton.
    pose proof (subseteq_size (list_to_set l ∖ {[x]}) (list_to_set l : gset string)) as Hle.
    assert (list_to_set l ∖ {[x]} ⊆ (list_to_set l : gset string)) as Hsub.
    { intros y Hy. by apply elem_of_difference in Hy as [? _]. }
    specialize (Hle Hsub). lia.
Qed.

Lemma size_add_fresh (U V : gset string) x :
  x ∈ U → x ∉ V → size (U ∖ ({[x]} ∪ V)) + 1 = size (U ∖ V).
Proof.
  intros HU HV.
  assert (Heq : U ∖ V = {[x]} ∪ U ∖ ({[x]} ∪ V)).
  { apply set_eq. intros y.
    rewrite elem_of_union, !elem_of_difference, elem_of_union, elem_of_singleton.
    destruct (decide (y = x)) as [->|Hne]; [tauto|]. tauto. }
  rewrite Heq.
  rewrite (size_union (C:=gset string) {[x]} (U ∖ ({[x]} ∪ V))).
  { rewrite size_singleton. lia. }
  intros y Hy1 Hy2. apply elem_of_singleton in Hy1 as ->.
  apply elem_of_difference in Hy2 as [_ Hy2]. apply Hy2.
  by apply elem_of_union_l, elem_of_singleton.
Qed.

Section traversal.
Context (g : DiGraph) (d : direction).

Let fnext : string → list string :=
  match d with fwd => successors g | rev => predecessors g end.

(** The nodes an edge can lead to. *)
Let targets : gset string :=
  list_to_set (map (match d with fwd => snd | rev => fst end) (g_edges g)).

Lemma fnext_edge a b : b ∈ fnext a ↔ edge_in g d a b.
Proof.
  unfold fnext, edge_in, successors, predecessors. destruct d.
  - rewrite elem_of_remove_dups, list_elem_of_fmap. split.
    + intros ([u v] & -> & [Hin Hu]%list_elem_of_filter). simpl in *. by subst.
    + intros Hin. exists (a, b). split; [done|]. by apply list_elem_of_filter.
  - rewrite elem_of_remove_dups, list_elem_of_fmap. split.
    + intros ([u v] & -> & [Hin Hu]%list_elem_of_filter). simpl in *. by subst.
    + intros Hin. exists (b, a). split; [done|]. by apply list_elem_of_filter.
Qed.

Lemma fnext_targets a b : b ∈ fnext a → b ∈ targets.
Proof.
  intros Hb%fnext_edge. unfold targets, edge_in in *.
  apply elem_of_list_to_set, list_elem_of_fmap.
  destruct d; [by exists (a, b)|by exists (b, a)].
Qed.

Lemma targets_size : size targets ≤ length (g_edges g).
Proof.
  unfold targets. etrans; [apply size_list_to_set_le|]. by rewrite length_map.
Qed.

(** The loop over the targets of one node, when the traversal is not
    restricted to local nodes: the new targets are pushed and marked. *)
Lemma scan_targets_spec (U : gset string) tgts :
  ∀ stack visited,
    (∀ x, x ∈ tgts → x ∈ U) →
    ∃ stack' visited',
      scan_targets g false tgts stack visited = Ok (inr (stack', visited')) ∧
      (∀ x, x ∈ visited' ↔ x ∈ visited ∨ x ∈ tgts) ∧
      (∀ x, x ∈ stack' ↔ x ∈ stack ∨ (x ∈ tgts ∧ x ∉ visited)) ∧
      length stack' + size (U ∖ visited') = length stack + size (U ∖ visited).
Proof.
  induction tgts as [|tgt tgts IH]; intros stack visited HU; simpl.
  - exists stack, visited. split; [done|]. split; [|split; [|done]].
    + intros x. rewrite elem_of_nil. tauto.
    + intros x. rewrite elem_of_nil. tauto.
  - assert (HU' : ∀ x, x ∈ tgts → x ∈ U) by (intros x Hx; apply HU; by right).
    destruct (decide (tgt ∈ visited)) as [Hin|Hnin].
    + rewrite bool_decide_true by done.
      destruct (IH stack visited HU') as (stack' & visited' & -> & Hv & Hs & Hsz).
      exists stack', visited'. split; [done|]. split; [|split; [|done]].
      * intros x. rewrite Hv, elem_of_cons.
        split; [tauto|]. intros [?|[->|?]]; tauto.
      * intros x. rewrite Hs, elem_of_cons.
        split; [tauto|]. intros [?|[[->|?] ?]]; tauto.
    + rewrite bool_decide_false by done.
      destruct (IH (tgt :: stack) ({[tgt]} ∪ visited) HU')
        as (stack' & visited' & -> & Hv & Hs & Hsz).
      exists stack', visited'. split; [done|]. split; [|split].
      * intros x. rewrite Hv, elem_of_union, elem_of_singleton, elem_of_cons.
        tauto.
      * intros x.
        rewrite Hs, elem_of_union, elem_of_singleton, !elem_of_cons.
        destruct (decide (x = tgt)) as [->|Hne]; tauto.
      * rewrite Hsz. simpl.
        pose proof (size_add_fresh U visited tgt) as Hf.
        specialize (Hf (HU tgt (list_elem_of_here _ _)) Hnin). lia.
Qed.

(** With enough rounds the loop returns the nodes that can be reached. *)
Lemma dfs_loop_spec start fuel :
  ∀ stack visited,
    start ∈ visited →
    (∀ x, x ∈ stack → x ∈ visited) →
    (∀ x, x ∈ visited → x ∈ ({[start]} ∪ targets : gset string)) →
    (∀ a b, a ∈ visited → a ∉ stack → edge_in g d a b → b ∈ visited) →
    (∀ x, x ∈ visited → reaches g d start x) →
    size (({[start]} ∪ targets) ∖ visited) + length stack + 1 ≤ fuel →
    ∃ v, dfs_loop fuel g fnext false stack visited = Some (Ok v) ∧
         ∀ n, n ∈ v ↔ reaches g d start n.
Proof.
  induction fuel as [|fuel IH]; intros stack visited Hstart Hstack HU Hclosed Hreach Hfuel;
    [lia|].
  simpl. destruct stack as [|src stack].
  - exists visited. split; [done|]. intros n. split; [apply Hreach|].
    intros Hn.
    assert (Hcl : ∀ a m, rtc (edge_in g d) a m → a ∈ visited → m ∈ visited).
    { clear -Hclosed. intros a m Hr.
      induction Hr as [|a b c Hab Hbc IHr]; [done|].
      intros Ha. apply IHr.
      eapply Hclosed; [exact Ha|apply not_elem_of_nil|exact Hab]. }
    by eapply Hcl.
  - assert (Hsrc : src ∈ visited) by (apply Hstack; by left).
    destruct (scan_targets_spec ({[start]} ∪ targets) (fnext src) stack visited)
      as (stack' & visited' & -> & Hv & Hs & Hsz).
    { intros x Hx. apply elem_of_union_r. by eapply fnext_targets. }
    apply IH.
    + apply Hv. by left.
    + intros x [Hx|[Hx _]]%Hs; apply Hv; [left; apply Hstack; by right|by right].
    + intros x [Hx|Hx]%Hv; [by apply HU|].
      apply elem_of_union_r. by eapply fnext_targets.
    + intros a b Ha Hna Hab.
      apply Hv in Ha as [Ha|Ha].
      * destruct (decide (a = src)) as [->|Hne].
        -- apply Hv. right. by apply fnext_edge.
        -- apply Hv. left. eapply Hclosed; [exact Ha| |exact Hab].
           intros [?|Hin]%elem_of_cons; [done|]. apply Hna, Hs. by left.
      * destruct (decide (a ∈ visited)) as [Hin|Hnin].
        -- destruct (decide (a = src)) as [->|Hne].
           ++ apply Hv. right. by apply fnext_edge.
           ++ apply Hv. left. eapply Hclosed; [exact Hin| |exact Hab].
              intros [?|Hin']%elem_of_cons; [done|]. apply Hna, Hs. by left.
        -- exfalso. apply Hna, Hs. by right.
    + intros x [Hx|Hx]%Hv; [by apply Hreach|].
      eapply rtc_r; [apply Hreach, Hsrc|]. by apply fnext_edge.
    + simpl in Hfuel. lia.
Qed.

End traversal.

(** The traversal that is not restricted to local nodes always returns:
    for a start node of the graph, the set of the nodes that can be reached
    from it in the direction asked for, the start node included; for any
    other name, the empty set. *)
Theorem dependent_nodes_are_the_reachable_nodes g start d :
  ∃ visited,
    _dependent_nodes g start d false = Some (Ok visited) ∧
    ∀ n, n ∈ visited ↔ has_node g start = true ∧ reaches g d start n.
Proof.
  unfold _dependent_nodes, has_node, OD.mem.
  destruct (OD.get (g_nodes g) start) as [node|].
  - destruct (dfs_loop_spec g d start (dfs_fuel g) [start] {[start]})
      as (v & Hv & Hreach).
    + by apply elem_of_singleton.
    + intros x ->%list_elem_of_singleton. by apply elem_of_singleton.
    + intros x ->%elem_of_singleton. by apply elem_of_union_l, elem_of_singleton.
    + intros a b ->%elem_of_singleton Hna. exfalso. apply Hna. by left.
    + intros x ->%elem_of_singleton. apply rtc_refl.
    + unfold dfs_fuel.
      pose proof (targets_size g d) as Ht.
      pose proof (subseteq_size
                    (({[start]} ∪ list_to_set (map (match d with fwd => snd | rev => fst end) (g_edges g))) ∖ {[start]})
                    (list_to_set (map (match d with fwd => snd | rev => fst end) (g_edges g)) : gset string)) as Hsub.
      simpl. cbv zeta in Ht. 
      assert (Hle : size (({[start]} ∪ list_to_set (map (match d with fwd => snd | rev => fst end) (g_edges g))) ∖ ({[start]} : gset string))
                    ≤ length (g_edges g)).
      { etrans; [apply Hsub|exact Ht].
        intros y Hy. apply elem_of_difference in Hy as [Hy Hne].
        apply elem_of_union in Hy as [Hy|Hy]; [done|done]. }
      lia.
    + exists v. split; [by destruct d|]. intros n. rewrite Hreach. tauto.
  - exists ∅. split; [done|]. intros n. rewrite elem_of_empty.
    split; [done|]. by intros [? _].
Qed.

Section traversal_local.
Context (g : DiGraph) (d : direction).

Let fnext : string → list string :=
  match d with fwd => successors g | rev => predecessors g end.

Let universe (start : string) : gset string :=
  {[start]} ∪ list_to_set (map (match d with fwd => snd | rev => fst end)
                               (g_edges g)).

(** The loop over the targets in either mode, when it does not raise. *)
Lemma scan_targets_sound (U : gset string) local_only tgts :
  ∀ stack visited,
    (∀ x, x ∈ tgts → x ∈ U) →
    match scan_targets g local_only tgts stack visited with
    | Raise _ => True
    | Ok (inl v) => ∀ x, x ∈ v → x ∈ visited ∨ x ∈ tgts
    | Ok (inr (stack', visited')) =>
        (∀ x, x ∈ visited' → x ∈ visited ∨ x ∈ tgts) ∧
        (∀ x, x ∈ visited → x ∈ visited') ∧
        (∀ x, x ∈ stack' → x ∈ stack ∨ x ∈ visited') ∧
        length stack' + size (U ∖ visited') = length stack + size (U ∖ visited)
    end.
Proof.
  induction tgts as [|tgt tgts IH]; intros stack visited HU; simpl.
  - repeat split; auto.
  - assert (HU' : ∀ x, x ∈ tgts → x ∈ U) by (intros x Hx; apply HU; by right).
    destruct (decide (tgt ∈ visited)) as [Hin|Hnin].
    + rewrite bool_decide_true by done.
      specialize (IH stack visited HU').
      destruct (scan_targets g local_only tgts stack visited)
        as [[v|[stack' visited']]|e]; [| |done].
      * intros x Hx. destruct (IH x Hx); [by left|right; by right].
      * destruct IH as (Hv & Hmono & Hs & Hsz). repeat split; [|done..].
        intros x Hx. destruct (Hv x Hx); [by left|right; by right].
    + rewrite bool_decide_false by done.
      destruct (if local_only then _ else _) as [stop|e]; [|done]. simpl.
      destruct stop.
      * intros x Hx. by left.
      * specialize (IH (tgt :: stack) ({[tgt]} ∪ visited) HU').
        destruct (scan_targets g local_only tgts (tgt :: stack) ({[tgt]} ∪ visited))
          as [[v|[stack' visited']]|e']; [| |done].
        -- intros x Hx. destruct (IH x Hx) as [Hx'|Hx']; [|right; by right].
           apply elem_of_union in Hx' as [->%elem_of_singleton|Hx'];
             [right; by left|by left].
        -- destruct IH as (Hv & Hmono & Hs & Hsz). split; [|split; [|split]].
           ++ intros x Hx. destruct (Hv x Hx) as [Hx'|Hx']; [|right; by right].
              apply elem_of_union in Hx' as [->%elem_of_singleton|Hx'];
                [right; by left|by left].
           ++ intros x Hx. by apply Hmono, elem_of_union_r.
           ++ intros x Hx. destruct (Hs x Hx) as [[->|Hx']%elem_of_cons|Hx'].
              ** right. by apply Hmono, elem_of_union_l, elem_of_singleton.
              ** by left.
              ** by right.
           ++ rewrite Hsz. simpl.
              pose proof (size_add_fresh U visited tgt) as Hf.
              specialize (Hf (HU tgt (list_elem_of_here _ _)) Hnin). lia.
Qed.

(** In either mode the loop ends within the rounds it is given, and what
    it returns can be reached from the start. *)
Lemma dfs_loop_ends start local_only fuel :
  ∀ stack visited,
    (∀ x, x ∈ stack → x ∈ visited) →
    (∀ x, x ∈ visited → x ∈ universe start) →
    (∀ x, x ∈ visited → reaches g d start x) →
    size (universe start ∖ visited) + length stack + 1 ≤ fuel →
    ∃ r, dfs_loop fuel g fnext local_only stack visited = Some r ∧
         ∀ v, r = Ok v → ∀ n, n ∈ v → reaches g d start n.
Proof.
  induction fuel as [|fuel IH]; intros stack visited Hstack HU Hreach Hfuel;
    [lia|].
  simpl. destruct stack as [|src stack].
  - exists (Ok visited). split; [done|]. by intros v [= <-].
  - assert (Hsrc : src ∈ visited) by (apply Hstack; by left).
    assert (Htg : ∀ x, x ∈ fnext src → x ∈ universe start).
    { intros x Hx. apply elem_of_union_r. by eapply (fnext_targets g d). }
    pose proof (scan_targets_sound (universe start) local_only (fnext src)
                                   stack visited Htg) as Hscan.
    destruct (scan_targets g local_only (fnext src) stack visited)
      as [[v|[stack' visited']]|e].
    + exists (Ok v). split; [done|]. intros ? [= <-] n Hn.
      destruct (Hscan n Hn) as [Hn'|Hn']; [by apply Hreach|].
      eapply rtc_r; [apply Hreach, Hsrc|]. by apply (fnext_edge g d).
    + destruct Hscan as (Hv & Hmono & Hs & Hsz).
      apply IH.
      * intros x Hx. destruct (Hs x Hx) as [Hx'|Hx']; [|done].
        apply Hmono, Hstack. by right.
      * intros x Hx. destruct (Hv x Hx) as [Hx'|Hx']; [by apply HU|by apply Htg].
      * intros x Hx. destruct (Hv x Hx) as [Hx'|Hx']; [by apply Hreach|].
        eapply rtc_r; [apply Hreach, Hsrc|]. by apply (fnext_edge g d).
      * simpl in Hfuel. lia.
    + exists (Raise e). split; [done|]. by intros v [=].
Qed.

End traversal_local.

(** The traversal ends in either mode: it returns or raises, and a set
    that it returns holds only nodes that can be reached from the start
    node. *)
Theorem dependent_nodes_ends g start d local_only :
  ∃ r, _dependent_nodes g start d local_only = Some r ∧
       ∀ v, r = Ok v → ∀ n, n ∈ v → reaches g d start n.
Proof.
  unfold _dependent_nodes.
  destruct (OD.get (g_nodes g) start) as [node|].
  - destruct (if local_only then _ else _) as [[]|e].
    + exists (Ok ∅). split; [done|]. intros v [= <-] n Hn.
      by apply elem_of_empty in Hn.
    + destruct (dfs_loop_ends g d start local_only (dfs_fuel g) [start] {[start]})
        as (r & Hr & Hsound).
      * intros x ->%list_elem_of_singleton. by apply elem_of_singleton.
      * intros x ->%elem_of_singleton. by apply elem_of_union_l, elem_of_singleton.
      * intros x ->%elem_of_singleton. apply rtc_refl.
      * unfold dfs_fuel.
        pose proof (targets_size g d) as Ht. cbv zeta in Ht.
        set (T := list_to_set (map (match d with fwd => snd | rev => fst end)
                                   (g_edges g)) : gset string) in *.
        assert (Hle : size (({[start]} ∪ T) ∖ {[start]}) ≤ length (g_edges g)).
        { etrans; [apply (subseteq_size _ T)|exact Ht].
          intros y Hy. apply elem_of_difference in Hy as [Hy Hne].
          by apply elem_of_union in Hy as [Hy|Hy]. }
        simpl. lia.
      * exists r. split; [by destruct d|done].
    + exists (Raise e). split; [done|]. by intros v [=].
  - exists (Ok ∅). split; [done|]. intros v [= <-] n Hn.
    by apply elem_of_empty in Hn.
Qed.

(** ** Further properties of the engine *)

Section engine_more.
Context `{Helpers}.
Context (hash_inj : ∀ a b : list bool, array_hash a = array_hash b → a = b).

(** What client code never changes.  On an engine that was constructed
    with seeds in both directions, queries and scopes leave the graph, the
    seeds of the construction, the per-seed arrays, the index tables and the
    nonlinear sets as they are, and the cache only grows. *)
Theorem client_code_keeps_tables model fwd_meta rev_meta st0 model' c :
  fwd_meta ≠ [] → rev_meta ≠ [] →
  __init__ model fwd_meta rev_meta = Ok (st0, model') →
  frozen st0 (exec c st0).2.
Proof.
  intros Hfm Hrm Hinit.
  destruct (exec_steady hash_inj c st0) as [_ Hf]; [|done].
  exact (init_inv hash_inj _ _ _ _ _ Hfm Hrm Hinit).
Qed.

(** [get_relevance] without derivatives, or without responses, or without
    design variables, gives an engine that stays inactive: whatever client
    code does, all its queries are answered [True]. *)
Theorem get_relevance_inactive_cases model of_ wrt st0 model' c :
  _use_derivatives model = false ∨ of_ = [] ∨ wrt = [] →
  get_relevance model of_ wrt = Ok (st0, model') →
  _active (exec c st0).2 = Some false ∧
  Forall (λ b, b = true) (exec c st0).1.2.
Proof.
  intros Hcase Hget. apply exec_inactive.
  unfold get_relevance in Hget.
  destruct (negb (_use_derivatives model)
            || match of_, wrt with [], [] => true | _, _ => false end) eqn:Hb.
  - eapply init_inactive; [|exact Hget]. by left.
  - eapply init_inactive; [|exact Hget].
    destruct Hcase as [Hd|[->| ->]].
    + by rewrite Hd in Hb.
    + by right.
    + by left.
Qed.

(** An exception on the way into a scope.  [seeds_active] sets the flag
    and calls [_set_seeds] before its [try] block: when [_set_seeds]
    raises, the body is not run, the exception leaves the scope, and the
    engine stays active with the seeds that were asked for. *)
Theorem failed_scope_entry_stays_active {A} (body : M A) fs rs st e :
  _active st ≠ Some false →
  let F := match fs with None => (_all_seed_vars st).1
                       | Some l => list_to_set l end in
  let R := match rs with None => (_all_seed_vars st).2
                       | Some l => list_to_set l end in
  (_set_seeds F R (upd_active (Some true) st)).1 = Raise e →
  (seeds_active fs rs body st).1 = Raise e ∧
  _active (seeds_active fs rs body st).2 = Some true ∧
  _seed_vars (seeds_active fs rs body st).2 = (F, R).
Proof.
  intros Ha F R Hraise. unfold seeds_active.
  rewrite bool_decide_false by done. rewrite bind_run.
  change (_all_seed_vars (upd_active (Some true) st)) with (_all_seed_vars st).
  fold F R.
  destruct (_set_seeds F R (upd_active (Some true) st)) as [[[]|e'] st1] eqn:Hs;
    simpl in Hraise; [done|]. injection Hraise as ->.
  simpl. split; [done|].
  unfold _set_seeds in Hs. rewrite bind_run in Hs. simpl in Hs.
  destruct (negb (bool_decide (F = ∅)) && negb (bool_decide (R = ∅))); [|done].
  rewrite bind_run in Hs.
  set (st0 := upd_seed_vars (F, R) (upd_active (Some true) st)) in Hs.
  pose proof (get_rel_array_quiet Var (KSet F) (KSet R) st0) as Hq1.
  unfold post in Hq1.
  destruct (_get_rel_array Var (KSet F) (KSet R) st0) as [[va|e1] st2].
  - rewrite bind_run in Hs. simpl in Hs. rewrite bind_run in Hs.
    set (st3 := upd_current_rel_varray (Some va) st2) in Hs.
    pose proof (get_rel_array_quiet Sys (KSet F) (KSet R) st3) as Hq2.
    unfold post in Hq2.
    destruct (_get_rel_array Sys (KSet F) (KSet R) st3) as [[sa|e2] st4];
      [done|].
    injection Hs as _ <-.
    destruct Hq1 as [Ha1 Hs1 _ _], Hq2 as [Ha2 Hs2 _ _].
    split; [by rewrite Ha2; simpl; rewrite Ha1|by rewrite Hs2; simpl; rewrite Hs1].
  - injection Hs as _ <-. destruct Hq1 as [Ha1 Hs1 _ _].
    split; [by rewrite Ha1|by rewrite Hs1].
Qed.

End engine_more.

(** On the chain engine the tables are the same after the nested scopes. *)
Lemma chain_tables_after_scopes :
  frozen two_seed_engine
         (@exec (demo_helpers no_sccs) nested_seeds_prog two_seed_engine).2.
Proof.
  apply (@client_code_keeps_tables (demo_helpers no_sccs) hash_bits_inj
           (serial_model chain_graph) [seed "c1.x"; seed "d.z"] [seed "c2.y"]
           two_seed_engine two_seed_model).
  - discriminate.
  - discriminate.
  - exact two_seed_init_eq.
Defined.

Lemma no_derivs_init_eq :
  @get_relevance (demo_helpers no_sccs) no_derivs_model
                 [seed "c2.y"] [seed "c1.x"]
  = Ok (no_derivs_engine, no_derivs_model').
Proof.
  unfold no_derivs_engine, no_derivs_model', no_derivs_init.
  assert (is_ok (@get_relevance (demo_helpers no_sccs) no_derivs_model
                   [seed "c2.y"] [seed "c1.x"]) = true) as Hok
    by (vm_compute; reflexivity).
  destruct (@get_relevance (demo_helpers no_sccs) no_derivs_model
              [seed "c2.y"] [seed "c1.x"]) as [[st m]|e];
    [reflexivity|discriminate Hok].
Qed.

(** With derivatives switched off the engine of the chain is inactive,
    seeds or not. *)
Lemma no_derivs_engine_is_inactive :
  _active (@exec (demo_helpers no_sccs) unknown_name_prog no_derivs_engine).2
    = Some false ∧
  Forall (λ b, b = true)
    (@exec (demo_helpers no_sccs) unknown_name_prog no_derivs_engine).1.2.
Proof.
  apply (@get_relevance_inactive_cases (demo_helpers no_sccs) no_derivs_model
           [seed "c2.y"] [seed "c1.x"] no_derivs_engine no_derivs_model').
  - left. reflexivity.
  - exact no_derivs_init_eq.
Defined.

(** A scope for a seed that the engine does not know: [KeyError], and the
    engine is left active. *)
Lemma unknown_seed_scope_on_chain :
  (@seeds_active (demo_helpers no_sccs) unit (Some ["nowhere"]) (Some ["c2.y"])
                 (mret tt) two_seed_engine).1 = Raise KeyError ∧
  _active (@seeds_active (demo_helpers no_sccs) unit (Some ["nowhere"])
                         (Some ["c2.y"]) (mret tt) two_seed_engine).2
    = Some true ∧
  _seed_vars (@seeds_active (demo_helpers no_sccs) unit (Some ["nowhere"])
                            (Some ["c2.y"]) (mret tt) two_seed_engine).2
    = (list_to_set ["nowhere"], list_to_set ["c2.y"]).
Proof.
  apply (@failed_scope_entry_stays_active (demo_helpers no_sccs) unit (mret tt)
           (Some ["nowhere"]) (Some ["c2.y"]) two_seed_engine KeyError).
  - vm_compute. discriminate.
  - vm_compute. reflexivity.
Defined.

(** ** Further properties of the approximation schemes *)

Lemma filter_all {A} (P : A → Prop) `{∀ x, Decision (P x)} (l : list A) :
  (∀ x, x ∈ l → P x) → filter P l = l.
Proof.
  induction l as [|x l IH]; intros HP; [done|].
  rewrite filter_cons, decide_True by (apply HP; by left).
  rewrite IH; [done|]. intros y Hy. apply HP. by right.
Qed.

Lemma filter_none {A} (P : A → Prop) `{∀ x, Decision (P x)} (l : list A) :
  (∀ x, x ∈ l → ¬ P x) → filter P l = [].
Proof.
  induction l as [|x l IH]; intros HP; [done|].
  rewrite filter_cons, decide_False by (apply HP; by left).
  apply IH. intros y Hy. apply HP. by right.
Qed.

Section coloring_more.
Context {Coloring Data : Type}.

(** What [_update_coloring] returns, in one expression. *)
Lemma update_coloring_result (self : @ApproximationScheme Coloring Data)
    (wrt_matches : option (gset string)) (coloring : option Coloring) :
  _update_coloring self wrt_matches coloring
  = Ok (match filter (λ tup, is_colored (default ∅ wrt_matches) tup = true)
                     (_exec_list self) with
        | [] => self
        | first :: more =>
            mk_ApproximationScheme None (_approx_groups_cached_under_cs self)
              (match coloring with
               | None => first :: more
               | Some c =>
                   [((None, None),
                     OD.set (OD.set first.2 "coloring" (VColoring c)) "approxs"
                            (VApproxs (first :: more)))]
               end
               ++ filter (λ tup, tup.1 ∉ (list_to_set (map fst (first :: more))
                                          : gset akey))
                         (_exec_list self))
        end).
Proof.
  unfold _update_coloring.
  set (wm := default ∅ wrt_matches).
  assert (Hk : ∀ (first : @approx Coloring) more,
             (list_to_set (map fst (first :: more)) : gset akey) ≠ ∅).
  { intros first more Hempty.
    assert (Hin : first.1 ∈ ({[first.1]} ∪ list_to_set (map fst more) : gset akey))
      by by apply elem_of_union_l, elem_of_singleton.
    simpl in Hempty. rewrite Hempty in Hin. by apply elem_of_empty in Hin. }
  destruct coloring as [c|].
  - rewrite update_loop_start.
    destruct (filter (λ tup, is_colored wm tup = true) (_exec_list self))
      as [|first more].
    + simpl. by rewrite bool_decide_true.
    + cbn [mbind result_bind rbind colored new_list].
      rewrite bool_decide_false; [done|]. apply Hk.
  - rewrite update_loop_none.
    destruct (filter (λ tup, is_colored wm tup = true) (_exec_list self))
      as [|first more].
    + simpl. rewrite (left_id_L ∅ (∪)). by rewrite bool_decide_true.
    + cbn [mbind result_bind rbind colored new_list app].
      rewrite (left_id_L ∅ (∪)).
      rewrite bool_decide_false; [done|]. apply Hk.
Qed.

(** A second call changes nothing.  Once [_update_coloring] has run, a
    further call for the same columns leaves the scheme as it is, whatever
    coloring it is given after a call with a coloring, and without a
    coloring after a call without one. *)
Theorem update_coloring_again (self s1 : @ApproximationScheme Coloring Data)
    (wrt_matches : option (gset string)) (coloring coloring' : option Coloring) :
  _update_coloring self wrt_matches coloring = Ok s1 →
  (coloring = None → coloring' = None) →
  _update_coloring s1 wrt_matches coloring' = Ok s1.
Proof.
  rewrite !update_coloring_result.
  set (wm := default ∅ wrt_matches).
  set (P := λ tup : @approx Coloring, is_colored wm tup = true).
  destruct (filter P (_exec_list self)) as [|first more] eqn:HM.
  - intros [= <-] _. by rewrite HM.
  - set (M := first :: more) in *.
    set (K := list_to_set (map fst M) : gset akey).
    set (Rst := filter (λ tup, tup.1 ∉ K) (_exec_list self)).
    assert (HMP : ∀ x, x ∈ M → P x ∧ x.1 ∈ K).
    { intros x Hx. split.
      - rewrite <- HM in Hx. by apply list_elem_of_filter in Hx as [? _].
      - apply elem_of_list_to_set, list_elem_of_fmap. by exists x. }
    assert (HR : ∀ x, x ∈ Rst → ¬ P x ∧ x.1 ∉ K).
    { intros x [HxK HxE]%list_elem_of_filter. split; [|done].
      intros HP. apply HxK.
      apply elem_of_list_to_set, list_elem_of_fmap. exists x. split; [done|].
      rewrite <- HM. by apply list_elem_of_filter. }
    assert (HfR : filter P Rst = []).
    { apply filter_none. intros x Hx. by apply HR. }
    destruct coloring as [c|]; intros [= <-] Hnone;
      cbn [_exec_list _approx_groups_cached_under_cs].
    + rewrite filter_cons, decide_False; [by rewrite HfR|].
      unfold P, is_colored. simpl. discriminate.
    + rewrite (Hnone eq_refl).
      change (first :: more ++ Rst) with (M ++ Rst).
      assert (HfM : filter P (M ++ Rst) = first :: more).
      { rewrite filter_app, HfR, app_nil_r.
        apply (filter_all P M). intros x Hx. by apply HMP. }
      rewrite HfM. change (first :: more) with M. fold K.
      rewrite filter_app.
      rewrite (filter_none (λ tup, tup.1 ∉ K) M);
        [|intros x Hx Hn; apply Hn; by apply HMP].
      rewrite (filter_all (λ tup, tup.1 ∉ K) Rst);
        [|intros x Hx; by apply HR].
      done.
Qed.

End coloring_more.

(** The request for (f, x) is consolidated once; a second call with
    another coloring changes nothing. *)
Lemma update_coloring_twice_on_two_requests :
  ∃ s1,
    _update_coloring two_requests (Some {["x"]}) (Some "first") = Ok s1 ∧
    _update_coloring s1 (Some {["x"]}) (Some "second") = Ok s1 ∧
    length (_exec_list s1) = 2.
Proof.
  eexists. split; [vm_compute; reflexivity|]. split; [|reflexivity].
  apply (@update_coloring_again string Z two_requests _ (Some {["x"]})
           (Some "first") (Some "second")).
  - vm_compute. reflexivity.
  - discriminate.
Defined.

(** ** Further properties of [_compute_approximations] *)

(** A loop that stops at the first exception keeps what every round keeps. *)
Lemma foldl_result_inv {A B} (F : result B → A → result B) (I : B → Prop)
    (l : list A) :
  (∀ e a, F (Raise e) a = Raise e) →
  (∀ b a b', I b → F (Ok b) a = Ok b' → I b') →
  ∀ b b', I b → foldl F (Ok b) l = Ok b' → I b'.
Proof.
  intros HF HI. induction l as [|a l IH]; intros b b' Hb; simpl.
  - by intros [= <-].
  - destruct (F (Ok b) a) as [b1|e] eqn:Hstep.
    + apply IH. by eapply HI.
    + by rewrite foldl_raise.
Qed.

Section compute_facts.
Context {Coloring Data : Type} `{!@Scheme Coloring Data}.

(** No groups.  When [_get_approx_groups] gives an empty list, the line
    that takes the multiplier finds its variable [data] unbound. *)
Theorem compute_without_groups_raises (self : @ApproximationScheme Coloring Data)
    system jac total under_cs :
  (_get_approx_groups self system under_cs).1 = Some [] →
  _compute_approximations self system jac total under_cs
  = Raise UnboundLocalError.
Proof.
  intros Hg. unfold _compute_approximations.
  destruct (_get_approx_groups self system under_cs) as [groups self'].
  simpl in Hg. by subst groups.
Qed.

Lemma scatter_colored_shape cols (tmpJ : @colored_tmpJ Coloring) nz_rows
    result_ p p' :
  scatter_colored cols tmpJ nz_rows result_ p = Ok p' →
  colored_shape p' = colored_shape p.
Proof.
  unfold scatter_colored. destruct nz_rows as [nz|].
  - apply (foldl_result_inv _ (λ q, colored_shape q = colored_shape p));
      [by intros e [i col]| |done].
    intros q [i col] q' Hq. simpl.
    destruct (nz !! i) as [r|]; [|done]. simpl.
    destruct (match t_row_idx_map tmpJ with
              | Some rowmap => _
              | None => _
              end) as [v|]; [|done].
    simpl. by intros [= <-].
  - destruct (np_index _ _) as [r|]; [|done]. simpl. by intros [= <-].
Qed.

Lemma probe_column_shape system results_array total wrt data
    (tmpJ : wrt_tmpJ) idx_info p J i_count idxs p' J' :
  probe_column system results_array total wrt data tmpJ idx_info (p, J)
               i_count idxs = Ok (p', J') →
  colored_shape p' = colored_shape p.
Proof.
  unfold probe_column.
  destruct (bool_decide (fd_count p mod num_par_fd system = _par_fd_id system)).
  - destruct (head idx_info) as [arr|]; [|done]. simpl.
    destruct (is_parallel system).
    + destruct (foldl _ _ _) as [res|]; [|done]. simpl. by intros [= <- _].
    + destruct (np_index _ _) as [r|]; [|done]. simpl.
      destruct (set_col _ _ _) as [dd|]; [|done]. simpl. by intros [= <- _].
  - simpl. by intros [= <- _].
Qed.

(** A round of the first loop keeps the shape of the coloured matrix once
    it is set, and a coloured group sets it. *)
Lemma probe_group_shape system results_array total p
    (g : @approx_group Coloring Data) p' g' :
  probe_group system results_array total p g = Ok (p', g') →
  (colored_shape p ≠ None → colored_shape p' ≠ None) ∧
  ((∃ data cols tmpJ idx_info nz_rows,
      g = ColoredGroup data cols tmpJ idx_info nz_rows) →
   colored_shape p' ≠ None).
Proof.
  unfold probe_group. destruct g as [data cols tmpJ idx_info nz_rows|
                                     wrt data in_idx tmpJ idx_info].
  - set (p0 := mk_probes _ _ _ _ _ _).
    destruct (bool_decide (fd_count p0 mod num_par_fd system = _par_fd_id system)).
    + destruct (par_fd_w_serial_model system || negb (is_parallel system));
        [|done].
      destruct (scatter_colored _ _ _ _ _) as [p1|] eqn:Hsc; [|done].
      simpl. intros [= <- _]. simpl.
      rewrite (scatter_colored_shape _ _ _ _ _ _ Hsc). by split.
    + simpl. intros [= <- _]. by split.
  - destruct (OD.get (t_J tmpJ) wrt) as [J|]; [|done]. simpl.
    destruct (foldl _ _ _) as [[p1 J1]|] eqn:Hfold; [|done]. simpl.
    intros [= <- _].
    assert (Hsame : colored_shape p1 = colored_shape p).
    { revert Hfold.
      apply (foldl_result_inv _ (λ r, colored_shape r.1 = colored_shape p));
        [by intros e [i idxs]| |done].
      intros [q Jq] [i idxs] [q' Jq'] Hq. simpl in *.
      intros Hcol%probe_column_shape. by rewrite Hcol. }
    rewrite Hsame. split; [done|]. by intros (? & ? & ? & ? & ? & [=]).
Qed.

Lemma probe_groups_shape system results_array total
    (groups : list (@approx_group Coloring Data)) p groups' :
  probe_groups system results_array total groups = Ok (p, groups') →
  (∃ data cols tmpJ idx_info nz_rows,
     ColoredGroup data cols tmpJ idx_info nz_rows ∈ groups) →
  colored_shape p ≠ None.
Proof.
  unfold probe_groups.
  set (F := λ (acc : result (probes * list approx_group)) (g : approx_group), _).
  assert (HF : ∀ e a, F (Raise e) a = Raise e) by done.
  assert (Hgen : ∀ l start r,
             foldl F (Ok start) l = Ok r →
             (colored_shape start.1 ≠ None → colored_shape r.1 ≠ None) ∧
             ((∃ data cols tmpJ idx_info nz_rows,
                 ColoredGroup data cols tmpJ idx_info nz_rows ∈ l) →
              colored_shape r.1 ≠ None)).
  { induction l as [|g l IH]; intros start r.
    - simpl. intros [= <-]. split; [done|].
      by intros (? & ? & ? & ? & ? & ?%elem_of_nil).
    - change (foldl F (Ok start) (g :: l)) with (foldl F (F (Ok start) g) l).
      destruct (F (Ok start) g) as [mid|e] eqn:Hstep;
        [|by rewrite foldl_raise].
      intros Hrest. destruct (IH _ _ Hrest) as [Hkeep Hset].
      unfold F in Hstep. destruct start as [p0 done0]. simpl in Hstep.
      destruct (probe_group system results_array total p0 g)
        as [[p1 g1]|] eqn:Hg; [|done].
      simpl in Hstep. injection Hstep as <-.
      destruct (probe_group_shape _ _ _ _ _ _ _ Hg) as [Hk1 Hs1]. simpl in *.
      split; [by intros ?; apply Hkeep, Hk1|].
      intros (data & cols & tmpJ & idx_info & nz_rows & [Heq|Hin]%elem_of_cons).
      + apply Hkeep, Hs1. by do 5 eexists.
      + apply Hset. by do 5 eexists. }
  intros Hfold Hcol. by apply (Hgen _ _ _ Hfold).
Qed.

(** Colouring on a parallel system.  With a coloured group, on a system
    that is parallel without being a serial model under parallel finite
    differences, [_compute_approximations] never returns: it ends in an
    exception (the [NotImplementedError] of the first loop or of the
    assembly, if nothing else is raised before). *)
Theorem colored_on_parallel_system_raises
    (self : @ApproximationScheme Coloring Data) system jac total under_cs groups :
  (_get_approx_groups self system under_cs).1 = Some groups →
  (∃ data cols tmpJ idx_info nz_rows,
     ColoredGroup data cols tmpJ idx_info nz_rows ∈ groups) →
  is_parallel system = true → par_fd_w_serial_model system = false →
  ∃ e, _compute_approximations self system jac total under_cs = Raise e.
Proof.
  intros Hg Hcol Hpar Hser. unfold _compute_approximations.
  destruct (_get_approx_groups self system under_cs) as [gs self'].
  simpl in Hg. subst gs. simpl.
  destruct (probe_groups _ _ _ _) as [[p groups']|e] eqn:Hprobe;
    [|by eexists].
  simpl. destruct (last groups') as [g|]; [|by eexists]. simpl.
  pose proof (probe_groups_shape _ _ _ _ _ _ Hprobe Hcol) as Hshape.
  destruct (colored_shape p) as [shape|]; [|done].
  unfold assemble_colored. rewrite Hser, Hpar. simpl. by eexists.
Qed.

End compute_facts.

(** A scheme without groups on the serial system. *)
Lemma compute_without_groups_example :
  @_compute_approximations string Z step_scheme no_groups_scheme
    serial_system (JacDict []) false false
  = Raise UnboundLocalError.
Proof.
  apply (@compute_without_groups_raises string Z step_scheme).
  reflexivity.
Defined.

(** The coloured group on two processes. *)
Lemma colored_on_two_processes :
  ∃ e, @_compute_approximations string Z step_scheme one_color_scheme
         parallel_system (JacDict []) false false = Raise e.
Proof.
  apply (@colored_on_parallel_system_raises string Z step_scheme
           one_color_scheme parallel_system (JacDict []) false false
           (default [] (_approx_groups one_color_scheme))).
  - reflexivity.
  - do 5 eexists. apply list_elem_of_here.
  - reflexivity.
  - reflexivity.
Defined.
